(** * PYPOWER: bus admittance matrix and power-injection derivatives

    A shallow embedding of [makeYbus.py] and [dSbus_dV.py].

    Numbers.  The programs compute with NumPy [float64] and [complex128]
    arrays.  Rounding and overflow are idealised away: a finite number is an
    exact real (Stdlib [R]) or an exact complex number (a pair of reals).
    What is kept of IEEE arithmetic is the one exceptional behaviour the
    programs can trigger, division by zero: NumPy does not raise there, it
    stores [inf] or [nan] and goes on.  All values with an [inf] or [nan]
    component are collapsed into the single value [NonFin], which every
    arithmetic operation propagates.  Doubles that overflow or underflow
    leave this idealisation; the statements that conclude that a result is
    finite, or exactly zero, are made for inputs of moderate size (module
    [Float64]), where they cannot.

    Matrices.  [scipy.sparse.csr_matrix] is modelled by its shape and the
    list of its stored (row, column, value) triplets; the entry [A[i, j]] is
    the sum of the stored values at that coordinate, which is how scipy
    treats duplicate coordinates, and a product only multiplies stored
    elements.  The constructor raises [ValueError] for an index outside the
    shape it is given and, when it is given no shape, for empty index arrays;
    products and sums raise [ValueError] for shapes that do not match.

    Effects.  [makeYbus] writes to [sys.stderr]; a computation yields the
    lines it wrote together with its value or the exception that ended it.
    The warnings that NumPy itself may print for a division by zero are not
    among these lines. *)

From Stdlib Require Import String Reals Lra Lia ZArith Bool FinFun List Permutation.
Import ListNotations.

Set Implicit Arguments.

(** ** Exact complex numbers *)

Module Cplx.

Local Open Scope R_scope.

Definition C : Type := (R * R)%type.

Definition Cre (z : C) : R := fst z.
Definition Cim (z : C) : R := snd z.

Definition RtoC (x : R) : C := (x, 0).
Definition C0 : C := RtoC 0.
Definition C1 : C := RtoC 1.
Definition Ci : C := (0, 1).

Definition Cadd (a b : C) : C := (Cre a + Cre b, Cim a + Cim b).
Definition Cneg (a : C) : C := (- Cre a, - Cim a).
Definition Csub (a b : C) : C := Cadd a (Cneg b).
Definition Cmul (a b : C) : C :=
  (Cre a * Cre b - Cim a * Cim b, Cre a * Cim b + Cim a * Cre b).
Definition Cconj (a : C) : C := (Cre a, - Cim a).
Definition Cnorm2 (a : C) : R := Cre a * Cre a + Cim a * Cim a.
Definition Cinv (a : C) : C := (Cre a / Cnorm2 a, - Cim a / Cnorm2 a).
Definition Cdiv (a b : C) : C := Cmul a (Cinv b).
Definition Cmod (a : C) : R := sqrt (Cnorm2 a).
Definition Cexp (a : C) : C := (exp (Cre a) * cos (Cim a), exp (Cre a) * sin (Cim a)).

Definition Ceq_dec (a b : C) : {a = b} + {a <> b}.
Proof.
  destruct a as [ar ai], b as [br bi].
  destruct (Req_dec_T ar br) as [Hr | Hr].
  - destruct (Req_dec_T ai bi) as [Hi | Hi].
    + left. now subst.
    + right. intros H. apply Hi. now inversion H.
  - right. intros H. apply Hr. now inversion H.
Qed.

End Cplx.
Export Cplx.

(** ** NumPy's [complex128], with non-finite values collapsed *)

Inductive complex128 : Type :=
| Fin (z : C)
| NonFin.

Definition cadd (x y : complex128) : complex128 :=
  match x, y with
  | Fin a, Fin b => Fin (Cadd a b)
  | _, _ => NonFin
  end.

Definition cneg (x : complex128) : complex128 :=
  match x with
  | Fin a => Fin (Cneg a)
  | NonFin => NonFin
  end.

Definition csub (x y : complex128) : complex128 := cadd x (cneg y).

Definition cmul (x y : complex128) : complex128 :=
  match x, y with
  | Fin a, Fin b => Fin (Cmul a b)
  | _, _ => NonFin
  end.

Definition cconj (x : complex128) : complex128 :=
  match x with
  | Fin a => Fin (Cconj a)
  | NonFin => NonFin
  end.

(** Division.  A finite number divided by zero is [inf] or [nan] (zero by
    zero is [nan]): non-finite in every case.  A non-finite dividend gives a
    non-finite quotient.  For a non-finite divisor IEEE may give back a
    finite zero; the model answers [NonFin] there, and no divisor of the two
    programs is non-finite unless its dividend is too (the divisors are
    [R + jX], [tap], [baseMVA], all read from the finite inputs, and [|V|],
    which is non-finite only when [V] is). *)
Definition cdiv (x y : complex128) : complex128 :=
  match x, y with
  | Fin a, Fin b => if Ceq_dec b C0 then NonFin else Fin (Cdiv a b)
  | _, _ => NonFin
  end.

Definition cexp (x : complex128) : complex128 :=
  match x with
  | Fin a => Fin (Cexp a)
  | NonFin => NonFin
  end.

(** [abs] of a complex number, promoted back to [complex128] where it is
    used as a divisor. *)
Definition cabs (x : complex128) : complex128 :=
  match x with
  | Fin a => Fin (RtoC (Cmod a))
  | NonFin => NonFin
  end.

Definition is_fin (x : complex128) : Prop :=
  match x with
  | Fin _ => True
  | NonFin => False
  end.

Definition of_float (x : R) : complex128 := Fin (RtoC x).

Definition czero : complex128 := Fin C0.
Definition cone : complex128 := Fin C1.
Definition imag_j : complex128 := Fin Ci.
Definition pi : complex128 := of_float PI.

Declare Scope c128_scope.
Delimit Scope c128_scope with c128.
Bind Scope c128_scope with complex128.
Infix "+" := cadd : c128_scope.
Infix "-" := csub : c128_scope.
Infix "*" := cmul : c128_scope.
Infix "/" := cdiv : c128_scope.
Notation "- x" := (cneg x) : c128_scope.

(** ** NumPy arrays as lists *)

Module Np.

(** [range(n)], as the index arrays that scipy receives. *)
Definition range (n : nat) : list Z := map Z.of_nat (seq 0 n).

(** [ones(n)]: a [float64] array. *)
Definition ones (n : nat) : list R := repeat 1%R n.

(** Element-wise binary operation on two arrays of one length. *)
Definition map2 {A B D : Type} (f : A -> B -> D) (a : list A) (b : list B) : list D :=
  map (fun p => f (fst p) (snd p)) (combine a b).

(** [nonzero(a)]: the positions of the entries that are not zero. *)
Fixpoint nonzero_from (k : nat) (a : list R) : list nat :=
  match a with
  | [] => []
  | x :: a' =>
      if Req_dec_T x 0 then nonzero_from (S k) a' else k :: nonzero_from (S k) a'
  end.

Definition nonzero (a : list R) : list nat := nonzero_from 0 a.

(** [a[i]] for an index array [i]. *)
Definition take (a : list R) (i : list nat) : list R :=
  map (fun k => nth k a 0%R) i.

(** [a[k] = v].  The positions written by [makeYbus] come from [nonzero] on
    an array of the same length, so they are always inside the array. *)
Fixpoint setitem (a : list R) (k : nat) (v : R) : list R :=
  match a, k with
  | [], _ => []
  | _ :: a', O => v :: a'
  | x :: a', S k' => x :: setitem a' k' v
  end.

(** [a[i] = vals] for an index array [i]. *)
Definition put (a : list R) (i : list nat) (vals : list R) : list R :=
  fold_left (fun acc kv => setitem acc (fst kv) (snd kv)) (combine i vals) a.

(** [r_[a, b]]. *)
Definition r_ {A : Type} (a b : list A) : list A := a ++ b.

(** Promotion of a [float64] array to [complex128]. *)
Definition astype_complex (a : list R) : list complex128 := map of_float a.

Definition vadd : list complex128 -> list complex128 -> list complex128 := map2 cadd.
Definition vmul : list complex128 -> list complex128 -> list complex128 := map2 cmul.
Definition vdiv : list complex128 -> list complex128 -> list complex128 := map2 cdiv.
Definition vneg : list complex128 -> list complex128 := map cneg.
Definition vconj : list complex128 -> list complex128 := map cconj.
Definition vexp : list complex128 -> list complex128 := map cexp.
Definition vabs : list complex128 -> list complex128 := map cabs.

(** Scalar on the left of [*], scalar on the right of [/]. *)
Definition smul (s : complex128) (a : list complex128) : list complex128 := map (cmul s) a.
Definition sdiv (a : list complex128) (s : complex128) : list complex128 :=
  map (fun x => cdiv x s) a.

(** [any(a != b)] on two integer arrays of one length. *)
Definition any_ne (a b : list Z) : bool :=
  existsb (fun p => negb (Z.eqb (fst p) (snd p))) (combine a b).

(** Sum of the elements, from zero. *)
Definition csum (l : list complex128) : complex128 := fold_right cadd czero l.

(** [v if c else 0] *)
Definition ind (c : bool) (v : complex128) : complex128 := if c then v else czero.

(** [enumerate(l)]: every element with its position. *)
Definition enum {A : Type} (l : list A) : list (Z * A) := combine (range (length l)) l.

End Np.
Export Np.

(** ** Exceptions and the standard error stream *)

Inductive exn : Type :=
| ValueError.

Inductive result (A : Type) : Type :=
| Return (a : A)
| Raise (e : exn).

Arguments Return {A} a.
Arguments Raise {A} e.

(** A computation yields what it wrote to [stderr] and either a value or the
    exception that ended it. *)
Definition M (A : Type) : Type := (list string * result A)%type.

Definition ret {A : Type} (a : A) : M A := ([], Return a).

Definition raise {A : Type} (e : exn) : M A := ([], Raise e).

Definition bind {A B : Type} (m : M A) (k : A -> M B) : M B :=
  match snd m with
  | Return a => (fst m ++ fst (k a), snd (k a))
  | Raise e => (fst m, Raise e)
  end.

Definition stderr_write (s : string) : M unit := ([s], Return tt).

Definition when (c : bool) (m : M unit) : M unit := if c then m else ret tt.

Notation "x <- m ;; k" := (bind m (fun x => k))
  (at level 61, m at next level, right associativity).
Notation "m ;;; k" := (bind m (fun _ => k))
  (at level 61, right associativity).

(** ** [scipy.sparse.csr_matrix] *)

Module Sparse.

(** A stored element: row, column, value. *)
Definition entry : Type := (Z * Z * complex128)%type.

Definition erow (e : entry) : Z := fst (fst e).
Definition ecol (e : entry) : Z := snd (fst e).
Definition evalue (e : entry) : complex128 := snd e.

Record csr_matrix : Type := mk_csr {
  shape : nat * nat;
  data : list entry
}.

Definition nrows (A : csr_matrix) : nat := fst (shape A).
Definition ncols (A : csr_matrix) : nat := snd (shape A).

Definition in_range (n : nat) (k : Z) : bool :=
  ((0 <=? k) && (k <? Z.of_nat n))%Z.

Definition at_ij (i j : Z) (e : entry) : bool :=
  ((erow e =? i) && (ecol e =? j))%Z.

(** [A[i, j]]: stored values at one coordinate add up. *)
Definition entry_sum (i j : Z) (es : list entry) : complex128 :=
  csum (map evalue (filter (at_ij i j) es)).

Definition getitem (A : csr_matrix) (i j : Z) : complex128 :=
  entry_sum i j (data A).

Definition triplets (vals : list complex128) (i j : list Z) : list entry :=
  combine (combine i j) vals.

(** [csr_matrix((vals, (i, j)), (m, n))]: the three arrays must have one
    length and every index must lie inside the shape. *)
Definition csr_matrix_of (vals : list complex128) (ij : list Z * list Z)
    (shp : nat * nat) : M csr_matrix :=
  let i := fst ij in
  let j := snd ij in
  if negb ((length i =? length vals)%nat && (length j =? length vals)%nat)
  then raise ValueError
  else if negb (forallb (in_range (fst shp)) i && forallb (in_range (snd shp)) j)
  then raise ValueError
  else ret (mk_csr shp (triplets vals i j)).

Definition zmax (l : list Z) : Z := fold_right Z.max 0%Z l.

(** [csr_matrix((vals, (i, j)))]: the shape is inferred as the largest index
    plus one in each direction; scipy cannot infer dimensions from
    zero-sized index arrays and raises [ValueError] for them. *)
Definition csr_matrix_infer (vals : list complex128) (ij : list Z * list Z)
    : M csr_matrix :=
  let i := fst ij in
  let j := snd ij in
  if negb ((length i =? length vals)%nat && (length j =? length vals)%nat)
  then raise ValueError
  else if ((length i =? 0)%nat || (length j =? 0)%nat)
  then raise ValueError
  else if negb (forallb (Z.leb 0) i && forallb (Z.leb 0) j)
  then raise ValueError
  else ret (mk_csr (Z.to_nat (zmax i + 1), Z.to_nat (zmax j + 1)) (triplets vals i j)).

(** [A.T] *)
Definition transpose (A : csr_matrix) : csr_matrix :=
  mk_csr (ncols A, nrows A) (map (fun e => (ecol e, erow e, evalue e)) (data A)).

(** [A * B] for two sparse matrices: every stored element of [A] meets the
    stored elements of [B] in the row named by its column. *)
Definition mul_data (da db : list entry) : list entry :=
  flat_map (fun a =>
     map (fun b => (erow a, ecol b, (evalue a * evalue b)%c128))
         (filter (fun b => (erow b =? ecol a)%Z) db))
   da.

Definition matmul (A B : csr_matrix) : M csr_matrix :=
  if negb (ncols A =? nrows B)%nat then raise ValueError
  else ret (mk_csr (nrows A, ncols B) (mul_data (data A) (data B))).

(** [A + B] and [A - B]. *)
Definition neg_data (d : list entry) : list entry :=
  map (fun e => (erow e, ecol e, (- evalue e)%c128)) d.

Definition madd (A B : csr_matrix) : M csr_matrix :=
  if negb ((nrows A =? nrows B)%nat && (ncols A =? ncols B)%nat) then raise ValueError
  else ret (mk_csr (shape A) (data A ++ data B)).

Definition msub (A B : csr_matrix) : M csr_matrix :=
  if negb ((nrows A =? nrows B)%nat && (ncols A =? ncols B)%nat) then raise ValueError
  else ret (mk_csr (shape A) (data A ++ neg_data (data B))).

(** [conj(A)] and [s * A] for a scalar [s]. *)
Definition conj_data (d : list entry) : list entry :=
  map (fun e => (erow e, ecol e, cconj (evalue e))) d.

Definition scale_data (s : complex128) (d : list entry) : list entry :=
  map (fun e => (erow e, ecol e, (s * evalue e)%c128)) d.

Definition mconj (A : csr_matrix) : csr_matrix := mk_csr (shape A) (conj_data (data A)).

Definition mscale (s : complex128) (A : csr_matrix) : csr_matrix :=
  mk_csr (shape A) (scale_data s (data A)).

(** The stored elements of [A] in row [i], each times the element of [x]
    in its column, summed: element [i] of [A * x]. *)
Definition row_dot (d : list entry) (x : list complex128) (i : Z) : complex128 :=
  csum (map (fun e => (evalue e * nth (Z.to_nat (ecol e)) x czero)%c128)
            (filter (fun e => (erow e =? i)%Z) d)).

(** [A * x] for a one-dimensional array [x]. *)
Definition matvec (A : csr_matrix) (x : list complex128) : M (list complex128) :=
  if negb (ncols A =? length x)%nat then raise ValueError
  else ret (map (row_dot (data A) x) (range (nrows A))).

(** Every stored element lies inside the shape. *)
Definition wf_csr (A : csr_matrix) : Prop :=
  Forall (fun e => in_range (nrows A) (erow e) = true /\ in_range (ncols A) (ecol e) = true)
         (data A).

(** Every stored value is finite; every stored column lies below [m]. *)
Definition fin_data (d : list entry) : Prop := Forall (fun e => is_fin (evalue e)) d.

Definition cols_within (m : nat) (d : list entry) : Prop :=
  Forall (fun e => in_range m (ecol e) = true) d.

Definition all_fin (A : csr_matrix) : Prop := fin_data (data A).

End Sparse.
Export Sparse.

(** ** The case tables *)

(** Modelled from the spec: the column-index constants of [idx_bus] and
    [idx_brch] ([BUS_I], [GS], [BS], [F_BUS], [T_BUS], [BR_R], [BR_X], [BR_B],
    [BR_STATUS], [TAP], [SHIFT]) are imported by [makeYbus.py] but are not
    among the sources.  A table row is a record whose fields carry the column
    names, so that [bus[:, GS]] is [col GS bus].  Bus numbers are integers;
    the electrical columns are finite floats. *)
Record bus_row : Type := mk_bus {
  BUS_I : Z;
  GS : R;
  BS : R
}.

Record branch_row : Type := mk_branch {
  F_BUS : Z;
  T_BUS : Z;
  BR_R : R;
  BR_X : R;
  BR_B : R;
  BR_STATUS : R;
  TAP : R;
  SHIFT : R
}.

(** [table[:, c]] *)
Definition col {Row A : Type} (c : Row -> A) (table : list Row) : list A := map c table.

Definition newline : string := String (Ascii.ascii_of_nat 10) EmptyString.

Definition bus_order_message : string :=
  ("buses must appear in order by bus number" ++ newline)%string.

(** ** [makeYbus.py] *)

Section MakeYbus.

Variable baseMVA : R.
Variable bus : list bus_row.
Variable branch : list branch_row.

(** Lines 54-60: status, series admittance, line charging, tap ratios. *)
Definition stat : list R := col BR_STATUS branch.

Definition Ys : list complex128 :=
  vdiv (astype_complex stat)
       (vadd (astype_complex (col BR_R branch))
             (smul imag_j (astype_complex (col BR_X branch)))).

Definition Bc : list R := map2 Rmult stat (col BR_B branch).

Definition tap : list complex128 :=
  let nl := length branch in
  let tap := ones nl in
  let i := nonzero (col TAP branch) in
  let tap := put tap i (take (col TAP branch) i) in
  vmul (astype_complex tap)
       (vexp (smul (imag_j * pi / of_float 180)%c128 (astype_complex (col SHIFT branch)))).

(** Lines 62-65: the four terms of every branch. *)
Definition Ytt : list complex128 :=
  vadd Ys (sdiv (smul imag_j (astype_complex Bc)) (of_float 2)).

Definition Yff : list complex128 := vdiv Ytt (vmul tap (vconj tap)).

Definition Yft : list complex128 := vdiv (vneg Ys) (vconj tap).

Definition Ytf : list complex128 := vdiv (vneg Ys) tap.

(** Line 73: shunt admittances. *)
Definition Ysh : list complex128 :=
  sdiv (vadd (astype_complex (col GS bus)) (smul imag_j (astype_complex (col BS bus))))
       (of_float baseMVA).

Definition makeYbus : M (csr_matrix * csr_matrix * csr_matrix) :=
  let nb := length bus in
  let nl := length branch in
  when (any_ne (col BUS_I bus) (range nb)) (stderr_write bus_order_message) ;;;
  let f := col F_BUS branch in
  let t := col T_BUS branch in
  Cf <- csr_matrix_of (astype_complex (ones nl)) (range nl, f) (nl, nb) ;;
  Ct <- csr_matrix_of (astype_complex (ones nl)) (range nl, t) (nl, nb) ;;
  let i := r_ (range nl) (range nl) in
  Yf <- csr_matrix_of (r_ Yff Yft) (i, r_ f t) (nl, nb) ;;
  Yt <- csr_matrix_of (r_ Ytf Ytt) (i, r_ f t) (nl, nb) ;;
  CfYf <- matmul (transpose Cf) Yf ;;
  CtYt <- matmul (transpose Ct) Yt ;;
  S1 <- madd CfYf CtYt ;;
  D <- csr_matrix_of Ysh (range nb, range nb) (nb, nb) ;;
  Ybus <- madd S1 D ;;
  ret (Ybus, Yf, Yt).

End MakeYbus.

(** ** [dSbus_dV.py] *)

Definition dSbus_dV (Ybus : csr_matrix) (V : list complex128)
    : M (csr_matrix * csr_matrix) :=
  let ib := range (length V) in
  I <- matvec Ybus V ;;
  diagV <- csr_matrix_infer V (ib, ib) ;;
  diagIbus <- csr_matrix_infer I (ib, ib) ;;
  diagVnorm <- csr_matrix_infer (vdiv V (vabs V)) (ib, ib) ;;
  YVn <- matmul Ybus diagVnorm ;;
  M1 <- matmul diagV (mconj YVn) ;;
  M2 <- matmul (mconj diagIbus) diagVnorm ;;
  dS_dVm <- madd M1 M2 ;;
  YV <- matmul Ybus diagV ;;
  Df <- msub diagIbus YV ;;
  dS_dVa <- matmul (mscale imag_j diagV) (mconj Df) ;;
  ret (dS_dVm, dS_dVa).

(** ** The branch model, one branch at a time

    These definitions follow the wording of the specification (section 4.1,
    steps 1-5); they are compared below with the arrays that
    [makeYbus] computes. *)

Module PiModel.

Local Open Scope c128_scope.

(** Step 1: [Ys = status / (R + jX)]. *)
Definition series_admittance (b : branch_row) : complex128 :=
  of_float (BR_STATUS b) / Fin (BR_R b, BR_X b).

(** Step 2: [Bc = status * B]. *)
Definition line_charging (b : branch_row) : R := (BR_STATUS b * BR_B b)%R.

(** Step 3: the tap field, or 1.0 when the stored value is zero, times the
    unit phasor [exp(j * shift_degrees * pi / 180)]. *)
Definition tap_magnitude (b : branch_row) : R :=
  if Req_dec_T (TAP b) 0 then 1%R else TAP b.

Definition unit_phasor (b : branch_row) : complex128 :=
  cexp (imag_j * of_float (SHIFT b) * pi / of_float 180).

Definition effective_tap (b : branch_row) : complex128 :=
  of_float (tap_magnitude b) * unit_phasor b.

(** Step 4: the four terms. *)
Definition ytt (b : branch_row) : complex128 :=
  series_admittance b + imag_j * of_float (line_charging b) / of_float 2.

Definition yff (b : branch_row) : complex128 :=
  ytt b / (effective_tap b * cconj (effective_tap b)).

Definition yft (b : branch_row) : complex128 :=
  - series_admittance b / cconj (effective_tap b).

Definition ytf (b : branch_row) : complex128 :=
  - series_admittance b / effective_tap b.

(** Step 5: [Ysh = (Gs + jBs) / base_power]. *)
Definition shunt (baseMVA : R) (r : bus_row) : complex128 :=
  Fin (GS r, BS r) / of_float baseMVA.

End PiModel.
Export PiModel.

(** ** Entries of the three matrices in closed form *)

Module Entries.

Local Open Scope c128_scope.

(** The precondition of section 4.1: from- and to-bus numbers are indices
    into the bus table. *)
Definition branch_ok (nb : nat) (b : branch_row) : bool :=
  in_range nb (F_BUS b) && in_range nb (T_BUS b).

(** Row [k] of [Yf] holds [Yff] in the from-column and [Yft] in the
    to-column of branch [k]; row [k] of [Yt] holds [Ytf] and [Ytt]. *)
Definition row_terms (yf yt : branch_row -> complex128) (j : Z) (b : branch_row)
    : complex128 :=
  ind (F_BUS b =? j)%Z (yf b) + ind (T_BUS b =? j)%Z (yt b).

Definition rows_entry (yf yt : branch_row -> complex128) (branch : list branch_row)
    (i j : Z) : complex128 :=
  csum (map (fun kb => ind (fst kb =? i)%Z (row_terms yf yt j (snd kb))) (enum branch)).

Definition Yf_entry : list branch_row -> Z -> Z -> complex128 := rows_entry yff yft.
Definition Yt_entry : list branch_row -> Z -> Z -> complex128 := rows_entry ytf ytt.

(** What one branch adds to [Ybus[i, j]]. *)
Definition branch_terms (i j : Z) (b : branch_row) : complex128 :=
  ind (F_BUS b =? i)%Z (row_terms yff yft j b) + ind (T_BUS b =? i)%Z (row_terms ytf ytt j b).

Definition shunt_term (baseMVA : R) (i j : Z) (kr : Z * bus_row) : complex128 :=
  ind ((fst kr =? i) && (fst kr =? j))%Z (shunt baseMVA (snd kr)).

Definition Ybus_entry (baseMVA : R) (bus : list bus_row) (branch : list branch_row)
    (i j : Z) : complex128 :=
  csum (map (branch_terms i j) branch) + csum (map (shunt_term baseMVA i j) (enum bus)).

(** The three results of [makeYbus] written out: their shapes and stored
    elements, for tables that satisfy [branch_ok]. *)
Definition bus_order_warning (bus : list bus_row) : list string :=
  if any_ne (col BUS_I bus) (range (length bus)) then [bus_order_message] else [].

Definition connection (c : branch_row -> Z) (branch : list branch_row) : list entry :=
  map (fun kb => (fst kb, c (snd kb), cone)) (enum branch).

Definition branch_rows (yf yt : branch_row -> complex128) (branch : list branch_row)
    : list entry :=
  map (fun kb => (fst kb, F_BUS (snd kb), yf (snd kb))) (enum branch)
  ++ map (fun kb => (fst kb, T_BUS (snd kb), yt (snd kb))) (enum branch).

Definition incidence_product (c : branch_row -> Z) (yf yt : branch_row -> complex128)
    (branch : list branch_row) : list entry :=
  flat_map (fun kb => [ (c (snd kb), F_BUS (snd kb), cone * yf (snd kb));
                        (c (snd kb), T_BUS (snd kb), cone * yt (snd kb)) ])
           (enum branch).

Definition shunt_diagonal (baseMVA : R) (bus : list bus_row) : list entry :=
  map (fun kr => (fst kr, fst kr, shunt baseMVA (snd kr))) (enum bus).

Definition Yf_matrix (nb : nat) (branch : list branch_row) : csr_matrix :=
  mk_csr (length branch, nb) (branch_rows yff yft branch).

Definition Yt_matrix (nb : nat) (branch : list branch_row) : csr_matrix :=
  mk_csr (length branch, nb) (branch_rows ytf ytt branch).

Definition Ybus_matrix (baseMVA : R) (bus : list bus_row) (branch : list branch_row)
    : csr_matrix :=
  mk_csr (length bus, length bus)
    ((incidence_product F_BUS yff yft branch ++ incidence_product T_BUS ytf ytt branch)
     ++ shunt_diagonal baseMVA bus).

(** The two results of [dSbus_dV] written out, for a square [Ybus] and a
    non-empty [V] of matching length. *)
Definition diag_data (x : list complex128) : list entry :=
  map (fun kv => (fst kv, fst kv, snd kv)) (enum x).

Definition injected_current (Ybus : csr_matrix) (V : list complex128)
    : list complex128 :=
  map (row_dot (data Ybus) V) (range (nrows Ybus)).

Definition dS_dVm_matrix (Ybus : csr_matrix) (V : list complex128) : csr_matrix :=
  let I := injected_current Ybus V in
  let Vnorm := vdiv V (vabs V) in
  mk_csr (length V, length V)
    (mul_data (diag_data V) (conj_data (mul_data (data Ybus) (diag_data Vnorm)))
     ++ mul_data (conj_data (diag_data I)) (diag_data Vnorm)).

Definition dS_dVa_matrix (Ybus : csr_matrix) (V : list complex128) : csr_matrix :=
  let I := injected_current Ybus V in
  mk_csr (length V, length V)
    (mul_data (scale_data imag_j (diag_data V))
       (conj_data (diag_data I ++ neg_data (mul_data (data Ybus) (diag_data V))))).

End Entries.
Export Entries.

(** ** Dense matrices, for the statements of the specification *)

Module Dense.

Local Open Scope c128_scope.

Definition matrix : Type := Z -> Z -> complex128.

Definition zeros : matrix := fun _ _ => czero.

(** [Y[i, j] += v] *)
Definition add_at (Y : matrix) (i j : Z) (v : complex128) : matrix :=
  fun r c => if ((r =? i) && (c =? j))%Z then Y r c + v else Y r c.

(** Step 7, second form: the four terms of a branch are added at
    (from, from), (from, to), (to, from), (to, to). *)
Definition stamp_branch (Y : matrix) (b : branch_row) : matrix :=
  let f := F_BUS b in
  let t := T_BUS b in
  add_at (add_at (add_at (add_at Y f f (yff b)) f t (yft b)) t f (ytf b)) t t (ytt b).

Definition stamp_shunt (baseMVA : R) (Y : matrix) (ir : Z * bus_row) : matrix :=
  add_at Y (fst ir) (fst ir) (shunt baseMVA (snd ir)).

Definition scatter_add (baseMVA : R) (bus : list bus_row) (branch : list branch_row)
    : matrix :=
  fold_left (stamp_shunt baseMVA) (combine (range (length bus)) bus)
            (fold_left stamp_branch branch zeros).

(** [diag(x)] *)
Definition diag (x : list complex128) : matrix :=
  fun i j =>
    if ((i =? j)%Z && in_range (length x) i)%bool
    then nth (Z.to_nat i) x czero else czero.

(** Products, sums and conjugates of [n] by [n] matrices. *)
Definition mul (n : nat) (A B : matrix) : matrix :=
  fun i j => csum (map (fun k => A i k * B k j) (range n)).

Definition add (A B : matrix) : matrix := fun i j => A i j + B i j.
Definition sub (A B : matrix) : matrix := fun i j => A i j - B i j.
Definition conj (A : matrix) : matrix := fun i j => cconj (A i j).
Definition scale (s : complex128) (A : matrix) : matrix := fun i j => s * A i j.

Definition mulvec (n : nat) (A : matrix) (x : list complex128) : list complex128 :=
  map (fun i => csum (map (fun k => A i k * nth (Z.to_nat k) x czero) (range n)))
      (range n).

(** Section 4.2 of the specification. *)
Definition normalize (V : list complex128) : list complex128 :=
  map (fun v => v / cabs v) V.

Definition dS_dVm (n : nat) (Y : matrix) (V : list complex128) : matrix :=
  let I := mulvec n Y V in
  add (mul n (diag V) (conj (mul n Y (diag (normalize V)))))
      (mul n (conj (diag I)) (diag (normalize V))).

Definition dS_dVa (n : nat) (Y : matrix) (V : list complex128) : matrix :=
  let I := mulvec n Y V in
  scale imag_j (mul n (diag V) (conj (sub (diag I) (mul n Y (diag V))))).

End Dense.

(** ** The range of double precision

    The numbers above are exact: a quotient is non-finite only when its
    divisor is exactly zero, and a product is zero only when a factor is.
    IEEE doubles also overflow and underflow: [1 / 1e-310] is [inf] and
    [1e-200 * 1e-200] is [0]; NumPy's complex division multiplies by the
    reciprocal of its divisor, so that [0 / (1e-310 + 0j)] is [nan].  A
    statement that concludes that a result of [makeYbus] is finite, or
    exactly zero, is therefore made for inputs of moderate size.  With
    magnitudes between [10^-30] and [10^30] no divisor of lines 54-73 falls
    below [10^-61] and no quotient or product exceeds [10^121]: the doubles
    neither overflow nor underflow there, and the exact value differs from
    the computed one by rounding only. *)
Module Float64.

Definition range_bound : R := 10 ^ 30.

Definition bounded (x : R) : Prop := (Rabs x <= range_bound)%R.

Definition moderate (x : R) : Prop :=
  (/ range_bound <= Rabs x <= range_bound)%R.

(** [R + jX]: its larger component is the one that NumPy divides by first. *)
Definition impedance_moderate (b : branch_row) : Prop :=
  (/ range_bound <= Rmax (Rabs (BR_R b)) (Rabs (BR_X b)) <= range_bound)%R.

(** The tap array of lines 57-59, whose square divides [Ytt]. *)
Definition tap_moderate (b : branch_row) : Prop := moderate (tap_magnitude b).

Definition branch_moderate (b : branch_row) : Prop :=
  impedance_moderate b /\ tap_moderate b
  /\ bounded (BR_STATUS b) /\ bounded (BR_B b) /\ bounded (SHIFT b).

Definition bus_moderate (r : bus_row) : Prop := bounded (GS r) /\ bounded (BS r).

Definition voltage_moderate (v : complex128) : Prop :=
  match v with
  | Fin z => (/ range_bound <= Cmod z <= range_bound)%R
  | NonFin => False
  end.

End Float64.
Export Float64.

(** ** Further code of the two files *)

Module Further.

Local Open Scope c128_scope.

(** [spdiags(v, 0, n, n)]: the array [v] on the main diagonal of an [n] by
    [n] matrix. *)
Definition spdiags (v : list complex128) (n : nat) : csr_matrix :=
  mk_csr (n, n) (diag_data (firstn n v)).

(** Lines 89-90 of [makeYbus.py] keep a second construction of [Yf] and
    [Yt] as a comment:
    [Yf = spdiags(Yff, 0, nl, nl) * Cf + spdiags(Yft, 0, nl, nl) * Ct] and
    [Yt = spdiags(Ytf, 0, nl, nl) * Cf + spdiags(Ytt, 0, nl, nl) * Ct]. *)
Definition Yf_Yt_by_spdiags (bus : list bus_row) (branch : list branch_row)
    : M (csr_matrix * csr_matrix) :=
  let nb := length bus in
  let nl := length branch in
  let f := col F_BUS branch in
  let t := col T_BUS branch in
  Cf <- csr_matrix_of (astype_complex (ones nl)) (range nl, f) (nl, nb) ;;
  Ct <- csr_matrix_of (astype_complex (ones nl)) (range nl, t) (nl, nb) ;;
  YffCf <- matmul (spdiags (Yff branch) nl) Cf ;;
  YftCt <- matmul (spdiags (Yft branch) nl) Ct ;;
  Yf <- madd YffCf YftCt ;;
  YtfCf <- matmul (spdiags (Ytf branch) nl) Cf ;;
  YttCt <- matmul (spdiags (Ytt branch) nl) Ct ;;
  Yt <- madd YtfCf YttCt ;;
  ret (Yf, Yt).

(** A branch is in service when its status is not zero. *)
Definition in_service (b : branch_row) : bool :=
  if Req_dec_T (BR_STATUS b) 0 then false else true.

(** The branch with the default written into a zero tap field. *)
Definition with_default_tap (b : branch_row) : branch_row :=
  mk_branch (F_BUS b) (T_BUS b) (BR_R b) (BR_X b) (BR_B b) (BR_STATUS b)
            (if Req_dec_T (TAP b) 0 then 1%R else TAP b) (SHIFT b).





End Further.
Export Further.

(** * Properties *)

(** ** Arithmetic of [C] and [complex128] *)

Section Arithmetic.

Local Open Scope R_scope.

Lemma C_eq (a b : C) : Cre a = Cre b -> Cim a = Cim b -> a = b.
Proof. destruct a, b; simpl; intros; subst; reflexivity. Qed.

Lemma RtoC_neq0 (x : R) : x <> 0 -> RtoC x <> C0.
Proof. intros Hx H. apply Hx. now inversion H. Qed.

Lemma Cnorm2_pos (a : C) : a <> C0 -> 0 < Cnorm2 a.
Proof.
  destruct a as [x y]. unfold Cnorm2, C0, RtoC. simpl. intros H.
  destruct (Req_dec_T x 0) as [Hx | Hx].
  - destruct (Req_dec_T y 0) as [Hy | Hy].
    + subst. now elim H.
    + subst. nra.
  - nra.
Qed.

Lemma Cmul_comm (a b : C) : Cmul a b = Cmul b a.
Proof. apply C_eq; simpl; ring. Qed.

Lemma Cmul_assoc (a b c : C) : Cmul a (Cmul b c) = Cmul (Cmul a b) c.
Proof. apply C_eq; simpl; ring. Qed.

Lemma Cadd_comm (a b : C) : Cadd a b = Cadd b a.
Proof. apply C_eq; simpl; ring. Qed.

Lemma Cadd_assoc (a b c : C) : Cadd a (Cadd b c) = Cadd (Cadd a b) c.
Proof. apply C_eq; simpl; ring. Qed.

Lemma Cadd_0_l (a : C) : Cadd C0 a = a.
Proof. apply C_eq; simpl; ring. Qed.

Lemma Cmul_1_l (a : C) : Cmul C1 a = a.
Proof. apply C_eq; simpl; ring. Qed.

Lemma Cmul_0_l (a : C) : Cmul C0 a = C0.
Proof. apply C_eq; simpl; ring. Qed.

Lemma Cmul_add_distr_l (a b c : C) : Cmul a (Cadd b c) = Cadd (Cmul a b) (Cmul a c).
Proof. apply C_eq; simpl; ring. Qed.

Lemma Cadd_neg_r (a : C) : Cadd a (Cneg a) = C0.
Proof. apply C_eq; simpl; ring. Qed.

Lemma Cconj_add (a b : C) : Cconj (Cadd a b) = Cadd (Cconj a) (Cconj b).
Proof. apply C_eq; simpl; ring. Qed.

Lemma Cconj_mul (a b : C) : Cconj (Cmul a b) = Cmul (Cconj a) (Cconj b).
Proof. apply C_eq; simpl; ring. Qed.

Lemma Cconj_neg (a : C) : Cconj (Cneg a) = Cneg (Cconj a).
Proof. apply C_eq; simpl; ring. Qed.

Lemma Cconj_0 : Cconj C0 = C0.
Proof. apply C_eq; simpl; ring. Qed.

Lemma Cdiv_1_r (a : C) : Cdiv a C1 = a.
Proof. apply C_eq; simpl; unfold Cnorm2; simpl; field. Qed.

Lemma Cdiv_0_l (b : C) : b <> C0 -> Cdiv C0 b = C0.
Proof.
  intros Hb. pose proof (Cnorm2_pos Hb) as Hn.
  apply C_eq; simpl; field; lra.
Qed.

End Arithmetic.

Section Complex128.

Local Open Scope c128_scope.

Lemma cadd_comm (x y : complex128) : x + y = y + x.
Proof. destruct x, y; simpl; try reflexivity. now rewrite Cadd_comm. Qed.

Lemma cadd_assoc (x y z : complex128) : x + (y + z) = (x + y) + z.
Proof. destruct x, y, z; simpl; try reflexivity. now rewrite Cadd_assoc. Qed.

Lemma cadd_0_l (x : complex128) : czero + x = x.
Proof. destruct x; simpl; try reflexivity. now rewrite Cadd_0_l. Qed.

Lemma cadd_0_r (x : complex128) : x + czero = x.
Proof. rewrite cadd_comm. apply cadd_0_l. Qed.

Lemma cmul_comm (x y : complex128) : x * y = y * x.
Proof. destruct x, y; simpl; try reflexivity. now rewrite Cmul_comm. Qed.

Lemma cmul_assoc (x y z : complex128) : x * (y * z) = (x * y) * z.
Proof. destruct x, y, z; simpl; try reflexivity. now rewrite Cmul_assoc. Qed.

Lemma cmul_1_l (x : complex128) : cone * x = x.
Proof. destruct x; simpl; try reflexivity. now rewrite Cmul_1_l. Qed.

Lemma cmul_add_distr_l (x y z : complex128) : x * (y + z) = x * y + x * z.
Proof. destruct x, y, z; simpl; try reflexivity. now rewrite Cmul_add_distr_l. Qed.

Lemma cmul_0_l_fin (x : complex128) : is_fin x -> czero * x = czero.
Proof. destruct x; simpl; [intros _ | tauto]. unfold czero. now rewrite Cmul_0_l. Qed.

Lemma cmul_0_r_fin (x : complex128) : is_fin x -> x * czero = czero.
Proof. intros H. rewrite cmul_comm. now apply cmul_0_l_fin. Qed.

Lemma cconj_add (x y : complex128) : cconj (x + y) = cconj x + cconj y.
Proof. destruct x, y; simpl; try reflexivity. now rewrite Cconj_add. Qed.

Lemma cconj_mul (x y : complex128) : cconj (x * y) = cconj x * cconj y.
Proof. destruct x, y; simpl; try reflexivity. now rewrite Cconj_mul. Qed.

Lemma cconj_neg (x : complex128) : cconj (- x) = - cconj x.
Proof. destruct x; simpl; [f_equal; apply C_eq; simpl; ring | reflexivity]. Qed.

Lemma cconj_0 : cconj czero = czero.
Proof. unfold czero. simpl. now rewrite Cconj_0. Qed.

Lemma cadd_neg_r_fin (x : complex128) : is_fin x -> x + - x = czero.
Proof. destruct x; simpl; [intros _ | tauto]. unfold czero. now rewrite Cadd_neg_r. Qed.

Lemma cdiv_fin (a b : C) : b <> C0 -> Fin a / Fin b = Fin (Cdiv a b).
Proof. intros Hb. unfold cdiv. destruct (Ceq_dec b C0); [contradiction | reflexivity]. Qed.

Lemma cdiv_0_r (x : complex128) : x / czero = NonFin.
Proof.
  destruct x; [| reflexivity]. unfold cdiv, czero.
  destruct (Ceq_dec C0 C0) as [_ | H]; [reflexivity | now elim H].
Qed.

Lemma cdiv_NonFin_l (y : complex128) : NonFin / y = NonFin.
Proof. reflexivity. Qed.

Lemma cdiv_1_r (x : complex128) : x / cone = x.
Proof.
  destruct x; [| reflexivity]. unfold cone. rewrite cdiv_fin.
  - now rewrite Cdiv_1_r.
  - apply RtoC_neq0. lra.
Qed.

Lemma cadd_NonFin_r (x : complex128) : x + NonFin = NonFin.
Proof. now destruct x. Qed.

Lemma cmul_NonFin_r (x : complex128) : x * NonFin = NonFin.
Proof. now destruct x. Qed.

Lemma cartesian (r x : R) : of_float r + imag_j * of_float x = Fin (r, x).
Proof. unfold of_float, imag_j. simpl. f_equal. apply C_eq; simpl; ring. Qed.

Lemma is_fin_cadd (x y : complex128) : is_fin x -> is_fin y -> is_fin (x + y).
Proof. destruct x, y; simpl; tauto. Qed.

Lemma is_fin_cmul (x y : complex128) : is_fin x -> is_fin y -> is_fin (x * y).
Proof. destruct x, y; simpl; tauto. Qed.

Lemma is_fin_cconj (x : complex128) : is_fin x -> is_fin (cconj x).
Proof. destruct x; simpl; tauto. Qed.

Lemma is_fin_cneg (x : complex128) : is_fin x -> is_fin (- x).
Proof. destruct x; simpl; tauto. Qed.

End Complex128.

(** ** Arrays *)

Section Arrays.

Lemma map2_map {X A B D : Type} (f : A -> B -> D) (g : X -> A) (h : X -> B) (l : list X) :
  map2 f (map g l) (map h l) = map (fun x => f (g x) (h x)) l.
Proof.
  unfold map2. induction l as [| x l IH]; simpl; [reflexivity |].
  now rewrite IH.
Qed.

Lemma range_length (n : nat) : length (range n) = n.
Proof. unfold range. now rewrite length_map, length_seq. Qed.

Lemma ones_length (n : nat) : length (ones n) = n.
Proof. apply repeat_length. Qed.

Lemma ones_map {X : Type} (l : list X) : ones (length l) = map (fun _ => 1%R) l.
Proof. unfold ones. induction l; simpl; [reflexivity | now f_equal]. Qed.

Lemma setitem_app_here (p : list R) (x v : R) (a : list R) :
  setitem (p ++ x :: a) (length p) v = p ++ v :: a.
Proof. induction p as [| y p IH]; simpl; [reflexivity | now rewrite IH]. Qed.

(** Writing the non-zero entries of [a] over an array of ones leaves 1.0
    exactly where [a] is zero. *)
Lemma put_nonzero_from (a p q : list R) :
  length p = length q ->
  put (p ++ ones (length a)) (nonzero_from (length p) a)
      (take (q ++ a) (nonzero_from (length p) a))
  = p ++ map (fun x => if Req_dec_T x 0 then 1%R else x) a.
Proof.
  revert p q. induction a as [| x a IH]; intros p q Hpq.
  - reflexivity.
  - assert (Hp : S (length p) = length (p ++ [1%R])).
    { rewrite length_app. simpl. lia. }
    assert (Hx : S (length p) = length (p ++ [x])).
    { rewrite length_app. simpl. lia. }
    assert (Hq : forall y, length (p ++ [y]) = length (q ++ [x])).
    { intros y. rewrite !length_app. simpl. lia. }
    simpl. change (ones (S (length a))) with (1%R :: ones (length a)).
    destruct (Req_dec_T x 0) as [H0 | H0].
    + rewrite Hp.
      replace (p ++ 1%R :: ones (length a)) with ((p ++ [1%R]) ++ ones (length a))
        by now rewrite <- app_assoc.
      replace (q ++ x :: a) with ((q ++ [x]) ++ a) by now rewrite <- app_assoc.
      rewrite (IH _ _ (Hq 1%R)). now rewrite <- app_assoc.
    + unfold put, take. simpl.
      replace (nth (length p) (q ++ x :: a) 0%R) with x.
      2:{ rewrite Hpq. rewrite app_nth2 by lia. now rewrite Nat.sub_diag. }
      rewrite setitem_app_here.
      rewrite Hx.
      replace (p ++ x :: ones (length a)) with ((p ++ [x]) ++ ones (length a))
        by now rewrite <- app_assoc.
      replace (q ++ x :: a) with ((q ++ [x]) ++ a) by now rewrite <- app_assoc.
      pose proof (IH (p ++ [x]) (q ++ [x]) (Hq x)) as IHx.
      unfold put, take in IHx. rewrite IHx. now rewrite <- app_assoc.
Qed.

Lemma put_nonzero (a : list R) :
  put (ones (length a)) (nonzero a) (take a (nonzero a))
  = map (fun x => if Req_dec_T x 0 then 1%R else x) a.
Proof. exact (put_nonzero_from a [] [] eq_refl). Qed.

End Arrays.

(** ** The branch terms computed by [makeYbus] *)

Section BranchTerms.

Local Open Scope c128_scope.

Variable branch : list branch_row.

Lemma Ys_map : Ys branch = map series_admittance branch.
Proof.
  unfold Ys, stat, vdiv, vadd, smul, astype_complex, col.
  rewrite !map_map. rewrite map2_map. rewrite map2_map.
  apply map_ext. intros b. unfold series_admittance. now rewrite cartesian.
Qed.

Lemma Bc_map : Bc branch = map line_charging branch.
Proof. unfold Bc, stat, col. now rewrite map2_map. Qed.

Lemma pi_over_180 : imag_j * pi / of_float 180 = Fin (0%R, (PI / 180)%R).
Proof.
  unfold imag_j, pi, of_float. simpl cmul. rewrite cdiv_fin.
  - f_equal. apply C_eq; unfold Cdiv, Cinv, Cnorm2; simpl; field.
  - apply RtoC_neq0. lra.
Qed.

Lemma unit_phasor_eq (b : branch_row) :
  unit_phasor b = Fin (cos (SHIFT b * PI / 180), sin (SHIFT b * PI / 180)).
Proof.
  unfold unit_phasor, imag_j, pi, of_float. simpl cmul. rewrite cdiv_fin.
  - unfold cexp, Cexp. f_equal.
    assert (Hre : Cre (Cdiv (Cmul (Cmul Ci (RtoC (SHIFT b))) (RtoC PI)) (RtoC 180)) = 0%R).
    { unfold Cdiv, Cinv, Cnorm2; simpl; field. }
    assert (Him : Cim (Cdiv (Cmul (Cmul Ci (RtoC (SHIFT b))) (RtoC PI)) (RtoC 180))
                  = (SHIFT b * PI / 180)%R).
    { unfold Cdiv, Cinv, Cnorm2; simpl; field. }
    rewrite Hre, Him, exp_0. apply C_eq; simpl; ring.
  - apply RtoC_neq0. lra.
Qed.

Lemma tap_map : tap branch = map effective_tap branch.
Proof.
  unfold tap, col. rewrite <- (length_map TAP branch) at 1.
  rewrite put_nonzero. rewrite pi_over_180.
  unfold vmul, vexp, smul, astype_complex. rewrite !map_map. rewrite map2_map.
  apply map_ext. intros b. unfold effective_tap, tap_magnitude.
  f_equal. rewrite unit_phasor_eq. unfold of_float. simpl. unfold Cexp. f_equal.
  assert (Hre : Cre (Cmul (0%R, (PI / 180)%R) (RtoC (SHIFT b))) = 0%R) by (simpl; ring).
  assert (Him : Cim (Cmul (0%R, (PI / 180)%R) (RtoC (SHIFT b))) = (SHIFT b * PI / 180)%R)
    by (simpl; field).
  rewrite Hre, Him, exp_0. apply C_eq; simpl; ring.
Qed.

Lemma Ytt_map : Ytt branch = map ytt branch.
Proof.
  unfold Ytt. rewrite Ys_map.
  unfold Bc, stat, vadd, sdiv, smul, astype_complex, col.
  rewrite map2_map. rewrite !map_map. rewrite map2_map.
  apply map_ext. intros b. reflexivity.
Qed.

Lemma Yff_map : Yff branch = map yff branch.
Proof.
  unfold Yff. rewrite Ytt_map, tap_map. unfold vdiv, vmul, vconj.
  rewrite map_map. rewrite map2_map. rewrite map2_map. reflexivity.
Qed.

Lemma Yft_map : Yft branch = map yft branch.
Proof.
  unfold Yft. rewrite Ys_map, tap_map. unfold vdiv, vneg, vconj.
  rewrite !map_map. rewrite map2_map. reflexivity.
Qed.

Lemma Ytf_map : Ytf branch = map ytf branch.
Proof.
  unfold Ytf. rewrite Ys_map, tap_map. unfold vdiv, vneg.
  rewrite !map_map. rewrite map2_map. reflexivity.
Qed.

End BranchTerms.

Lemma Ysh_map (baseMVA : R) (bus : list bus_row) :
  Ysh baseMVA bus = map (shunt baseMVA) bus.
Proof.
  unfold Ysh, sdiv, vadd, smul, astype_complex, col.
  rewrite !map_map. rewrite map2_map. rewrite map_map.
  apply map_ext. intros r. unfold shunt. now rewrite cartesian.
Qed.

(** ** Sums *)

Section Sums.

Local Open Scope c128_scope.

Lemma csum_cons (x : complex128) (l : list complex128) : csum (x :: l) = x + csum l.
Proof. reflexivity. Qed.

Lemma csum_app (l1 l2 : list complex128) : csum (l1 ++ l2) = csum l1 + csum l2.
Proof.
  induction l1 as [| x l1 IH]; simpl app.
  - change (csum []) with czero. now rewrite cadd_0_l.
  - rewrite !csum_cons, IH. apply cadd_assoc.
Qed.

Lemma cadd_swap (a b c d : complex128) : (a + b) + (c + d) = (a + c) + (b + d).
Proof.
  rewrite <- (cadd_assoc a b (c + d)), (cadd_assoc b c d), (cadd_comm b c).
  now rewrite <- (cadd_assoc c b d), (cadd_assoc a c (b + d)).
Qed.

Lemma csum_map_add {X : Type} (f g : X -> complex128) (l : list X) :
  csum (map (fun x => f x + g x) l) = csum (map f l) + csum (map g l).
Proof.
  induction l as [| x l IH]; simpl map; rewrite ?csum_cons.
  - now rewrite cadd_0_l.
  - rewrite IH. apply cadd_swap.
Qed.

Lemma csum_map_ext_in {X : Type} (f g : X -> complex128) (l : list X) :
  (forall x, In x l -> f x = g x) -> csum (map f l) = csum (map g l).
Proof. intros H. f_equal. now apply map_ext_in. Qed.

Lemma csum_map_zero {X : Type} (f : X -> complex128) (l : list X) :
  (forall x, In x l -> f x = czero) -> csum (map f l) = czero.
Proof.
  induction l as [| x l IH]; intros H; simpl map; rewrite ?csum_cons.
  - reflexivity.
  - rewrite H by now left. rewrite cadd_0_l. apply IH. intros y Hy. apply H. now right.
Qed.

(** A sum with one term that may differ from zero. *)
Lemma csum_map_single {X : Type} (f : X -> complex128) (l : list X) (k : X) :
  NoDup l -> In k l -> (forall x, In x l -> x <> k -> f x = czero) ->
  csum (map f l) = f k.
Proof.
  induction l as [| x l IH]; intros Hnd Hin Hz; [contradiction |].
  inversion Hnd as [| ? ? Hx Hnd']; subst.
  simpl map. rewrite csum_cons. destruct Hin as [-> | Hin].
  - rewrite csum_map_zero; [apply cadd_0_r |].
    intros y Hy. apply Hz; [now right |]. intros ->. contradiction.
  - rewrite Hz; [| now left | intros ->; contradiction].
    rewrite cadd_0_l. apply IH; auto. intros y Hy. apply Hz. now right.
Qed.

Lemma cmul_csum_fin (s : complex128) (l : list complex128) :
  is_fin s -> s * csum l = csum (map (cmul s) l).
Proof.
  intros Hs. induction l as [| x l IH]; simpl map; rewrite ?csum_cons.
  - now apply cmul_0_r_fin.
  - now rewrite cmul_add_distr_l, IH.
Qed.

Lemma cconj_csum (l : list complex128) : cconj (csum l) = csum (map cconj l).
Proof.
  induction l as [| x l IH]; simpl map; rewrite ?csum_cons.
  - apply cconj_0.
  - now rewrite cconj_add, IH.
Qed.

Lemma is_fin_csum (l : list complex128) : Forall is_fin l -> is_fin (csum l).
Proof.
  induction 1 as [| x l Hx Hl IH]; [exact I |].
  rewrite csum_cons. now apply is_fin_cadd.
Qed.

Lemma csum_NonFin (l : list complex128) : In NonFin l -> csum l = NonFin.
Proof.
  induction l as [| x l IH]; intros H; [contradiction |].
  rewrite csum_cons. destruct H as [-> | H]; [reflexivity |].
  rewrite IH by assumption. apply cadd_NonFin_r.
Qed.

Lemma csum_filter {X : Type} (p : X -> bool) (f : X -> complex128) (l : list X) :
  csum (map f (filter p l)) = csum (map (fun x => ind (p x) (f x)) l).
Proof.
  induction l as [| x l IH]; [reflexivity |].
  simpl. destruct (p x); simpl map; rewrite ?csum_cons, IH; unfold ind.
  - reflexivity.
  - now rewrite cadd_0_l.
Qed.

End Sums.

(** ** The monad *)

Section Monad.

Lemma bind_ret_l {A B : Type} (a : A) (k : A -> M B) : bind (ret a) k = k a.
Proof. unfold bind, ret. simpl. now destruct (k a). Qed.

Lemma bind_return {A B : Type} (w : list string) (a : A) (k : A -> M B) :
  bind (w, Return a) k = (w ++ fst (k a), snd (k a)).
Proof. reflexivity. Qed.

Lemma bind_raise {A B : Type} (e : exn) (k : A -> M B) : bind (raise e) k = raise e.
Proof. reflexivity. Qed.

End Monad.

(** ** Enumerations *)

Section Enum.

Lemma combine_map_r {A B D : Type} (f : B -> D) (a : list A) (l : list B) :
  combine a (map f l) = map (fun p => (fst p, f (snd p))) (combine a l).
Proof.
  revert a. induction l as [| x l IH]; intros [| y a]; simpl; try reflexivity.
  now rewrite IH.
Qed.

Lemma triplets_map {X : Type} (g : X -> complex128) (c : X -> Z) (a : list Z) (l : list X) :
  triplets (map g l) a (map c l)
  = map (fun kx => (fst kx, c (snd kx), g (snd kx))) (combine a l).
Proof.
  unfold triplets. rewrite (combine_map_r c a l).
  revert a. induction l as [| x l IH]; intros [| y a]; simpl; try reflexivity.
  now rewrite IH.
Qed.

Lemma triplets_app (v1 v2 : list complex128) (i1 i2 j1 j2 : list Z) :
  length i1 = length v1 -> length j1 = length v1 ->
  triplets (v1 ++ v2) (i1 ++ i2) (j1 ++ j2) = triplets v1 i1 j1 ++ triplets v2 i2 j2.
Proof.
  revert i1 j1. induction v1 as [| v v1 IH]; intros [| i i1] [| j j1] Hi Hj;
    simpl in *; try discriminate; [reflexivity |].
  unfold triplets in *. simpl. f_equal. apply IH; congruence.
Qed.

Lemma map_fst_enum {A : Type} (l : list A) : map fst (enum l) = range (length l).
Proof.
  unfold enum. generalize (range_length (length l)). generalize (range (length l)).
  induction l as [| x l IH]; intros [| k ks] H; simpl in *; try discriminate; try reflexivity.
  f_equal. apply IH. congruence.
Qed.

Lemma map_snd_enum {A : Type} (l : list A) : map snd (enum l) = l.
Proof.
  unfold enum. generalize (range_length (length l)). generalize (range (length l)).
  induction l as [| x l IH]; intros [| k ks] H; simpl in *; try discriminate; try reflexivity.
  f_equal. apply IH. congruence.
Qed.

Lemma range_NoDup (n : nat) : NoDup (range n).
Proof.
  unfold range. apply Injective_map_NoDup.
  - intros x y. apply Nat2Z.inj.
  - apply seq_NoDup.
Qed.

Lemma in_range_iff (n : nat) (k : Z) : in_range n k = true <-> In k (range n).
Proof.
  unfold in_range, range. rewrite andb_true_iff, Z.leb_le, Z.ltb_lt, in_map_iff. split.
  - intros [H0 Hn]. exists (Z.to_nat k). split; [lia |]. apply in_seq. lia.
  - intros [x [<- Hx]]. apply in_seq in Hx. lia.
Qed.

Lemma enum_keys_NoDup {A : Type} (l : list A) : NoDup (map fst (enum l)).
Proof. rewrite map_fst_enum. apply range_NoDup. Qed.

Lemma enum_NoDup {A : Type} (l : list A) : NoDup (enum l).
Proof. apply (NoDup_map_inv fst). apply enum_keys_NoDup. Qed.

Lemma enum_key_unique {A : Type} (l : list A) (k : Z) (x y : A) :
  In (k, x) (enum l) -> In (k, y) (enum l) -> x = y.
Proof.
  pose proof (enum_keys_NoDup l) as Hnd. revert Hnd.
  induction (enum l) as [| [k' z] E IH]; simpl; intros Hnd Hx Hy; [contradiction |].
  inversion Hnd as [| ? ? Hk Hnd']; subst.
  destruct Hx as [Hx | Hx], Hy as [Hy | Hy].
  - congruence.
  - inversion Hx; subst. elim Hk. apply in_map_iff. now exists (k, y).
  - inversion Hy; subst. elim Hk. apply in_map_iff. now exists (k, x).
  - now apply IH.
Qed.

Lemma in_combine_seq {A : Type} (x : A) (l : list A) (k s : nat) :
  nth_error l k = Some x ->
  In (Z.of_nat (s + k), x) (combine (map Z.of_nat (seq s (length l))) l).
Proof.
  revert k s. induction l as [| y l IH]; intros [| k] s H; simpl in *; try discriminate.
  - inversion H; subst. left. now rewrite Nat.add_0_r.
  - right. replace (s + S k)%nat with (S s + k)%nat by lia. now apply IH.
Qed.

Lemma in_enum_nth_error {A : Type} (l : list A) (k : nat) (x : A) :
  nth_error l k = Some x -> In (Z.of_nat k, x) (enum l).
Proof. intros H. exact (@in_combine_seq A x l k 0%nat H). Qed.

Lemma in_enum_nth {A : Type} (l : list A) (d : A) (k : Z) :
  in_range (length l) k = true -> In (k, nth (Z.to_nat k) l d) (enum l).
Proof.
  intros H. unfold in_range in H. rewrite andb_true_iff, Z.leb_le, Z.ltb_lt in H.
  rewrite <- (Z2Nat.id k) at 1 by lia. apply in_enum_nth_error.
  apply nth_error_nth'. lia.
Qed.

Lemma in_enum_range {A : Type} (l : list A) (k : Z) (x : A) :
  In (k, x) (enum l) -> in_range (length l) k = true.
Proof.
  intros H. apply in_range_iff. rewrite <- map_fst_enum.
  apply in_map_iff. now exists (k, x).
Qed.

End Enum.

(** ** Stored elements and entries *)

Section StoredElements.

Local Open Scope c128_scope.

Lemma entry_sum_app (i j : Z) (l1 l2 : list entry) :
  entry_sum i j (l1 ++ l2) = entry_sum i j l1 + entry_sum i j l2.
Proof. unfold entry_sum. now rewrite filter_app, map_app, csum_app. Qed.

Lemma entry_sum_cons (i j : Z) (e : entry) (l : list entry) :
  entry_sum i j (e :: l) = ind (at_ij i j e) (evalue e) + entry_sum i j l.
Proof.
  unfold entry_sum, ind. simpl. destruct (at_ij i j e); simpl map.
  - apply csum_cons.
  - now rewrite cadd_0_l.
Qed.

Lemma entry_sum_nil (i j : Z) : entry_sum i j [] = czero.
Proof. reflexivity. Qed.

Lemma entry_sum_flat_map {X : Type} (i j : Z) (h : X -> list entry) (l : list X) :
  entry_sum i j (flat_map h l) = csum (map (fun x => entry_sum i j (h x)) l).
Proof.
  induction l as [| x l IH]; [reflexivity |].
  simpl flat_map. simpl map. now rewrite entry_sum_app, csum_cons, IH.
Qed.

Lemma entry_sum_map {X : Type} (i j : Z) (h : X -> entry) (l : list X) :
  entry_sum i j (map h l) = csum (map (fun x => ind (at_ij i j (h x)) (evalue (h x))) l).
Proof.
  induction l as [| x l IH]; [reflexivity |].
  simpl map. now rewrite entry_sum_cons, csum_cons, IH.
Qed.

Lemma flat_map_ext_in {X Y : Type} (f g : X -> list Y) (l : list X) :
  (forall x, In x l -> f x = g x) -> flat_map f l = flat_map g l.
Proof.
  induction l as [| x l IH]; intros H; [reflexivity |].
  simpl. rewrite (H x) by now left. f_equal. apply IH. intros y Hy. apply H. now right.
Qed.

Lemma flat_map_map {X Y Z' : Type} (f : Y -> list Z') (g : X -> Y) (l : list X) :
  flat_map f (map g l) = flat_map (fun x => f (g x)) l.
Proof. induction l as [| x l IH]; [reflexivity |]. simpl. now rewrite IH. Qed.

(** The stored elements of one row, when every row number occurs once. *)
Lemma filter_row_none {X : Type} (h : Z * X -> entry) (E : list (Z * X)) (k : Z) :
  (forall kx, erow (h kx) = fst kx) ->
  ~ In k (map fst E) ->
  filter (fun e => (erow e =? k)%Z) (map h E) = [].
Proof.
  intros Hh. induction E as [| kx E IH]; intros Hk; [reflexivity |].
  simpl. rewrite Hh. destruct (Z.eqb_spec (fst kx) k) as [Heq | Hne].
  - elim Hk. now left.
  - apply IH. intros Hin. apply Hk. now right.
Qed.

Lemma filter_row_one {X : Type} (h : Z * X -> entry) (E : list (Z * X)) (k : Z) (x : X) :
  (forall kx, erow (h kx) = fst kx) ->
  NoDup (map fst E) -> In (k, x) E ->
  filter (fun e => (erow e =? k)%Z) (map h E) = [h (k, x)].
Proof.
  intros Hh. induction E as [| kx E IH]; intros Hnd Hin; [contradiction |].
  simpl in Hnd. inversion Hnd as [| ? ? Hk Hnd']; subst.
  simpl. rewrite Hh. destruct Hin as [-> | Hin].
  - simpl. rewrite Z.eqb_refl. f_equal. now apply filter_row_none.
  - destruct (Z.eqb_spec (fst kx) k) as [Heq | Hne].
    + elim Hk. rewrite Heq. apply in_map_iff. now exists (k, x).
    + now apply IH.
Qed.

Lemma ind_andb (a b : bool) (v : complex128) : ind (a && b) v = ind a (ind b v).
Proof. now destruct a, b. Qed.

Lemma ind_add (a : bool) (v w : complex128) : ind a v + ind a w = ind a (v + w).
Proof. destruct a; unfold ind; [reflexivity | apply cadd_0_l]. Qed.

Lemma csr_matrix_of_ok (vals : list complex128) (i j : list Z) (shp : nat * nat) :
  length i = length vals -> length j = length vals ->
  forallb (in_range (fst shp)) i = true -> forallb (in_range (snd shp)) j = true ->
  csr_matrix_of vals (i, j) shp = ret (mk_csr shp (triplets vals i j)).
Proof.
  intros Hi Hj Hri Hrj. unfold csr_matrix_of. simpl fst. simpl snd.
  rewrite Hi, Hj, Nat.eqb_refl, Hri, Hrj. reflexivity.
Qed.

Lemma forallb_in_range_range (n : nat) : forallb (in_range n) (range n) = true.
Proof. apply forallb_forall. intros k Hk. now apply in_range_iff. Qed.

End StoredElements.

(** ** Running [makeYbus] *)

Section MakeYbusRun.

Local Open Scope c128_scope.

Variable baseMVA : R.
Variable bus : list bus_row.
Variable branch : list branch_row.

Lemma connection_eq (c : branch_row -> Z) :
  triplets (astype_complex (ones (length branch))) (range (length branch)) (col c branch)
  = connection c branch.
Proof.
  rewrite ones_map. unfold astype_complex, col. rewrite map_map.
  now rewrite triplets_map.
Qed.

Lemma branch_rows_eq (yf yt : branch_row -> complex128) :
  triplets (r_ (map yf branch) (map yt branch))
           (r_ (range (length branch)) (range (length branch)))
           (r_ (col F_BUS branch) (col T_BUS branch))
  = branch_rows yf yt branch.
Proof.
  unfold r_, col. rewrite triplets_app.
  - now rewrite !triplets_map.
  - now rewrite range_length, length_map.
  - now rewrite !length_map.
Qed.

Lemma triplets_diag {X : Type} (g : X -> complex128) (a : list Z) (l : list X) :
  triplets (map g l) a a = map (fun kx => (fst kx, fst kx, g (snd kx))) (combine a l).
Proof.
  unfold triplets. revert a. induction l as [| x l IH]; intros [| k a]; simpl;
    try reflexivity.
  now rewrite IH.
Qed.

Lemma shunt_diagonal_eq :
  triplets (Ysh baseMVA bus) (range (length bus)) (range (length bus))
  = shunt_diagonal baseMVA bus.
Proof. rewrite Ysh_map. apply triplets_diag. Qed.

Lemma incidence_product_eq (c : branch_row -> Z) (yf yt : branch_row -> complex128) :
  mul_data (map (fun e => (ecol e, erow e, evalue e)) (connection c branch))
           (branch_rows yf yt branch)
  = incidence_product c yf yt branch.
Proof.
  unfold mul_data, connection, incidence_product. rewrite map_map, flat_map_map.
  apply flat_map_ext_in. intros [k b] Hkb. unfold branch_rows. simpl.
  rewrite filter_app.
  rewrite (@filter_row_one _ (fun kb => (fst kb, F_BUS (snd kb), yf (snd kb))) _ k b);
    [| reflexivity | apply enum_keys_NoDup | assumption].
  rewrite (@filter_row_one _ (fun kb => (fst kb, T_BUS (snd kb), yt (snd kb))) _ k b);
    [| reflexivity | apply enum_keys_NoDup | assumption].
  reflexivity.
Qed.

Hypothesis Hok : forallb (branch_ok (length bus)) branch = true.

Lemma F_in_range : forallb (in_range (length bus)) (col F_BUS branch) = true.
Proof.
  unfold col. rewrite forallb_forall in *. intros k Hk.
  apply in_map_iff in Hk. destruct Hk as [b [<- Hb]].
  specialize (Hok b Hb). unfold branch_ok in Hok. now apply andb_true_iff in Hok.
Qed.

Lemma T_in_range : forallb (in_range (length bus)) (col T_BUS branch) = true.
Proof.
  unfold col. rewrite forallb_forall in *. intros k Hk.
  apply in_map_iff in Hk. destruct Hk as [b [<- Hb]].
  specialize (Hok b Hb). unfold branch_ok in Hok. now apply andb_true_iff in Hok.
Qed.

Lemma makeYbus_run :
  makeYbus baseMVA bus branch
  = (bus_order_warning bus,
     Return (Ybus_matrix baseMVA bus branch,
             Yf_matrix (length bus) branch, Yt_matrix (length bus) branch)).
Proof.
  unfold makeYbus.
  rewrite Yff_map, Yft_map, Ytf_map, Ytt_map.
  rewrite !csr_matrix_of_ok; simpl fst; simpl snd;
    try (unfold r_; rewrite forallb_app, ?forallb_in_range_range, ?F_in_range, ?T_in_range;
         reflexivity);
    try apply forallb_in_range_range; try apply F_in_range; try apply T_in_range;
    try (unfold r_, col, astype_complex;
         rewrite ?length_app, ?length_map, ?range_length, ?ones_length, ?Ysh_map, ?length_map;
         reflexivity).
  rewrite !connection_eq, !branch_rows_eq, shunt_diagonal_eq.
  rewrite !bind_ret_l.
  unfold matmul, transpose, nrows, ncols. simpl shape. simpl data. simpl fst. simpl snd.
  rewrite Nat.eqb_refl. simpl negb. cbv iota. rewrite !bind_ret_l.
  rewrite !incidence_product_eq.
  unfold madd, nrows, ncols. simpl shape. simpl data. simpl fst. simpl snd.
  rewrite !Nat.eqb_refl. simpl negb. cbv iota. rewrite !bind_ret_l.
  simpl shape. simpl data. simpl fst. simpl snd.
  rewrite !Nat.eqb_refl. simpl negb. cbv iota. rewrite !bind_ret_l.
  unfold bus_order_warning, when, stderr_write, Ybus_matrix, Yf_matrix, Yt_matrix.
  destruct (any_ne (col BUS_I bus) (range (length bus))); reflexivity.
Qed.
End MakeYbusRun.

(** ** Entries of the results of [makeYbus] *)

Section ResultEntries.

Local Open Scope c128_scope.

Lemma sum_over_enum {A : Type} (g : A -> complex128) (l : list A) :
  csum (map (fun kx => g (snd kx)) (enum l)) = csum (map g l).
Proof. rewrite <- (map_map snd g). now rewrite map_snd_enum. Qed.

Lemma getitem_rows (yf yt : branch_row -> complex128) (branch : list branch_row)
    (nb : nat) (i j : Z) :
  getitem (mk_csr (length branch, nb) (branch_rows yf yt branch)) i j
  = rows_entry yf yt branch i j.
Proof.
  unfold getitem, rows_entry, branch_rows. simpl data.
  rewrite entry_sum_app, !entry_sum_map, <- csum_map_add.
  apply csum_map_ext_in. intros [k b] _. unfold at_ij, erow, ecol, evalue, row_terms.
  simpl. now rewrite !ind_andb, ind_add.
Qed.

Lemma entry_sum_incidence_product (c : branch_row -> Z) (yf yt : branch_row -> complex128)
    (branch : list branch_row) (i j : Z) :
  entry_sum i j (incidence_product c yf yt branch)
  = csum (map (fun b => ind (c b =? i)%Z (row_terms yf yt j b)) branch).
Proof.
  unfold incidence_product. rewrite entry_sum_flat_map.
  rewrite <- (sum_over_enum (fun b => ind (c b =? i)%Z (row_terms yf yt j b))).
  apply csum_map_ext_in. intros [k b] _.
  rewrite !entry_sum_cons, entry_sum_nil, cadd_0_r.
  unfold at_ij, erow, ecol, evalue, row_terms. cbn [fst snd].
  now rewrite !cmul_1_l, !ind_andb, ind_add.
Qed.

Lemma getitem_Ybus (baseMVA : R) (bus : list bus_row) (branch : list branch_row) (i j : Z) :
  getitem (Ybus_matrix baseMVA bus branch) i j = Ybus_entry baseMVA bus branch i j.
Proof.
  unfold getitem, Ybus_matrix, Ybus_entry. simpl data.
  rewrite !entry_sum_app, !entry_sum_incidence_product, <- csum_map_add.
  f_equal. unfold shunt_diagonal. now rewrite entry_sum_map.
Qed.

End ResultEntries.

(** ** Scatter-add *)

Section ScatterAdd.

Local Open Scope c128_scope.

Lemma add_at_eq (Y : Dense.matrix) (i0 j0 : Z) (v : complex128) (i j : Z) :
  Dense.add_at Y i0 j0 v i j = Y i j + ind ((i0 =? i) && (j0 =? j))%Z v.
Proof.
  unfold Dense.add_at. rewrite (Z.eqb_sym i i0), (Z.eqb_sym j j0).
  destruct ((i0 =? i)%Z && (j0 =? j)%Z); unfold ind; [reflexivity |].
  now rewrite cadd_0_r.
Qed.

Lemma stamp_branch_eq (Y : Dense.matrix) (b : branch_row) (i j : Z) :
  Dense.stamp_branch Y b i j = Y i j + branch_terms i j b.
Proof.
  unfold Dense.stamp_branch. rewrite !add_at_eq.
  unfold branch_terms, row_terms. rewrite !ind_andb, <- !ind_add.
  now rewrite !cadd_assoc.
Qed.

Lemma stamp_shunt_eq (baseMVA : R) (Y : Dense.matrix) (kr : Z * bus_row) (i j : Z) :
  Dense.stamp_shunt baseMVA Y kr i j = Y i j + shunt_term baseMVA i j kr.
Proof. unfold Dense.stamp_shunt. now rewrite add_at_eq. Qed.

Lemma fold_left_sum {X : Type} (f : Dense.matrix -> X -> Dense.matrix)
    (t : X -> complex128) (i j : Z) :
  (forall Y x, f Y x i j = Y i j + t x) ->
  forall l Y, fold_left f l Y i j = Y i j + csum (map t l).
Proof.
  intros Hf. induction l as [| x l IH]; intros Y; simpl fold_left; simpl map.
  - change (csum []) with czero. now rewrite cadd_0_r.
  - now rewrite IH, Hf, csum_cons, cadd_assoc.
Qed.

Lemma scatter_add_entry (baseMVA : R) (bus : list bus_row) (branch : list branch_row)
    (i j : Z) :
  Dense.scatter_add baseMVA bus branch i j = Ybus_entry baseMVA bus branch i j.
Proof.
  unfold Dense.scatter_add, Ybus_entry.
  rewrite (fold_left_sum _ (shunt_term baseMVA i j)) by (intros; apply stamp_shunt_eq).
  rewrite (fold_left_sum _ (branch_terms i j)) by (intros; apply stamp_branch_eq).
  unfold Dense.zeros. now rewrite cadd_0_l.
Qed.

End ScatterAdd.

(** ** Values of the branch terms *)

Section BranchValues.

Local Open Scope c128_scope.

Variable b : branch_row.

Lemma tap_magnitude_neq0 : tap_magnitude b <> 0%R.
Proof. unfold tap_magnitude. destruct (Req_dec_T (TAP b) 0); [lra | assumption]. Qed.

Lemma phasor_norm (x : R) : (cos x * cos x + sin x * sin x = 1)%R.
Proof. pose proof (sin2_cos2 x) as H. unfold Rsqr in H. lra. Qed.

Lemma unit_phasor_abs : cabs (unit_phasor b) = cone.
Proof.
  rewrite unit_phasor_eq. unfold cabs, cone, Cmod, Cnorm2, C1. simpl.
  now rewrite phasor_norm, sqrt_1.
Qed.

Lemma effective_tap_eq :
  effective_tap b
  = Fin (Cmul (RtoC (tap_magnitude b))
              (cos (SHIFT b * PI / 180), sin (SHIFT b * PI / 180))).
Proof. unfold effective_tap. now rewrite unit_phasor_eq. Qed.

Lemma effective_tap_neq0 :
  Cmul (RtoC (tap_magnitude b)) (cos (SHIFT b * PI / 180), sin (SHIFT b * PI / 180)) <> C0.
Proof.
  pose proof tap_magnitude_neq0 as Ht.
  pose proof (phasor_norm (SHIFT b * PI / 180)) as Hn.
  intros H. pose proof (f_equal Cre H) as Hre. pose proof (f_equal Cim H) as Him.
  simpl in Hre, Him.
  assert (Hc : (tap_magnitude b * cos (SHIFT b * PI / 180) = 0)%R) by lra.
  assert (Hs : (tap_magnitude b * sin (SHIFT b * PI / 180) = 0)%R) by lra.
  apply Rmult_integral in Hc. apply Rmult_integral in Hs.
  destruct Hc as [Hc | Hc]; [contradiction |].
  destruct Hs as [Hs | Hs]; [contradiction |].
  rewrite Hc, Hs in Hn. lra.
Qed.

Lemma Cconj_neq0 (z : C) : z <> C0 -> Cconj z <> C0.
Proof.
  intros Hz H. apply Hz.
  pose proof (f_equal Cre H) as Hre. pose proof (f_equal Cim H) as Him.
  destruct z as [x y]. simpl in *. apply C_eq; simpl; lra.
Qed.

Lemma Cmul_neq0 (z w : C) : z <> C0 -> w <> C0 -> Cmul z w <> C0.
Proof.
  intros Hz Hw H. pose proof (Cnorm2_pos Hz) as Pz. pose proof (Cnorm2_pos Hw) as Pw.
  pose proof (f_equal Cre H) as Hre. pose proof (f_equal Cim H) as Him.
  destruct z as [a c], w as [x y]. unfold Cnorm2 in *. simpl in *.
  assert (Hp : ((a * a + c * c) * (x * x + y * y)
                = (a * x - c * y) * (a * x - c * y) + (a * y + c * x) * (a * y + c * x))%R)
    by ring.
  rewrite Hre, Him in Hp. nra.
Qed.

(** An out-of-service branch with a non-zero series impedance. *)
Hypothesis Hstat : BR_STATUS b = 0%R.
Hypothesis Hz : (BR_R b, BR_X b) <> C0.

Lemma series_admittance_out : series_admittance b = czero.
Proof.
  unfold series_admittance, of_float. rewrite Hstat, cdiv_fin by assumption.
  unfold czero. f_equal. now apply Cdiv_0_l.
Qed.

Lemma ytt_out : ytt b = czero.
Proof.
  unfold ytt, line_charging. rewrite series_admittance_out, Hstat.
  unfold imag_j, of_float, czero. simpl cmul. rewrite cdiv_fin by (apply RtoC_neq0; lra).
  simpl cadd. f_equal. apply C_eq; unfold Cdiv, Cinv, Cnorm2; simpl; field.
Qed.

Lemma neg_czero : - czero = czero.
Proof. unfold czero. simpl. f_equal. apply C_eq; simpl; ring. Qed.

Lemma yft_out : yft b = czero.
Proof.
  unfold yft. rewrite series_admittance_out, neg_czero, effective_tap_eq.
  unfold czero, cconj. rewrite cdiv_fin by (apply Cconj_neq0, effective_tap_neq0).
  f_equal. apply Cdiv_0_l. apply Cconj_neq0, effective_tap_neq0.
Qed.

Lemma ytf_out : ytf b = czero.
Proof.
  unfold ytf. rewrite series_admittance_out, neg_czero, effective_tap_eq.
  unfold czero. rewrite cdiv_fin by apply effective_tap_neq0.
  f_equal. apply Cdiv_0_l. apply effective_tap_neq0.
Qed.

Lemma yff_out : yff b = czero.
Proof.
  unfold yff. rewrite ytt_out, effective_tap_eq.
  unfold czero, cconj, cmul.
  assert (H : Cmul (Cmul (RtoC (tap_magnitude b))
                     (cos (SHIFT b * PI / 180), sin (SHIFT b * PI / 180)))
                   (Cconj (Cmul (RtoC (tap_magnitude b))
                     (cos (SHIFT b * PI / 180), sin (SHIFT b * PI / 180)))) <> C0).
  { apply Cmul_neq0; [| apply Cconj_neq0]; apply effective_tap_neq0. }
  rewrite cdiv_fin by exact H. f_equal. now apply Cdiv_0_l.
Qed.

End BranchValues.

(** ** The divisors are finite

    [cdiv] answers [NonFin] for a non-finite divisor.  The divisors that
    [makeYbus] uses are all finite, and the divisor [|V|] of [dSbus_dV] is
    finite exactly when the dividend [V] is, so that case never decides a
    result. *)

Section Divisors.

Local Open Scope c128_scope.

Lemma Forall_is_fin_map {X : Type} (f : X -> complex128) (l : list X) :
  (forall x, is_fin (f x)) -> Forall is_fin (map f l).
Proof. intros H. apply Forall_forall. intros v Hv. apply in_map_iff in Hv.
  destruct Hv as [x [<- _]]. apply H. Qed.

Lemma makeYbus_divisors_finite (baseMVA : R) (branch : list branch_row) :
  Forall is_fin (vadd (astype_complex (col BR_R branch))
                      (smul imag_j (astype_complex (col BR_X branch))))
  /\ Forall is_fin (tap branch)
  /\ Forall is_fin (vconj (tap branch))
  /\ Forall is_fin (vmul (tap branch) (vconj (tap branch)))
  /\ is_fin (of_float baseMVA) /\ is_fin (of_float 2).
Proof.
  assert (Ht : forall b, is_fin (effective_tap b)).
  { intros b. rewrite effective_tap_eq. exact I. }
  repeat split.
  - unfold vadd, smul, astype_complex, col. rewrite !map_map, map2_map.
    apply Forall_is_fin_map. intros b. now rewrite cartesian.
  - rewrite tap_map. now apply Forall_is_fin_map.
  - rewrite tap_map. unfold vconj. rewrite map_map.
    apply Forall_is_fin_map. intros b. now apply is_fin_cconj.
  - rewrite tap_map. unfold vmul, vconj. rewrite map_map, map2_map.
    apply Forall_is_fin_map. intros b. apply is_fin_cmul; [| apply is_fin_cconj]; apply Ht.
Qed.

Lemma cabs_is_fin (v : complex128) : is_fin (cabs v) <-> is_fin v.
Proof. now destruct v. Qed.

End Divisors.

(** ** Inputs that [makeYbus] rejects, and single rows *)

Section MakeYbusHelpers.

Local Open Scope c128_scope.

Lemma forallb_branch_ok_false (nb : nat) (branch : list branch_row) :
  forallb (branch_ok nb) branch = false ->
  forallb (in_range nb) (col F_BUS branch) = false
  \/ forallb (in_range nb) (col T_BUS branch) = false.
Proof.
  unfold col. induction branch as [| b branch IH]; simpl; [discriminate |].
  unfold branch_ok at 1. intros H.
  destruct (in_range nb (F_BUS b)); [| now left].
  destruct (in_range nb (T_BUS b)); [| right; reflexivity].
  simpl in *. now apply IH.
Qed.

Lemma csr_matrix_of_bad_column (vals : list complex128) (i j : list Z) (shp : nat * nat) :
  forallb (in_range (snd shp)) j = false ->
  csr_matrix_of vals (i, j) shp = raise ValueError.
Proof.
  intros H. unfold csr_matrix_of. simpl fst. simpl snd. rewrite H, andb_false_r.
  simpl. now destruct (negb _).
Qed.

Lemma snd_bind_raise {A B : Type} (m : M A) (k : A -> M B) (e : exn) :
  (forall a, snd (k a) = Raise e) -> (forall e', snd m = Raise e' -> e' = e) ->
  snd (bind m k) = Raise e.
Proof.
  intros Hk Hm. unfold bind. destruct (snd m) as [a | e'] eqn:E; simpl.
  - apply Hk.
  - f_equal. now apply Hm.
Qed.

Lemma makeYbus_raises (baseMVA : R) (bus : list bus_row) (branch : list branch_row) :
  forallb (branch_ok (length bus)) branch = false ->
  snd (makeYbus baseMVA bus branch) = Raise ValueError.
Proof.
  intros H. apply forallb_branch_ok_false in H. unfold makeYbus.
  apply snd_bind_raise.
  2:{ intros e'. unfold when, stderr_write, ret.
      destruct (any_ne _ _); simpl; discriminate. }
  intros _.
  destruct (forallb (in_range (length bus)) (col F_BUS branch)) eqn:HF.
  - destruct H as [H | H]; [discriminate |].
    rewrite csr_matrix_of_ok; simpl fst; simpl snd;
      [| unfold astype_complex; now rewrite range_length, length_map, ones_length
       | unfold astype_complex, col; now rewrite !length_map, ones_length
       | apply forallb_in_range_range | assumption ].
    rewrite ?bind_ret_l. now rewrite csr_matrix_of_bad_column.
  - now rewrite csr_matrix_of_bad_column.
Qed.

Lemma rows_entry_row (yf yt : branch_row -> complex128) (branch : list branch_row)
    (k : nat) (b : branch_row) (j : Z) :
  nth_error branch k = Some b ->
  rows_entry yf yt branch (Z.of_nat k) j = row_terms yf yt j b.
Proof.
  intros Hk. unfold rows_entry.
  rewrite (@csum_map_single _ _ _ (Z.of_nat k, b)).
  - cbn [fst snd]. now rewrite Z.eqb_refl.
  - apply enum_NoDup.
  - now apply in_enum_nth_error.
  - intros [k' b'] Hin Hne. cbn [fst snd].
    destruct (Z.eqb_spec k' (Z.of_nat k)) as [-> | Hk']; [| reflexivity].
    elim Hne. f_equal. eapply enum_key_unique; [exact Hin |].
    now apply in_enum_nth_error.
Qed.

End MakeYbusHelpers.

(** ** Branches with zero impedance; the shunt diagonal *)

Section ShortedBranch.

Local Open Scope c128_scope.

Variable b : branch_row.
Hypothesis HR : BR_R b = 0%R.
Hypothesis HX : BR_X b = 0%R.

Lemma series_admittance_short : series_admittance b = NonFin.
Proof. unfold series_admittance. rewrite HR, HX. apply cdiv_0_r. Qed.

Lemma ytt_short : ytt b = NonFin.
Proof. unfold ytt. now rewrite series_admittance_short. Qed.

Lemma yff_short : yff b = NonFin.
Proof. unfold yff. now rewrite ytt_short. Qed.

Lemma yft_short : yft b = NonFin.
Proof. unfold yft. now rewrite series_admittance_short. Qed.

Lemma ytf_short : ytf b = NonFin.
Proof. unfold ytf. now rewrite series_admittance_short. Qed.

End ShortedBranch.

Section MoreEntries.

Local Open Scope c128_scope.

Lemma cadd_NonFin_l (x : complex128) : NonFin + x = NonFin.
Proof. reflexivity. Qed.

Lemma any_ne_from (l : list bus_row) (s k : nat) (r : bus_row) :
  nth_error l k = Some r -> BUS_I r <> Z.of_nat (s + k) ->
  any_ne (map BUS_I l) (map Z.of_nat (seq s (length l))) = true.
Proof.
  unfold any_ne. revert s k. induction l as [| x l IH]; intros s [| k] Hk Hne;
    simpl in *; try discriminate.
  - inversion Hk; subst. rewrite Nat.add_0_r in Hne.
    apply Z.eqb_neq in Hne. now rewrite Hne.
  - apply orb_true_iff. right. apply (IH (S s) k Hk).
    now replace (S s + k)%nat with (s + S k)%nat by lia.
Qed.

(** Some record's bus number differs from its position. *)
Lemma any_ne_bus (bus : list bus_row) (k : nat) (r : bus_row) :
  nth_error bus k = Some r -> BUS_I r <> Z.of_nat k ->
  any_ne (col BUS_I bus) (range (length bus)) = true.
Proof. intros Hk Hne. exact (@any_ne_from bus 0 k r Hk Hne). Qed.

(** A branch with [R = X = 0] makes the entries it feeds non-finite. *)
Lemma Ybus_entry_short (baseMVA : R) (bus : list bus_row) (branch : list branch_row)
    (b : branch_row) :
  In b branch -> BR_R b = 0%R -> BR_X b = 0%R ->
  Ybus_entry baseMVA bus branch (F_BUS b) (F_BUS b) = NonFin.
Proof.
  intros Hin HR HX. unfold Ybus_entry. rewrite csum_NonFin; [reflexivity |].
  apply in_map_iff. exists b. split; [| assumption].
  unfold branch_terms, row_terms. rewrite Z.eqb_refl, yff_short by assumption.
  reflexivity.
Qed.

(** Without branch terms an entry of [Ybus] is the shunt diagonal. *)
Lemma shunt_terms_diag (baseMVA : R) (bus : list bus_row) (i j : Z) :
  csum (map (shunt_term baseMVA i j) (enum bus))
  = Dense.diag (map (shunt baseMVA) bus) i j.
Proof.
  unfold Dense.diag. rewrite length_map.
  destruct (Z.eqb_spec i j) as [<- | Hij]; simpl andb.
  - destruct (in_range (length bus) i) eqn:Hi.
    + pose (d := mk_bus 0 0 0).
      rewrite (@csum_map_single _ _ _ (i, nth (Z.to_nat i) bus d)).
      * unfold shunt_term. cbn [fst snd]. rewrite Z.eqb_refl. simpl andb. unfold ind.
        rewrite (nth_indep _ czero (shunt baseMVA d)).
        -- now rewrite map_nth.
        -- rewrite length_map. unfold in_range in Hi.
           rewrite andb_true_iff, Z.leb_le, Z.ltb_lt in Hi. lia.
      * apply enum_NoDup.
      * now apply in_enum_nth.
      * intros [k r] Hin Hne. unfold shunt_term. cbn [fst snd].
        destruct (Z.eqb_spec k i) as [-> | Hk]; [| reflexivity].
        elim Hne. f_equal. eapply enum_key_unique; [exact Hin |]. now apply in_enum_nth.
    + apply csum_map_zero. intros [k r] Hin. unfold shunt_term. cbn [fst snd].
      destruct (Z.eqb_spec k i) as [-> | Hk]; [| reflexivity].
      apply in_enum_range in Hin. congruence.
  - apply csum_map_zero. intros [k r] Hin. unfold shunt_term. cbn [fst snd].
    destruct (Z.eqb_spec k i) as [-> | Hk]; [| reflexivity].
    destruct (Z.eqb_spec i j); [contradiction | reflexivity].
Qed.

End MoreEntries.

(** ** Branches without phase shift *)

Section TransferTerms.

Local Open Scope c128_scope.

Variable b : branch_row.

(** Equal transfer terms make the contribution of a branch symmetric. *)
Lemma branch_terms_swap (i j : Z) :
  yft b = ytf b -> branch_terms i j b = branch_terms j i b.
Proof.
  intros H. unfold branch_terms, row_terms. rewrite H.
  rewrite <- !ind_add, <- !ind_andb.
  rewrite (andb_comm (F_BUS b =? j)%Z (F_BUS b =? i)%Z).
  rewrite (andb_comm (T_BUS b =? j)%Z (T_BUS b =? i)%Z).
  rewrite (andb_comm (F_BUS b =? j)%Z (T_BUS b =? i)%Z).
  rewrite (andb_comm (T_BUS b =? j)%Z (F_BUS b =? i)%Z).
  apply cadd_swap.
Qed.

(** An out-of-service branch has equal transfer terms: both zero, or both
    non-finite when its impedance is zero. *)
Lemma yft_eq_ytf_out : BR_STATUS b = 0%R -> yft b = ytf b.
Proof.
  intros Hs. destruct (Ceq_dec (BR_R b, BR_X b) C0) as [H0 | H0].
  - pose proof (f_equal Cre H0) as HR. pose proof (f_equal Cim H0) as HX.
    simpl in HR, HX. now rewrite yft_short, ytf_short.
  - now rewrite yft_out, ytf_out.
Qed.

End TransferTerms.

Section NoPhaseShift.

Local Open Scope c128_scope.

Variable b : branch_row.
Hypothesis Hshift : SHIFT b = 0%R.

Lemma effective_tap_unshifted : effective_tap b = of_float (tap_magnitude b).
Proof.
  rewrite effective_tap_eq, Hshift. unfold of_float. f_equal.
  replace (0 * PI / 180)%R with 0%R by field. rewrite cos_0, sin_0.
  apply C_eq; simpl; ring.
Qed.

Lemma cconj_of_float (x : R) : cconj (of_float x) = of_float x.
Proof. unfold of_float. simpl. f_equal. apply C_eq; simpl; ring. Qed.

Lemma yft_eq_ytf : yft b = ytf b.
Proof. unfold yft, ytf. now rewrite effective_tap_unshifted, cconj_of_float. Qed.

Lemma branch_terms_sym (i j : Z) : branch_terms i j b = branch_terms j i b.
Proof. apply branch_terms_swap. apply yft_eq_ytf. Qed.

(** Nominal tap: the field holds 1, or 0 for which 1 is substituted. *)
Hypothesis Htap : TAP b = 1%R \/ TAP b = 0%R.

Lemma tap_magnitude_nominal : tap_magnitude b = 1%R.
Proof.
  unfold tap_magnitude. destruct (Req_dec_T (TAP b) 0) as [H0 | H0]; [reflexivity |].
  destruct Htap; [assumption | contradiction].
Qed.

Lemma effective_tap_nominal : effective_tap b = cone.
Proof. now rewrite effective_tap_unshifted, tap_magnitude_nominal. Qed.

Lemma cone_sq : cone * cconj cone = cone.
Proof. unfold cone. simpl. f_equal. apply C_eq; simpl; ring. Qed.

Lemma yff_nominal : yff b = ytt b.
Proof. unfold yff. now rewrite effective_tap_nominal, cone_sq, cdiv_1_r. Qed.

Lemma yft_nominal : yft b = - series_admittance b.
Proof.
  unfold yft. rewrite effective_tap_nominal.
  change (cconj cone) with (cconj (of_float 1)). rewrite cconj_of_float.
  apply cdiv_1_r.
Qed.

Lemma ytf_nominal : ytf b = - series_admittance b.
Proof. unfold ytf. rewrite effective_tap_nominal. apply cdiv_1_r. Qed.

End NoPhaseShift.

Section Symmetry.

Lemma shunt_term_sym (baseMVA : R) (i j : Z) (kr : Z * bus_row) :
  shunt_term baseMVA i j kr = shunt_term baseMVA j i kr.
Proof. unfold shunt_term. now rewrite andb_comm. Qed.

Lemma Ybus_entry_sym (baseMVA : R) (bus : list bus_row) (branch : list branch_row)
    (i j : Z) :
  (forall b, In b branch -> BR_STATUS b = 0%R \/ SHIFT b = 0%R) ->
  Ybus_entry baseMVA bus branch i j = Ybus_entry baseMVA bus branch j i.
Proof.
  intros H. unfold Ybus_entry. f_equal.
  - apply csum_map_ext_in. intros b Hb. apply branch_terms_swap.
    destruct (H b Hb) as [Hs | Hs]; [now apply yft_eq_ytf_out | now apply yft_eq_ytf].
  - apply csum_map_ext_in. intros kr _. apply shunt_term_sym.
Qed.

End Symmetry.

(** ** Appending a branch *)

Section AppendBranch.

Local Open Scope c128_scope.

Lemma combine_snoc {A B : Type} (a : list A) (l : list B) (x : A) (y : B) :
  length a = length l -> combine (a ++ [x]) (l ++ [y]) = combine a l ++ [(x, y)].
Proof.
  revert l. induction a as [| u a IH]; intros [| v l] H; simpl in *; try discriminate.
  - reflexivity.
  - f_equal. apply IH. congruence.
Qed.

Lemma enum_snoc {A : Type} (l : list A) (x : A) :
  enum (l ++ [x]) = enum l ++ [(Z.of_nat (length l), x)].
Proof.
  unfold enum, range. rewrite length_app. simpl length. rewrite Nat.add_1_r.
  rewrite seq_S, map_app. simpl. apply combine_snoc.
  now rewrite length_map, length_seq.
Qed.

Lemma csum_snoc {X : Type} (f : X -> complex128) (l : list X) (x : X) :
  csum (map f (l ++ [x])) = csum (map f l) + f x.
Proof.
  rewrite map_app, csum_app. simpl map. now rewrite csum_cons, cadd_0_r.
Qed.

Lemma Ybus_entry_snoc (baseMVA : R) (bus : list bus_row) (branch : list branch_row)
    (b : branch_row) (i j : Z) :
  Ybus_entry baseMVA bus (branch ++ [b]) i j
  = Ybus_entry baseMVA bus branch i j + branch_terms i j b.
Proof.
  unfold Ybus_entry. rewrite csum_snoc.
  rewrite <- !cadd_assoc. f_equal. apply cadd_comm.
Qed.

Lemma rows_entry_snoc (yf yt : branch_row -> complex128) (branch : list branch_row)
    (b : branch_row) (i j : Z) :
  rows_entry yf yt (branch ++ [b]) i j
  = rows_entry yf yt branch i j
    + ind (Z.of_nat (length branch) =? i)%Z (row_terms yf yt j b).
Proof. unfold rows_entry. rewrite enum_snoc. now rewrite csum_snoc. Qed.

Lemma rows_entry_beyond (yf yt : branch_row -> complex128) (branch : list branch_row)
    (i j : Z) :
  in_range (length branch) i = false -> rows_entry yf yt branch i j = czero.
Proof.
  intros Hi. unfold rows_entry. apply csum_map_zero. intros [k b] Hin. cbn [fst snd].
  destruct (Z.eqb_spec k i) as [-> | Hk]; [| reflexivity].
  apply in_enum_range in Hin. congruence.
Qed.

Lemma forallb_snoc {A : Type} (p : A -> bool) (l : list A) (x : A) :
  forallb p (l ++ [x]) = true -> forallb p l = true /\ p x = true.
Proof.
  rewrite forallb_app. simpl. rewrite andb_true_r. apply andb_true_iff.
Qed.

End AppendBranch.

(** ** Running [dSbus_dV] *)

Section RunDSbus.

Local Open Scope c128_scope.

Lemma zmax_seq (s n : nat) : zmax (map Z.of_nat (seq s (S n))) = Z.of_nat (s + n).
Proof.
  revert s. induction n as [| n IH]; intros s.
  - simpl. lia.
  - rewrite <- cons_seq. rewrite map_cons.
    change (zmax (Z.of_nat s :: map Z.of_nat (seq (S s) (S n))))
      with (Z.max (Z.of_nat s) (zmax (map Z.of_nat (seq (S s) (S n))))).
    rewrite IH. lia.
Qed.

Lemma zmax_range (n : nat) : (0 < n)%nat -> (zmax (range n) + 1)%Z = Z.of_nat n.
Proof.
  intros Hn. destruct n as [| n]; [lia |]. unfold range. rewrite zmax_seq. lia.
Qed.

Lemma forallb_nonneg_range (n : nat) : forallb (Z.leb 0) (range n) = true.
Proof.
  apply forallb_forall. intros k Hk. apply in_range_iff in Hk.
  unfold in_range in Hk. now apply andb_true_iff in Hk.
Qed.

Lemma triplets_diag_data (x : list complex128) :
  triplets x (range (length x)) (range (length x)) = diag_data x.
Proof.
  unfold diag_data. rewrite <- (map_id x) at 1.
  now rewrite (triplets_diag (fun v => v)).
Qed.

Lemma csr_matrix_infer_diag (x : list complex128) (n : nat) :
  (0 < n)%nat -> length x = n ->
  csr_matrix_infer x (range n, range n) = ret (mk_csr (n, n) (diag_data x)).
Proof.
  intros Hn Hx. unfold csr_matrix_infer. simpl fst. simpl snd.
  rewrite range_length, Hx, Nat.eqb_refl. simpl negb. cbv iota.
  destruct (Nat.eqb_spec n 0) as [-> | _]; [lia |]. simpl orb. cbv iota.
  rewrite forallb_nonneg_range. simpl negb. cbv iota.
  rewrite zmax_range by assumption. rewrite Nat2Z.id.
  subst n. now rewrite triplets_diag_data.
Qed.

Variable Ybus : csr_matrix.
Variable V : list complex128.

Hypothesis Hn : (0 < length V)%nat.
Hypothesis Hshape : shape Ybus = (length V, length V).

Lemma injected_current_length : length (injected_current Ybus V) = length V.
Proof.
  unfold injected_current, nrows. now rewrite length_map, range_length, Hshape.
Qed.

Lemma vnorm_length : length (vdiv V (vabs V)) = length V.
Proof.
  unfold vdiv, vabs. rewrite <- (map_id V) at 1. now rewrite map2_map, length_map.
Qed.

Lemma dSbus_dV_run :
  dSbus_dV Ybus V = ([], Return (dS_dVm_matrix Ybus V, dS_dVa_matrix Ybus V)).
Proof.
  unfold dSbus_dV, matvec, ncols. rewrite Hshape. simpl snd.
  rewrite Nat.eqb_refl. simpl negb. cbv iota. rewrite bind_ret_l.
  fold (injected_current Ybus V).
  rewrite (@csr_matrix_infer_diag V _ Hn eq_refl), bind_ret_l.
  rewrite (@csr_matrix_infer_diag _ _ Hn injected_current_length), bind_ret_l.
  rewrite (@csr_matrix_infer_diag _ _ Hn vnorm_length), bind_ret_l.
  unfold matmul, madd, msub, mconj, mscale, nrows, ncols. rewrite Hshape.
  repeat (progress (cbn [shape data fst snd]; rewrite ?Nat.eqb_refl; cbn [negb andb];
                    rewrite ?bind_ret_l)).
  reflexivity.
Qed.

End RunDSbus.

(** ** Products with diagonal matrices *)

Section DiagonalProducts.

Local Open Scope c128_scope.

(** Element [i] of an array, as NumPy indexes it for [0 <= i < len]. *)
Local Abbreviation item x i := (nth (Z.to_nat i) x czero).

Lemma flat_map_singleton {X Y : Type} (g : X -> Y) (l : list X) :
  flat_map (fun x => [g x]) l = map g l.
Proof. induction l as [| x l IH]; [reflexivity |]. simpl. now rewrite IH. Qed.

(** [A * diag(x)]: every stored element is multiplied by the element of [x]
    in its column. *)
Lemma mul_data_diag_r (d : list entry) (x : list complex128) :
  Forall (fun a => in_range (length x) (ecol a) = true) d ->
  mul_data d (diag_data x)
  = map (fun a => (erow a, ecol a, evalue a * item x (ecol a))) d.
Proof.
  intros Hd. unfold mul_data. rewrite <- flat_map_singleton.
  apply flat_map_ext_in. intros a Ha.
  rewrite Forall_forall in Hd. specialize (Hd a Ha).
  unfold diag_data.
  rewrite (@filter_row_one _ (fun kv => (fst kv, fst kv, snd kv)) _
             (ecol a) (item x (ecol a)));
    [reflexivity | reflexivity | apply enum_keys_NoDup | now apply in_enum_nth].
Qed.

(** [diag(x) * B]: row [i] of [B] is multiplied by [x[i]]. *)
Lemma entry_sum_diag_l (x : list complex128) (d : list entry) (i j : Z) :
  entry_sum i j (mul_data (diag_data x) d)
  = ind (in_range (length x) i)
        (csum (map (fun b => ind (at_ij i j b) (item x (i) * evalue b)) d)).
Proof.
  unfold mul_data, diag_data. rewrite flat_map_map, entry_sum_flat_map.
  assert (Hterm : forall kv : Z * complex128,
            entry_sum i j
              (map (fun b => (erow (fst kv, fst kv, snd kv), ecol b,
                              evalue (fst kv, fst kv, snd kv) * evalue b))
                 (filter (fun b => (erow b =? ecol (fst kv, fst kv, snd kv))%Z) d))
            = ind (fst kv =? i)%Z
                (csum (map (fun b => ind (at_ij i j b) (snd kv * evalue b)) d))).
  { intros [k v]. unfold erow, ecol, evalue. cbn [fst snd].
    rewrite entry_sum_map.
    rewrite (csum_filter (fun b : entry => (fst (fst b) =? k)%Z)).
    destruct (Z.eqb_spec k i) as [-> | Hk].
    - unfold ind at 3. apply csum_map_ext_in. intros b _.
      unfold at_ij, erow, ecol, evalue. cbn [fst snd].
      rewrite Z.eqb_refl. simpl andb. now rewrite <- ind_andb.
    - unfold ind at 3. apply csum_map_zero. intros b _.
      unfold at_ij, erow, ecol, evalue. cbn [fst snd].
      apply Z.eqb_neq in Hk. rewrite Hk. simpl andb. unfold ind.
      now destruct (fst (fst b) =? k)%Z. }
  rewrite (map_ext _ _ Hterm).
  destruct (in_range (length x) i) eqn:Hi.
  - rewrite (@csum_map_single _ _ _ (i, item x (i))).
    + cbn [fst snd]. now rewrite Z.eqb_refl.
    + apply enum_NoDup.
    + now apply in_enum_nth.
    + intros [k v] Hin Hne. cbn [fst snd].
      destruct (Z.eqb_spec k i) as [-> | Hk]; [| reflexivity].
      elim Hne. f_equal. eapply enum_key_unique; [exact Hin |]. now apply in_enum_nth.
  - apply csum_map_zero. intros [k v] Hin. cbn [fst snd].
    destruct (Z.eqb_spec k i) as [-> | Hk]; [| reflexivity].
    apply in_enum_range in Hin. congruence.
Qed.

(** [diag(x)] itself. *)
Lemma entry_sum_diag (x : list complex128) (i j : Z) :
  entry_sum i j (diag_data x) = Dense.diag x i j.
Proof.
  unfold diag_data, Dense.diag. rewrite entry_sum_map.
  destruct (Z.eqb_spec i j) as [<- | Hij]; simpl andb.
  - destruct (in_range (length x) i) eqn:Hi.
    + rewrite (@csum_map_single _ _ _ (i, item x (i))).
      * unfold at_ij, erow, ecol, evalue. cbn [fst snd]. now rewrite Z.eqb_refl.
      * apply enum_NoDup.
      * now apply in_enum_nth.
      * intros [k v] Hin Hne. unfold at_ij, erow, ecol, evalue. cbn [fst snd].
        destruct (Z.eqb_spec k i) as [-> | Hk]; [| reflexivity].
        elim Hne. f_equal. eapply enum_key_unique; [exact Hin |]. now apply in_enum_nth.
    + apply csum_map_zero. intros [k v] Hin.
      unfold at_ij, erow, ecol, evalue. cbn [fst snd].
      destruct (Z.eqb_spec k i) as [-> | Hk]; [| reflexivity].
      apply in_enum_range in Hin. congruence.
  - apply csum_map_zero. intros [k v] Hin.
    unfold at_ij, erow, ecol, evalue. cbn [fst snd].
    destruct (Z.eqb_spec k i) as [-> | Hk]; [| reflexivity].
    destruct (Z.eqb_spec i j); [contradiction | reflexivity].
Qed.

End DiagonalProducts.

(** ** Finite sparse matrices denote dense matrices *)

Section Denotation.

Local Open Scope c128_scope.

Lemma csum_swap {X Y : Type} (f : X -> Y -> complex128) (xs : list X) (ys : list Y) :
  csum (map (fun x => csum (map (f x) ys)) xs)
  = csum (map (fun y => csum (map (fun x => f x y) xs)) ys).
Proof.
  induction xs as [| x xs IH]; simpl map.
  - change (csum []) with czero. symmetry. now apply csum_map_zero.
  - rewrite csum_cons, IH, <- csum_map_add. reflexivity.
Qed.

Lemma csum_cmul_r_fin (s : complex128) (l : list complex128) :
  is_fin s -> csum l * s = csum (map (fun x => x * s) l).
Proof.
  intros Hs. rewrite cmul_comm, cmul_csum_fin by assumption.
  f_equal. apply map_ext. intros x. apply cmul_comm.
Qed.

Lemma is_fin_ind (c : bool) (v : complex128) : is_fin v -> is_fin (ind c v).
Proof. destruct c; simpl; [tauto | intros _; exact I]. Qed.

Lemma ind_cmul_fin (c c' : bool) (x y : complex128) :
  is_fin x -> is_fin y -> ind c x * ind c' y = ind (c && c') (x * y).
Proof.
  intros Hx Hy. destruct c, c'; unfold ind; simpl andb; cbv iota.
  - reflexivity.
  - now apply cmul_0_r_fin.
  - now apply cmul_0_l_fin.
  - now apply cmul_0_l_fin.
Qed.

Lemma is_fin_entry_sum (i j : Z) (d : list entry) : fin_data d -> is_fin (entry_sum i j d).
Proof.
  intros Hd. unfold entry_sum. apply is_fin_csum.
  apply Forall_forall. intros v Hv. apply in_map_iff in Hv.
  destruct Hv as [e [<- He]]. apply filter_In in He. destruct He as [He _].
  unfold fin_data in Hd. rewrite Forall_forall in Hd. now apply Hd.
Qed.

Lemma entry_sum_ind (i j : Z) (d : list entry) :
  entry_sum i j d = csum (map (fun e => ind (at_ij i j e) (evalue e)) d).
Proof. unfold entry_sum. apply csum_filter. Qed.

Lemma entry_sum_mul (m : nat) (da db : list entry) (i j : Z) :
  fin_data da -> fin_data db -> cols_within m da ->
  entry_sum i j (mul_data da db)
  = Dense.mul m (fun r c => entry_sum r c da) (fun r c => entry_sum r c db) i j.
Proof.
  intros Ha Hb Hc. unfold fin_data, cols_within in *. rewrite Forall_forall in Ha, Hb, Hc.
  unfold Dense.mul.
  (* the dense side, as a triple sum *)
  rewrite (csum_map_ext_in
    (fun k => entry_sum i k da * entry_sum k j db)
    (fun k => csum (map (fun a => csum (map (fun b =>
        ind (at_ij i k a && at_ij k j b) (evalue a * evalue b)) db)) da))).
  2:{ intros k _. rewrite (entry_sum_ind i k da).
      rewrite csum_cmul_r_fin by (apply is_fin_entry_sum; now apply Forall_forall).
      rewrite map_map. apply csum_map_ext_in. intros a Ha'.
      rewrite (entry_sum_ind k j db).
      rewrite cmul_csum_fin by (apply is_fin_ind; now apply Ha).
      rewrite map_map. apply csum_map_ext_in. intros b Hb'.
      apply ind_cmul_fin; [now apply Ha | now apply Hb]. }
  rewrite csum_swap.
  (* the sparse side *)
  unfold mul_data. rewrite entry_sum_flat_map.
  apply csum_map_ext_in. intros a Ha'.
  rewrite entry_sum_map, (csum_filter (fun b : entry => (erow b =? ecol a)%Z)).
  rewrite csum_swap. apply csum_map_ext_in. intros b Hb'.
  rewrite (@csum_map_single _ _ _ (ecol a)).
  - unfold at_ij, erow, ecol, evalue. cbn [fst snd]. rewrite Z.eqb_refl.
    rewrite andb_true_r, (Z.eqb_sym (fst (fst b))).
    now destruct (fst (fst a) =? i)%Z, (snd (fst a) =? fst (fst b))%Z,
      (snd (fst b) =? j)%Z.
  - apply range_NoDup.
  - apply in_range_iff. now apply Hc.
  - intros k _ Hk. unfold at_ij at 1.
    destruct (Z.eqb_spec (ecol a) k) as [Heq | Hne]; [now elim Hk |].
    now rewrite andb_false_r.
Qed.

Lemma entry_sum_conj (d : list entry) (i j : Z) :
  entry_sum i j (conj_data d) = cconj (entry_sum i j d).
Proof.
  unfold conj_data. rewrite entry_sum_map, entry_sum_ind, cconj_csum, map_map.
  apply csum_map_ext_in. intros e _. unfold at_ij, erow, ecol, evalue. cbn [fst snd].
  destruct ((fst (fst e) =? i)%Z && (snd (fst e) =? j)%Z); unfold ind;
    [reflexivity | now rewrite cconj_0].
Qed.

Lemma cneg_csum (l : list complex128) : - csum l = csum (map cneg l).
Proof.
  induction l as [| x l IH]; simpl map; rewrite ?csum_cons.
  - apply neg_czero.
  - rewrite <- IH. destruct x, (csum l); simpl; try reflexivity.
    f_equal. apply C_eq; simpl; ring.
Qed.

Lemma entry_sum_neg (d : list entry) (i j : Z) :
  entry_sum i j (neg_data d) = - entry_sum i j d.
Proof.
  unfold neg_data. rewrite entry_sum_map, entry_sum_ind, cneg_csum, map_map.
  apply csum_map_ext_in. intros e _. unfold at_ij, erow, ecol, evalue. cbn [fst snd].
  destruct ((fst (fst e) =? i)%Z && (snd (fst e) =? j)%Z); unfold ind;
    [reflexivity | now rewrite neg_czero].
Qed.

Lemma entry_sum_scale (s : complex128) (d : list entry) (i j : Z) :
  is_fin s -> entry_sum i j (scale_data s d) = s * entry_sum i j d.
Proof.
  intros Hs. unfold scale_data.
  rewrite entry_sum_map, entry_sum_ind, cmul_csum_fin, map_map by assumption.
  apply csum_map_ext_in. intros e _. unfold at_ij, erow, ecol, evalue. cbn [fst snd].
  destruct ((fst (fst e) =? i)%Z && (snd (fst e) =? j)%Z); unfold ind;
    [reflexivity | now rewrite cmul_0_r_fin].
Qed.

(** Finiteness and column ranges are kept by the operations. *)
Lemma fin_data_diag (x : list complex128) : Forall is_fin x -> fin_data (diag_data x).
Proof.
  intros Hx. unfold fin_data, diag_data. apply Forall_forall. intros e He.
  apply in_map_iff in He. destruct He as [[k v] [<- Hkv]]. unfold evalue. cbn [fst snd].
  rewrite Forall_forall in Hx. apply Hx.
  rewrite <- (map_snd_enum x). apply in_map_iff. now exists (k, v).
Qed.

Lemma cols_within_diag (x : list complex128) : cols_within (length x) (diag_data x).
Proof.
  unfold cols_within, diag_data. apply Forall_forall. intros e He.
  apply in_map_iff in He. destruct He as [[k v] [<- Hkv]]. unfold ecol. cbn [fst snd].
  now apply in_enum_range in Hkv.
Qed.

Lemma fin_data_map (g : entry -> entry) (d : list entry) :
  (forall e, is_fin (evalue e) -> is_fin (evalue (g e))) ->
  fin_data d -> fin_data (map g d).
Proof.
  intros Hg Hd. unfold fin_data in *. rewrite Forall_forall in *. intros e He.
  apply in_map_iff in He. destruct He as [e' [<- He']]. apply Hg. now apply Hd.
Qed.

Lemma fin_data_conj (d : list entry) : fin_data d -> fin_data (conj_data d).
Proof. apply fin_data_map. intros e. apply is_fin_cconj. Qed.

Lemma fin_data_neg (d : list entry) : fin_data d -> fin_data (neg_data d).
Proof. apply fin_data_map. intros e. apply is_fin_cneg. Qed.

Lemma fin_data_scale (s : complex128) (d : list entry) :
  is_fin s -> fin_data d -> fin_data (scale_data s d).
Proof. intros Hs. apply fin_data_map. intros e He. now apply is_fin_cmul. Qed.

Lemma fin_data_app (d1 d2 : list entry) : fin_data d1 -> fin_data d2 -> fin_data (d1 ++ d2).
Proof. intros H1 H2. apply Forall_app. now split. Qed.

Lemma fin_data_mul (da db : list entry) :
  fin_data da -> fin_data db -> fin_data (mul_data da db).
Proof.
  intros Ha Hb. unfold fin_data, mul_data in *. rewrite Forall_forall in *.
  intros e He. apply in_flat_map in He. destruct He as [a [Ha' He]].
  apply in_map_iff in He. destruct He as [b [<- Hb']]. apply filter_In in Hb'.
  unfold evalue at 1. cbn [snd]. apply is_fin_cmul; [now apply Ha | now apply Hb].
Qed.

Lemma cols_within_map (m : nat) (g : entry -> entry) (d : list entry) :
  (forall e, ecol (g e) = ecol e) -> cols_within m d -> cols_within m (map g d).
Proof.
  intros Hg Hd. unfold cols_within in *. rewrite Forall_forall in *. intros e He.
  apply in_map_iff in He. destruct He as [e' [<- He']]. rewrite Hg. now apply Hd.
Qed.

End Denotation.

(** ** The derivative matrices against the dense formulas *)

Section DerivativeFormulas.

Local Open Scope c128_scope.

Lemma nth_is_fin (x : list complex128) (k : nat) : Forall is_fin x -> is_fin (nth k x czero).
Proof.
  intros Hx. destruct (Nat.lt_ge_cases k (length x)) as [Hk | Hk].
  - rewrite Forall_forall in Hx. apply Hx. now apply nth_In.
  - rewrite nth_overflow by assumption. exact I.
Qed.

Lemma mul_ext (n : nat) (A A' B B' : Dense.matrix) (i j : Z) :
  (forall r c, A r c = A' r c) -> (forall r c, B r c = B' r c) ->
  Dense.mul n A B i j = Dense.mul n A' B' i j.
Proof.
  intros HA HB. unfold Dense.mul. apply csum_map_ext_in. intros k _.
  now rewrite HA, HB.
Qed.

Lemma diag_ext (x y : list complex128) (i j : Z) : x = y -> Dense.diag x i j = Dense.diag y i j.
Proof. now intros ->. Qed.


Lemma mul_scale_l (n : nat) (s : complex128) (A B : Dense.matrix) (i j : Z) :
  is_fin s ->
  Dense.mul n (Dense.scale s A) B i j = Dense.scale s (Dense.mul n A B) i j.
Proof.
  intros Hs. unfold Dense.mul, Dense.scale. rewrite cmul_csum_fin by assumption.
  rewrite map_map. apply csum_map_ext_in. intros k _. now rewrite cmul_assoc.
Qed.

Lemma vnorm_eq (V : list complex128) : vdiv V (vabs V) = Dense.normalize V.
Proof.
  unfold vdiv, vabs, Dense.normalize. rewrite <- (map_id V) at 1.
  now rewrite map2_map.
Qed.

Lemma is_fin_normalized (v : complex128) : is_fin v -> cabs v <> czero -> is_fin (v / cabs v).
Proof.
  destruct v as [z |]; [| contradiction]. intros _ Hz. unfold cabs, cdiv.
  destruct (Ceq_dec (RtoC (Cmod z)) C0) as [H0 | H0]; [| exact I].
  elim Hz. unfold cabs, czero. now rewrite H0.
Qed.

Variable Ybus : csr_matrix.
Variable V : list complex128.

Hypothesis Hshape : shape Ybus = (length V, length V).
Hypothesis Hwf : wf_csr Ybus.
Hypothesis HfinY : all_fin Ybus.
Hypothesis HfinV : Forall is_fin V.

Lemma Ybus_cols : cols_within (length V) (data Ybus).
Proof.
  unfold cols_within. unfold wf_csr, ncols in Hwf. rewrite Hshape in Hwf.
  eapply Forall_impl; [| exact Hwf]. intros e [_ H]. exact H.
Qed.

(** [Ybus * V], computed from the stored elements, is the dense product. *)
Lemma injected_current_eq :
  injected_current Ybus V = Dense.mulvec (length V) (getitem Ybus) V.
Proof.
  unfold injected_current, Dense.mulvec, nrows. rewrite Hshape. cbn [fst].
  apply map_ext. intros i. unfold row_dot, getitem.
  rewrite (csum_filter (fun e : entry => (erow e =? i)%Z)).
  rewrite (csum_map_ext_in
    (fun k => entry_sum i k (data Ybus) * nth (Z.to_nat k) V czero)
    (fun k => csum (map (fun e =>
        ind (at_ij i k e) (evalue e * nth (Z.to_nat k) V czero)) (data Ybus)))).
  2:{ intros k _. rewrite entry_sum_ind.
      rewrite csum_cmul_r_fin by now apply nth_is_fin.
      rewrite map_map. apply csum_map_ext_in. intros e He.
      unfold all_fin, fin_data in HfinY. rewrite Forall_forall in HfinY.
      destruct (at_ij i k e); unfold ind; [reflexivity |].
      apply cmul_0_l_fin. now apply nth_is_fin. }
  rewrite csum_swap. apply csum_map_ext_in. intros e He.
  pose proof Ybus_cols as Hc. unfold cols_within in Hc. rewrite Forall_forall in Hc.
  rewrite (@csum_map_single _ _ _ (ecol e)).
  - unfold at_ij. now rewrite Z.eqb_refl, andb_true_r.
  - apply range_NoDup.
  - apply in_range_iff. now apply Hc.
  - intros k _ Hk. unfold at_ij.
    destruct (Z.eqb_spec (ecol e) k) as [Heq | Hne]; [now elim Hk |].
    now rewrite andb_false_r.
Qed.

Lemma injected_current_fin : Forall is_fin (injected_current Ybus V).
Proof.
  unfold injected_current. apply Forall_forall. intros v Hv.
  apply in_map_iff in Hv. destruct Hv as [i [<- _]]. unfold row_dot.
  apply is_fin_csum. apply Forall_forall. intros w Hw.
  apply in_map_iff in Hw. destruct Hw as [e [<- He]]. apply filter_In in He.
  unfold all_fin, fin_data in HfinY. rewrite Forall_forall in HfinY.
  apply is_fin_cmul; [apply HfinY; tauto | now apply nth_is_fin].
Qed.

Lemma injected_current_len : length (injected_current Ybus V) = length V.
Proof.
  unfold injected_current, nrows. now rewrite length_map, range_length, Hshape.
Qed.

(** The product [Ybus * diag(x)] for a finite [x] of the length of [V]. *)
Lemma Ybus_diag_entry (x : list complex128) (i j : Z) :
  Forall is_fin x -> length x = length V ->
  entry_sum i j (mul_data (data Ybus) (diag_data x))
  = Dense.mul (length V) (getitem Ybus) (Dense.diag x) i j.
Proof.
  intros Hx Hlen.
  rewrite (@entry_sum_mul (length V)); [| exact HfinY | now apply fin_data_diag | exact Ybus_cols].
  apply mul_ext; [reflexivity |]. intros r c. apply entry_sum_diag.
Qed.

Lemma dS_dVa_entry (i j : Z) :
  getitem (dS_dVa_matrix Ybus V) i j = Dense.dS_dVa (length V) (getitem Ybus) V i j.
Proof.
  pose proof injected_current_fin as HfinI.
  pose proof injected_current_len as HlenI.
  assert (Hj : is_fin imag_j) by exact I.
  unfold getitem, dS_dVa_matrix, Dense.dS_dVa. cbn [data].
  rewrite (@entry_sum_mul (length V)).
  - rewrite <- mul_scale_l by assumption.
    apply mul_ext; intros r c.
    + rewrite entry_sum_scale by assumption. unfold Dense.scale. f_equal.
      apply entry_sum_diag.
    + rewrite entry_sum_conj, entry_sum_app, entry_sum_neg. unfold Dense.conj, Dense.sub.
      f_equal. unfold csub. f_equal.
      * rewrite entry_sum_diag. apply diag_ext. apply injected_current_eq.
      * f_equal. now apply Ybus_diag_entry.
  - apply fin_data_scale; [assumption | now apply fin_data_diag].
  - apply fin_data_conj, fin_data_app; [now apply fin_data_diag |].
    apply fin_data_neg, fin_data_mul; [exact HfinY | now apply fin_data_diag].
  - unfold scale_data. apply cols_within_map; [reflexivity | apply cols_within_diag].
Qed.

Hypothesis Hnz : Forall (fun v => cabs v <> czero) V.

Lemma normalized_fin : Forall is_fin (Dense.normalize V).
Proof.
  unfold Dense.normalize. apply Forall_forall. intros w Hw.
  apply in_map_iff in Hw. destruct Hw as [v [<- Hv]].
  rewrite Forall_forall in HfinV, Hnz. apply is_fin_normalized; [now apply HfinV | now apply Hnz].
Qed.

Lemma normalized_len : length (Dense.normalize V) = length V.
Proof. unfold Dense.normalize. apply length_map. Qed.

Lemma dS_dVm_entry (i j : Z) :
  getitem (dS_dVm_matrix Ybus V) i j = Dense.dS_dVm (length V) (getitem Ybus) V i j.
Proof.
  pose proof injected_current_fin as HfinI.
  pose proof injected_current_len as HlenI.
  pose proof normalized_fin as HfinN.
  pose proof normalized_len as HlenN.
  unfold getitem, dS_dVm_matrix, Dense.dS_dVm, Dense.add. cbn [data].
  rewrite vnorm_eq, entry_sum_app. f_equal.
  - rewrite (@entry_sum_mul (length V)).
    + apply mul_ext; intros r c; [apply entry_sum_diag |].
      rewrite entry_sum_conj. unfold Dense.conj. f_equal. now apply Ybus_diag_entry.
    + now apply fin_data_diag.
    + apply fin_data_conj, fin_data_mul; [exact HfinY | now apply fin_data_diag].
    + apply cols_within_diag.
  - rewrite (@entry_sum_mul (length V)).
    + apply mul_ext; intros r c; [| apply entry_sum_diag].
      rewrite entry_sum_conj, entry_sum_diag. unfold Dense.conj. f_equal.
      apply diag_ext. apply injected_current_eq.
    + apply fin_data_conj. now apply fin_data_diag.
    + now apply fin_data_diag.
    + unfold conj_data. apply cols_within_map; [reflexivity |].
      rewrite <- HlenI. apply cols_within_diag.
Qed.

End DerivativeFormulas.

(** ** Row sums *)

Section RowSums.

Local Open Scope c128_scope.

Local Abbreviation item x i := (nth (Z.to_nat i) x czero).

(** The sum of the stored elements of row [i]. *)
Lemma row_sum_entries (n : nat) (d : list entry) (i : Z) :
  cols_within n d ->
  csum (map (fun j => entry_sum i j d) (range n))
  = csum (map (fun e => ind (erow e =? i)%Z (evalue e)) d).
Proof.
  intros Hc. unfold cols_within in Hc. rewrite Forall_forall in Hc.
  rewrite (csum_map_ext_in _
    (fun j => csum (map (fun e => ind (at_ij i j e) (evalue e)) d)))
    by (intros j _; apply entry_sum_ind).
  rewrite csum_swap. apply csum_map_ext_in. intros e He.
  rewrite (@csum_map_single _ _ _ (ecol e)).
  - unfold at_ij. now rewrite Z.eqb_refl, andb_true_r.
  - apply range_NoDup.
  - apply in_range_iff. now apply Hc.
  - intros k _ Hk. unfold at_ij.
    destruct (Z.eqb_spec (ecol e) k) as [Heq | Hne]; [now elim Hk |].
    now rewrite andb_false_r.
Qed.

Lemma cmul_1_r (x : complex128) : x * cone = x.
Proof. rewrite cmul_comm. apply cmul_1_l. Qed.

Lemma nth_ones (n : nat) (k : Z) :
  in_range n k = true -> item (astype_complex (ones n)) k = cone.
Proof.
  intros Hk. unfold in_range in Hk. rewrite andb_true_iff, Z.leb_le, Z.ltb_lt in Hk.
  unfold astype_complex, ones.
  rewrite (nth_indep _ czero (of_float 1)) by (rewrite length_map, repeat_length; lia).
  rewrite map_nth. rewrite nth_repeat_lt by lia. reflexivity.
Qed.

(** A row of [A * ones(n)]. *)
Lemma row_dot_ones (n : nat) (d : list entry) (i : Z) :
  cols_within n d ->
  row_dot d (astype_complex (ones n)) i
  = csum (map (fun e => ind (erow e =? i)%Z (evalue e)) d).
Proof.
  intros Hc. unfold cols_within in Hc. rewrite Forall_forall in Hc.
  unfold row_dot. rewrite (csum_filter (fun e : entry => (erow e =? i)%Z)).
  apply csum_map_ext_in. intros e He. now rewrite nth_ones, cmul_1_r by now apply Hc.
Qed.




Variable Ybus : csr_matrix.
Variable V : list complex128.

Hypothesis Hshape : shape Ybus = (length V, length V).
Hypothesis Hwf : wf_csr Ybus.
Hypothesis HfinY : all_fin Ybus.
Hypothesis HfinV : Forall is_fin V.






End RowSums.

(** ** A voltage of magnitude zero *)

Section ZeroVoltage.

Local Open Scope c128_scope.

Local Abbreviation item x i := (nth (Z.to_nat i) x czero).

Lemma normalize_zero (v : complex128) : cabs v = czero -> v / cabs v = NonFin.
Proof. intros H. rewrite H. apply cdiv_0_r. Qed.

Variable Ybus : csr_matrix.
Variable V : list complex128.
Hypothesis Hshape : shape Ybus = (length V, length V).

(** An entry of [V] of magnitude zero makes the diagonal entry of [dS_dVm]
    in its row non-finite. *)
Lemma dS_dVm_zero_voltage (i : Z) :
  in_range (length V) i = true -> cabs (item V i) = czero ->
  getitem (dS_dVm_matrix Ybus V) i i = NonFin.
Proof.
  intros Hi Hz.
  pose proof (@injected_current_len Ybus V Hshape) as HlenI.
  unfold getitem, dS_dVm_matrix. cbn [data]. rewrite entry_sum_app.
  rewrite vnorm_eq.
  assert (Hlen : length (Dense.normalize V) = length V) by apply normalized_len.
  rewrite (@mul_data_diag_r (conj_data (diag_data (injected_current Ybus V)))).
  2:{ unfold conj_data. apply cols_within_map; [reflexivity |].
      rewrite Hlen, <- HlenI. apply cols_within_diag. }
  assert (Hn : item (Dense.normalize V) i = NonFin).
  { unfold Dense.normalize.
    rewrite (nth_indep _ czero (czero / cabs czero)).
    - rewrite (map_nth (fun v => v / cabs v)). now apply normalize_zero.
    - rewrite length_map. unfold in_range in Hi.
      rewrite andb_true_iff, Z.leb_le, Z.ltb_lt in Hi. lia. }
  rewrite (entry_sum_ind i i (map _ _)), map_map.
  rewrite (@csum_NonFin (map _ (conj_data _))); [apply cadd_NonFin_r |].
  apply in_map_iff.
  exists (i, i, cconj (item (injected_current Ybus V) i)). split.
  - unfold at_ij, erow, ecol, evalue. cbn [fst snd]. rewrite Z.eqb_refl, Hn.
    simpl andb. unfold ind. apply cmul_NonFin_r.
  - unfold conj_data, diag_data. rewrite map_map. apply in_map_iff.
    exists (i, item (injected_current Ybus V) i). split; [reflexivity |].
    apply in_enum_nth. now rewrite HlenI.
Qed.

End ZeroVoltage.

(** ** Small facts used by the claims *)

Section ClaimHelpers.

Local Open Scope c128_scope.

Lemma cabs_czero : cabs czero = czero.
Proof.
  unfold cabs, czero, Cmod, Cnorm2, C0, RtoC. simpl.
  replace (0 * 0 + 0 * 0)%R with 0%R by ring. now rewrite sqrt_0.
Qed.


End ClaimHelpers.

(** ** Inputs of moderate size *)

Section RangeFacts.

Lemma range_bound_ge : (1000 <= range_bound)%R.
Proof. unfold range_bound. simpl. lra. Qed.

Lemma inv_range_bound_pos : (0 < / range_bound)%R.
Proof. apply Rinv_0_lt_compat. pose proof range_bound_ge. lra. Qed.

Lemma inv_range_bound_le : (/ range_bound <= / 1000)%R.
Proof. apply Rinv_le_contravar; [lra | apply range_bound_ge]. Qed.

Lemma bounded_small (x : R) : (Rabs x <= 1000)%R -> bounded x.
Proof. unfold bounded. pose proof range_bound_ge. lra. Qed.

Lemma moderate_small (x : R) : (/ 1000 <= Rabs x <= 1000)%R -> moderate x.
Proof.
  unfold moderate. pose proof range_bound_ge. pose proof inv_range_bound_le. lra.
Qed.

Lemma moderate_neq0 (x : R) : moderate x -> x <> 0%R.
Proof.
  unfold moderate. intros [Hlo _] ->. rewrite Rabs_R0 in Hlo.
  pose proof inv_range_bound_pos. lra.
Qed.

Lemma impedance_moderate_small (b : branch_row) :
  (/ 1000 <= Rmax (Rabs (BR_R b)) (Rabs (BR_X b)) <= 1000)%R -> impedance_moderate b.
Proof.
  unfold impedance_moderate. pose proof range_bound_ge. pose proof inv_range_bound_le.
  lra.
Qed.

Lemma impedance_moderate_neq0 (b : branch_row) :
  impedance_moderate b -> BR_R b <> 0%R \/ BR_X b <> 0%R.
Proof.
  unfold impedance_moderate. intros [Hlo _].
  destruct (Req_dec_T (BR_R b) 0) as [HR | HR]; [| now left].
  destruct (Req_dec_T (BR_X b) 0) as [HX | HX]; [| now right].
  rewrite HR, HX, Rabs_R0 in Hlo. unfold Rmax in Hlo.
  destruct (Rle_dec 0 0); pose proof inv_range_bound_pos; lra.
Qed.

Lemma voltage_moderate_fin (v : complex128) : voltage_moderate v -> is_fin v.
Proof. now destruct v. Qed.

Lemma voltage_moderate_neq0 (v : complex128) : voltage_moderate v -> cabs v <> czero.
Proof.
  destruct v as [z |]; [| contradiction]. intros [Hlo _] H.
  unfold cabs, czero, C0, RtoC in H.
  assert (Hm : Cmod z = 0%R) by congruence.
  pose proof inv_range_bound_pos. lra.
Qed.

Lemma voltage_moderate_one : voltage_moderate (Fin (1%R, 0%R)).
Proof.
  unfold voltage_moderate, Cmod, Cnorm2. cbn [Cre Cim fst snd].
  replace (1 * 1 + 0 * 0)%R with 1%R by lra. rewrite sqrt_1.
  pose proof range_bound_ge. pose proof inv_range_bound_le. lra.
Qed.

End RangeFacts.

(** * The claims *)

Local Open Scope c128_scope.

(** C1. For every branch, [makeYbus] computes the four terms of the pi model
    as [Ytt = Ys + j*Bc/2], [Yff = Ytt / (tap * conj(tap))],
    [Yft = -Ys / conj(tap)] and [Ytf = -Ys / tap], where
    [Ys = status / (R + jX)], [Bc = status * B] and [tap] is the branch's tap
    field, with 1.0 in place of a stored zero, times the phasor
    [exp(j * shift * pi / 180)], whose modulus is one. *)
Theorem makeYbus_branch_terms (branch : list branch_row) :
  Ys branch = map (fun b => of_float (BR_STATUS b) / Fin (BR_R b, BR_X b)) branch
  /\ Bc branch = map (fun b => (BR_STATUS b * BR_B b)%R) branch
  /\ Ytt branch = map (fun b => series_admittance b
                             + imag_j * of_float (line_charging b) / of_float 2) branch
  /\ Yff branch = map (fun b => ytt b / (effective_tap b * cconj (effective_tap b))) branch
  /\ Yft branch = map (fun b => - series_admittance b / cconj (effective_tap b)) branch
  /\ Ytf branch = map (fun b => - series_admittance b / effective_tap b) branch
  /\ tap branch
     = map (fun b => of_float (if Req_dec_T (TAP b) 0 then 1%R else TAP b)
                     * cexp (imag_j * of_float (SHIFT b) * pi / of_float 180)) branch
  /\ forall b, cabs (cexp (imag_j * of_float (SHIFT b) * pi / of_float 180)) = cone.
Proof.
  repeat split.
  - apply Ys_map.
  - apply Bc_map.
  - apply Ytt_map.
  - apply Yff_map.
  - apply Yft_map.
  - apply Ytf_map.
  - apply tap_map.
  - intros b. apply unit_phasor_abs.
Qed.




(** C3. For every input, the [Ybus] that [makeYbus] returns through the
    incidence-matrix product [Cf.T * Yf + Ct.T * Yt + diag(Ysh)] has at
    every coordinate the entry obtained by adding the four terms of every
    branch at (from, from), (from, to), (to, from), (to, to) and then the
    shunt admittances on the diagonal: contributions to one coordinate
    accumulate.  The only inputs for which no [Ybus] is returned are those
    with a branch whose bus numbers are not indices into the bus table, for
    which the sparse constructor raises [ValueError]. *)
Theorem makeYbus_is_scatter_add (baseMVA : R) (bus : list bus_row)
    (branch : list branch_row) :
  match snd (makeYbus baseMVA bus branch) with
  | Return (Ybus, _, _) =>
      shape Ybus = (length bus, length bus)
      /\ forall i j, getitem Ybus i j = Dense.scatter_add baseMVA bus branch i j
  | Raise _ => forallb (branch_ok (length bus)) branch = false
  end.
Proof.
  destruct (forallb (branch_ok (length bus)) branch) eqn:Hok.
  - rewrite makeYbus_run by assumption. simpl snd. split; [reflexivity |].
    intros i j. now rewrite getitem_Ybus, scatter_add_entry.
  - now rewrite makeYbus_raises.
Qed.

(** C4 (as stated, refuted).  With the bus numbers [0, 2, 1] and no branch,
    [makeYbus] writes its message to [stderr] and returns the three
    matrices: nothing is raised. *)
Lemma makeYbus_unordered_buses_returns :
  exists Ybus Yf Yt,
    makeYbus 100 [mk_bus 0 0 0; mk_bus 2 0 0; mk_bus 1 0 0] []
    = ([bus_order_message], Return (Ybus, Yf, Yt)).
Proof.
  rewrite makeYbus_run by reflexivity. do 3 eexists. reflexivity.
Qed.

(** C4 (amended).  For every bus table in which some record's bus number
    differs from its position, and whose branches name valid buses,
    [makeYbus] writes the line "buses must appear in order by bus number" to
    [stderr] and then returns [Ybus], [Yf], [Yt], the same matrices it builds
    from the positions alone. *)
Theorem makeYbus_unordered_buses_warns (baseMVA : R) (bus : list bus_row)
    (branch : list branch_row) (k : nat) (r : bus_row) :
  nth_error bus k = Some r -> BUS_I r <> Z.of_nat k ->
  forallb (branch_ok (length bus)) branch = true ->
  makeYbus baseMVA bus branch
  = ([bus_order_message],
     Return (Ybus_matrix baseMVA bus branch,
             Yf_matrix (length bus) branch, Yt_matrix (length bus) branch)).
Proof.
  intros Hk Hne Hok. rewrite makeYbus_run by assumption.
  unfold bus_order_warning. now rewrite (any_ne_bus bus k Hk Hne).
Qed.

Lemma makeYbus_unordered_buses_warns_witness :
  nth_error [mk_bus 0 0 0; mk_bus 2 0 0; mk_bus 1 0 0] 1 = Some (mk_bus 2 0 0)
  /\ BUS_I (mk_bus 2 0 0) <> Z.of_nat 1
  /\ forallb (branch_ok 3) [] = true
  /\ makeYbus 100 [mk_bus 0 0 0; mk_bus 2 0 0; mk_bus 1 0 0] []
     = ([bus_order_message],
        Return (Ybus_matrix 100 [mk_bus 0 0 0; mk_bus 2 0 0; mk_bus 1 0 0] [],
                Yf_matrix 3 [], Yt_matrix 3 [])).
Proof.
  assert (H1 : nth_error [mk_bus 0 0 0; mk_bus 2 0 0; mk_bus 1 0 0] 1 = Some (mk_bus 2 0 0))
    by reflexivity.
  assert (H2 : BUS_I (mk_bus 2 0 0) <> Z.of_nat 1) by discriminate.
  assert (H3 : forallb (branch_ok 3) [] = true) by reflexivity.
  repeat split; try assumption.
  exact (@makeYbus_unordered_buses_warns 100 _ [] 1 _ H1 H2 H3).
Defined.

(** C5 (as stated, refuted).  Two buses and one in-service branch with
    [R = X = 0]: [makeYbus] writes nothing, raises nothing and returns
    matrices in which the entries fed by the branch are non-finite. *)
Lemma makeYbus_zero_impedance_returns :
  exists Ybus Yf Yt,
    makeYbus 100 [mk_bus 0 0 0; mk_bus 1 0 0] [mk_branch 0 1 0 0 0 1 0 0]
    = ([], Return (Ybus, Yf, Yt))
    /\ getitem Yf 0 0 = NonFin
    /\ getitem Ybus 0 0 = NonFin.
Proof.
  rewrite makeYbus_run by reflexivity. do 3 eexists.
  split; [reflexivity |]. split.
  - unfold Yf_matrix. rewrite getitem_rows.
    rewrite (@rows_entry_row _ _ _ 0 (mk_branch 0 1 0 0 0 1 0 0)) by reflexivity.
    unfold row_terms. now rewrite yff_short.
  - rewrite getitem_Ybus.
    apply (@Ybus_entry_short 100 _ _ (mk_branch 0 1 0 0 0 1 0 0)); [now left | | ];
      reflexivity.
Qed.

(** C5 (amended).  For every table whose branches name valid buses and that
    contains an in-service branch with [R = 0] and [X = 0], [makeYbus]
    reports no error: it returns normally, and the entries fed by that
    branch, in its row of [Yf] and [Yt] and on the diagonal of [Ybus], are
    non-finite. *)
Theorem makeYbus_zero_impedance_nonfinite (baseMVA : R) (bus : list bus_row)
    (branch : list branch_row) (k : nat) (b : branch_row) :
  forallb (branch_ok (length bus)) branch = true ->
  nth_error branch k = Some b ->
  BR_STATUS b <> 0%R -> BR_R b = 0%R -> BR_X b = 0%R ->
  exists Ybus Yf Yt,
    makeYbus baseMVA bus branch = (bus_order_warning bus, Return (Ybus, Yf, Yt))
    /\ getitem Yf (Z.of_nat k) (F_BUS b) = NonFin
    /\ getitem Yt (Z.of_nat k) (F_BUS b) = NonFin
    /\ getitem Ybus (F_BUS b) (F_BUS b) = NonFin.
Proof.
  intros Hok Hk _ HR HX. rewrite makeYbus_run by assumption. do 3 eexists.
  split; [reflexivity |]. repeat split.
  - unfold Yf_matrix. rewrite getitem_rows, (@rows_entry_row _ _ branch k b _ Hk).
    unfold row_terms. now rewrite Z.eqb_refl, yff_short.
  - unfold Yt_matrix. rewrite getitem_rows, (@rows_entry_row _ _ branch k b _ Hk).
    unfold row_terms. now rewrite Z.eqb_refl, ytf_short.
  - rewrite getitem_Ybus. apply Ybus_entry_short; try assumption.
    eapply nth_error_In; eassumption.
Qed.

Lemma makeYbus_zero_impedance_nonfinite_witness :
  forallb (branch_ok 2) [mk_branch 0 1 0 0 0 1 0 0] = true
  /\ nth_error [mk_branch 0 1 0 0 0 1 0 0] 0 = Some (mk_branch 0 1 0 0 0 1 0 0)
  /\ BR_STATUS (mk_branch 0 1 0 0 0 1 0 0) <> 0%R
  /\ BR_R (mk_branch 0 1 0 0 0 1 0 0) = 0%R
  /\ BR_X (mk_branch 0 1 0 0 0 1 0 0) = 0%R
  /\ exists Ybus Yf Yt,
       makeYbus 100 [mk_bus 0 0 0; mk_bus 1 0 0] [mk_branch 0 1 0 0 0 1 0 0]
       = (bus_order_warning [mk_bus 0 0 0; mk_bus 1 0 0], Return (Ybus, Yf, Yt))
       /\ getitem Yf (Z.of_nat 0) (F_BUS (mk_branch 0 1 0 0 0 1 0 0)) = NonFin
       /\ getitem Yt (Z.of_nat 0) (F_BUS (mk_branch 0 1 0 0 0 1 0 0)) = NonFin
       /\ getitem Ybus (F_BUS (mk_branch 0 1 0 0 0 1 0 0))
                  (F_BUS (mk_branch 0 1 0 0 0 1 0 0)) = NonFin.
Proof.
  assert (H1 : forallb (branch_ok 2) [mk_branch 0 1 0 0 0 1 0 0] = true) by reflexivity.
  assert (H2 : nth_error [mk_branch 0 1 0 0 0 1 0 0] 0 = Some (mk_branch 0 1 0 0 0 1 0 0))
    by reflexivity.
  assert (H3 : BR_STATUS (mk_branch 0 1 0 0 0 1 0 0) <> 0%R) by (simpl; lra).
  assert (H4 : BR_R (mk_branch 0 1 0 0 0 1 0 0) = 0%R) by reflexivity.
  assert (H5 : BR_X (mk_branch 0 1 0 0 0 1 0 0) = 0%R) by reflexivity.
  repeat (split; [assumption |]).
  exact (@makeYbus_zero_impedance_nonfinite 100 [mk_bus 0 0 0; mk_bus 1 0 0]
           _ 0 _ H1 H2 H3 H4 H5).
Defined.

(** C6 (as stated, refuted).  A one-bus network with [V = [0]]: [dSbus_dV]
    raises nothing and returns matrices, and the entry of [dS_dVm] is
    non-finite. *)
Lemma dSbus_dV_zero_voltage_returns :
  exists dS_dVm dS_dVa,
    dSbus_dV (mk_csr (1%nat, 1%nat) [(0%Z, 0%Z, cone)]) [czero]
    = ([], Return (dS_dVm, dS_dVa))
    /\ cabs czero = czero
    /\ getitem dS_dVm 0 0 = NonFin.
Proof.
  exists (dS_dVm_matrix (mk_csr (1%nat, 1%nat) [(0%Z, 0%Z, cone)]) [czero]),
         (dS_dVa_matrix (mk_csr (1%nat, 1%nat) [(0%Z, 0%Z, cone)]) [czero]).
  split; [apply dSbus_dV_run; [simpl; lia | reflexivity] |].
  split; [apply cabs_czero |].
  apply dS_dVm_zero_voltage; [reflexivity | reflexivity | apply cabs_czero].
Qed.

(** C6 (amended).  For every voltage vector [V] with an entry of magnitude
    zero, at index [i], and every [Ybus] of matching square shape,
    [dSbus_dV] raises no error: it returns the two matrices, and the
    diagonal entry of [dS_dVm] in row [i] is non-finite. *)
Theorem dSbus_dV_zero_voltage_nonfinite (Ybus : csr_matrix) (V : list complex128)
    (i : Z) :
  shape Ybus = (length V, length V) ->
  in_range (length V) i = true -> cabs (nth (Z.to_nat i) V czero) = czero ->
  exists dS_dVm dS_dVa,
    dSbus_dV Ybus V = ([], Return (dS_dVm, dS_dVa))
    /\ getitem dS_dVm i i = NonFin.
Proof.
  intros Hshape Hi Hz.
  exists (dS_dVm_matrix Ybus V), (dS_dVa_matrix Ybus V). split.
  - apply dSbus_dV_run; [| assumption].
    unfold in_range in Hi. rewrite andb_true_iff, Z.leb_le, Z.ltb_lt in Hi. lia.
  - now apply dS_dVm_zero_voltage.
Qed.

Lemma dSbus_dV_zero_voltage_nonfinite_witness :
  let Ybus := mk_csr (2%nat, 2%nat)
                [(0%Z, 0%Z, Fin (1%R, 0%R)); (0%Z, 1%Z, Fin (0%R, 1%R));
                 (1%Z, 1%Z, Fin (2%R, 0%R))] in
  let V := [Fin (1%R, 0%R); czero] in
  shape Ybus = (length V, length V)
  /\ in_range (length V) 1 = true
  /\ cabs (nth (Z.to_nat 1) V czero) = czero
  /\ exists dS_dVm dS_dVa,
       dSbus_dV Ybus V = ([], Return (dS_dVm, dS_dVa))
       /\ getitem dS_dVm 1 1 = NonFin.
Proof.
  intros Ybus V.
  assert (H1 : shape Ybus = (length V, length V)) by reflexivity.
  assert (H2 : in_range (length V) 1 = true) by reflexivity.
  assert (H3 : cabs (nth (Z.to_nat 1) V czero) = czero) by apply cabs_czero.
  repeat (split; [assumption |]).
  exact (@dSbus_dV_zero_voltage_nonfinite Ybus V 1%Z H1 H2 H3).
Defined.

(** C7 (as stated, refuted).  An out-of-service branch with [R = X = 0]:
    its series admittance is [0 / 0], so [Yf] is not zero and [Ybus] is not
    the shunt diagonal. *)
Lemma makeYbus_out_of_service_short :
  exists Ybus Yf Yt,
    makeYbus 100 [mk_bus 0 0 0; mk_bus 1 0 0] [mk_branch 0 1 0 0 0 0 0 0]
    = ([], Return (Ybus, Yf, Yt))
    /\ BR_STATUS (mk_branch 0 1 0 0 0 0 0 0) = 0%R
    /\ getitem Yf 0 0 <> czero
    /\ getitem Ybus 0 0
       <> Dense.diag (map (shunt 100) [mk_bus 0 0 0; mk_bus 1 0 0]) 0%Z 0%Z.
Proof.
  rewrite makeYbus_run by reflexivity. do 3 eexists.
  split; [reflexivity |]. split; [reflexivity |]. split.
  - unfold Yf_matrix. rewrite getitem_rows.
    rewrite (@rows_entry_row _ _ _ 0 (mk_branch 0 1 0 0 0 0 0 0)) by reflexivity.
    unfold row_terms. rewrite yff_short by reflexivity. discriminate.
  - rewrite getitem_Ybus.
    rewrite (@Ybus_entry_short 100 _ _ (mk_branch 0 1 0 0 0 0 0 0));
      [| now left | reflexivity | reflexivity].
    assert (E : Dense.diag (map (shunt 100) [mk_bus 0 0 0; mk_bus 1 0 0]) 0%Z 0%Z
                = shunt 100 (mk_bus 0 0 0)) by reflexivity.
    rewrite E. unfold shunt, of_float. cbn [GS BS].
    rewrite cdiv_fin by (apply RtoC_neq0; lra). discriminate.
Qed.

(** C7 (amended).  A branch whose status flag is zero contributes zero
    admittance, its four terms being zero, when its two divisors are of
    moderate size: the larger of [|R|] and [|X|], and the tap magnitude (the
    [TAP] field, or 1 where that is zero), lie between [10^-30] and [10^30].
    This keeps [R + jX] (line 55) and [tap * conj(tap)] (line 63) away from
    zero, also in double precision, where a tap of [1e-200] has a square of
    zero.  Consequently, for every table whose branches name valid buses, all
    have status zero and all have such divisors, [makeYbus] returns [Ybus]
    equal to exactly the shunt diagonal [diag((Gs + jBs) / baseMVA)] and
    [Yf], [Yt] with every entry zero. *)
Theorem makeYbus_all_out_of_service (baseMVA : R) (bus : list bus_row)
    (branch : list branch_row) :
  forallb (branch_ok (length bus)) branch = true ->
  (forall b, In b branch ->
     BR_STATUS b = 0%R /\ impedance_moderate b /\ tap_moderate b) ->
  (forall b, In b branch ->
     ytt b = czero /\ yff b = czero /\ yft b = czero /\ ytf b = czero)
  /\ exists Ybus Yf Yt,
       makeYbus baseMVA bus branch = (bus_order_warning bus, Return (Ybus, Yf, Yt))
       /\ (forall i j, getitem Ybus i j = Dense.diag (map (shunt baseMVA) bus) i j)
       /\ (forall i j, getitem Yf i j = czero)
       /\ (forall i j, getitem Yt i j = czero).
Proof.
  intros Hok Hout.
  assert (Hz : forall b, In b branch ->
            ytt b = czero /\ yff b = czero /\ yft b = czero /\ ytf b = czero).
  { intros b Hb. destruct (Hout b Hb) as (Hs & Himp & _).
    pose proof (impedance_moderate_neq0 Himp) as Hrx.
    assert (Hne : (BR_R b, BR_X b) <> C0).
    { intros H. pose proof (f_equal Cre H) as Hre. pose proof (f_equal Cim H) as Him.
      simpl in Hre, Him. destruct Hrx; contradiction. }
    repeat split.
    - now apply ytt_out.
    - now apply yff_out.
    - now apply yft_out.
    - now apply ytf_out. }
  split; [exact Hz |].
  rewrite makeYbus_run by assumption. do 3 eexists. split; [reflexivity |].
  repeat split.
  - intros i j. rewrite getitem_Ybus. unfold Ybus_entry.
    rewrite csum_map_zero, cadd_0_l; [apply shunt_terms_diag |].
    intros b Hb. destruct (Hz b Hb) as (Htt & Hff & Hft & Htf).
    unfold branch_terms, row_terms. rewrite Htt, Hff, Hft, Htf.
    now destruct (F_BUS b =? i)%Z, (T_BUS b =? i)%Z, (F_BUS b =? j)%Z, (T_BUS b =? j)%Z;
      unfold ind; rewrite ?cadd_0_l.
  - intros i j. unfold Yf_matrix. rewrite getitem_rows. unfold rows_entry.
    apply csum_map_zero. intros [k b] Hin. cbn [fst snd].
    assert (Hb : In b branch).
    { rewrite <- (map_snd_enum branch). apply in_map_iff. now exists (k, b). }
    destruct (Hz b Hb) as (Htt & Hff & Hft & Htf).
    unfold row_terms. rewrite Hff, Hft.
    now destruct (k =? i)%Z, (F_BUS b =? j)%Z, (T_BUS b =? j)%Z;
      unfold ind; rewrite ?cadd_0_l.
  - intros i j. unfold Yt_matrix. rewrite getitem_rows. unfold rows_entry.
    apply csum_map_zero. intros [k b] Hin. cbn [fst snd].
    assert (Hb : In b branch).
    { rewrite <- (map_snd_enum branch). apply in_map_iff. now exists (k, b). }
    destruct (Hz b Hb) as (Htt & Hff & Hft & Htf).
    unfold row_terms. rewrite Htf, Htt.
    now destruct (k =? i)%Z, (F_BUS b =? j)%Z, (T_BUS b =? j)%Z;
      unfold ind; rewrite ?cadd_0_l.
Qed.

Lemma makeYbus_all_out_of_service_witness :
  forallb (branch_ok 2) [mk_branch 0 1 0 1 0 0 0 0] = true
  /\ (forall b, In b [mk_branch 0 1 0 1 0 0 0 0] ->
        BR_STATUS b = 0%R /\ impedance_moderate b /\ tap_moderate b)
  /\ ((forall b, In b [mk_branch 0 1 0 1 0 0 0 0] ->
         ytt b = czero /\ yff b = czero /\ yft b = czero /\ ytf b = czero)
      /\ exists Ybus Yf Yt,
           makeYbus 100 [mk_bus 0 3 4; mk_bus 1 0 0] [mk_branch 0 1 0 1 0 0 0 0]
           = (bus_order_warning [mk_bus 0 3 4; mk_bus 1 0 0], Return (Ybus, Yf, Yt))
           /\ (forall i j, getitem Ybus i j
                 = Dense.diag (map (shunt 100) [mk_bus 0 3 4; mk_bus 1 0 0]) i j)
           /\ (forall i j, getitem Yf i j = czero)
           /\ (forall i j, getitem Yt i j = czero)).
Proof.
  assert (H1 : forallb (branch_ok 2) [mk_branch 0 1 0 1 0 0 0 0] = true) by reflexivity.
  assert (H2 : forall b, In b [mk_branch 0 1 0 1 0 0 0 0] ->
             BR_STATUS b = 0%R /\ impedance_moderate b /\ tap_moderate b).
  { intros b [<- | []]. split; [reflexivity |]. split.
    - apply impedance_moderate_small. cbn [BR_R BR_X].
      rewrite Rabs_R0, Rabs_R1, Rmax_right by lra. lra.
    - apply moderate_small. unfold tap_magnitude. cbn [TAP].
      destruct (Req_dec_T 0 0) as [_ | Hne]; [| now elim Hne].
      rewrite Rabs_R1. lra. }
  split; [exact H1 |]. split; [exact H2 |].
  exact (@makeYbus_all_out_of_service 100 [mk_bus 0 3 4; mk_bus 1 0 0] _ H1 H2).
Defined.

(** C8.  With valid bus numbers and no in-service branch with a non-zero
    phase shift (in particular when no branch at all has one), the [Ybus]
    that [makeYbus] returns is symmetric; and for every branch of such a
    table with shift 0 whose tap field is 1, or 0 (for which 1 is
    substituted), [Yff = Ytt = Ys + j*Bc/2] and [Yft = Ytf = -Ys], which are
    the elements stored in its row of [Yf] and of [Yt]. *)
Theorem makeYbus_symmetric (baseMVA : R) (bus : list bus_row)
    (branch : list branch_row) :
  forallb (branch_ok (length bus)) branch = true ->
  (forall b, In b branch -> BR_STATUS b = 0%R \/ SHIFT b = 0%R) ->
  exists Ybus Yf Yt,
    makeYbus baseMVA bus branch = (bus_order_warning bus, Return (Ybus, Yf, Yt))
    /\ (forall i j, getitem Ybus i j = getitem Ybus j i)
    /\ (forall k b, nth_error branch k = Some b ->
          SHIFT b = 0%R -> TAP b = 1%R \/ TAP b = 0%R ->
          yff b = ytt b
          /\ ytt b = series_admittance b
                     + imag_j * of_float (line_charging b) / of_float 2
          /\ yft b = - series_admittance b
          /\ ytf b = - series_admittance b
          /\ (forall j, getitem Yf (Z.of_nat k) j
                        = ind (F_BUS b =? j)%Z (ytt b)
                          + ind (T_BUS b =? j)%Z (- series_admittance b))
          /\ (forall j, getitem Yt (Z.of_nat k) j
                        = ind (F_BUS b =? j)%Z (- series_admittance b)
                          + ind (T_BUS b =? j)%Z (ytt b))).
Proof.
  intros Hok Hshift. rewrite makeYbus_run by assumption. do 3 eexists.
  split; [reflexivity |]. split.
  - intros i j. rewrite !getitem_Ybus. now apply Ybus_entry_sym.
  - intros k b Hk Hs Htap.
    pose proof (yff_nominal b Hs Htap) as Hff.
    pose proof (yft_nominal b Hs Htap) as Hft.
    pose proof (ytf_nominal b Hs Htap) as Htf.
    repeat split; try assumption.
    + intros j. unfold Yf_matrix.
      rewrite getitem_rows, (@rows_entry_row _ _ branch k b _ Hk).
      unfold row_terms. now rewrite Hff, Hft.
    + intros j. unfold Yt_matrix.
      rewrite getitem_rows, (@rows_entry_row _ _ branch k b _ Hk).
      unfold row_terms. now rewrite Htf.
Qed.

Lemma makeYbus_symmetric_witness :
  let bus := [mk_bus 0 0 0; mk_bus 1 0 0] in
  let branch := [mk_branch 0 1 0 1 0 1 1 0; mk_branch 0 1 1 1 0 0 1 30] in
  forallb (branch_ok (length bus)) branch = true
  /\ (forall b, In b branch -> BR_STATUS b = 0%R \/ SHIFT b = 0%R)
  /\ exists Ybus Yf Yt,
       makeYbus 100 bus branch = (bus_order_warning bus, Return (Ybus, Yf, Yt))
       /\ (forall i j, getitem Ybus i j = getitem Ybus j i)
       /\ (forall k b, nth_error branch k = Some b ->
             SHIFT b = 0%R -> TAP b = 1%R \/ TAP b = 0%R ->
             yff b = ytt b
             /\ ytt b = series_admittance b
                        + imag_j * of_float (line_charging b) / of_float 2
             /\ yft b = - series_admittance b
             /\ ytf b = - series_admittance b
             /\ (forall j, getitem Yf (Z.of_nat k) j
                           = ind (F_BUS b =? j)%Z (ytt b)
                             + ind (T_BUS b =? j)%Z (- series_admittance b))
             /\ (forall j, getitem Yt (Z.of_nat k) j
                           = ind (F_BUS b =? j)%Z (- series_admittance b)
                             + ind (T_BUS b =? j)%Z (ytt b))).
Proof.
  intros bus branch.
  assert (H1 : forallb (branch_ok (length bus)) branch = true) by reflexivity.
  assert (H2 : forall b, In b branch -> BR_STATUS b = 0%R \/ SHIFT b = 0%R).
  { intros b [<- | [<- | []]]; [right | left]; reflexivity. }
  split; [exact H1 |]. split; [exact H2 |].
  exact (@makeYbus_symmetric 100 bus branch H1 H2).
Defined.

(** C9 (as stated, refuted).  One branch between buses 0 and 1 with
    [X = 1], and the same table with that branch entered twice.  [Yf] has one
    row for each branch: where the second table's [Yf] is affected, in rows 0
    and 1 of column 0, it holds the single-branch term [Yff], not twice that
    term. *)
Lemma makeYbus_parallel_Yf_not_doubled :
  exists Ybus1 Yf1 Yt1 Ybus2 Yf2 Yt2,
    makeYbus 100 [mk_bus 0 0 0; mk_bus 1 0 0] [mk_branch 0 1 0 1 0 1 1 0]
    = ([], Return (Ybus1, Yf1, Yt1))
    /\ makeYbus 100 [mk_bus 0 0 0; mk_bus 1 0 0]
         [mk_branch 0 1 0 1 0 1 1 0; mk_branch 0 1 0 1 0 1 1 0]
       = ([], Return (Ybus2, Yf2, Yt2))
    /\ getitem Yf2 0 0 <> getitem Yf1 0 0 + getitem Yf1 0 0
    /\ getitem Yf2 1 0 <> getitem Yf1 0 0 + getitem Yf1 0 0.
Proof.
  rewrite !makeYbus_run by reflexivity. do 6 eexists.
  split; [reflexivity |]. split; [reflexivity |].
  pose (b := mk_branch 0 1 0 1 0 1 1 0).
  assert (Hff : yff b = Fin (0%R, (-1)%R)).
  { rewrite yff_nominal by (try reflexivity; now left).
    unfold ytt, series_admittance, line_charging, of_float, imag_j. cbn [b BR_STATUS BR_R BR_X BR_B].
    assert (Hne : (0%R, 1%R) <> C0).
    { intros H. pose proof (f_equal Cim H) as Him. simpl in Him. lra. }
    rewrite (cdiv_fin _ Hne). simpl cmul.
    rewrite cdiv_fin by (apply RtoC_neq0; lra). simpl cadd. f_equal.
    apply C_eq; unfold Cdiv, Cinv, Cnorm2; simpl; field. }
  assert (H1 : getitem (Yf_matrix 2 [b]) 0 0 = Fin (0%R, (-1)%R)).
  { unfold Yf_matrix. rewrite getitem_rows.
    rewrite (@rows_entry_row _ _ [b] 0 b) by reflexivity.
    unfold row_terms. cbn [b F_BUS T_BUS Z.eqb]. unfold ind. now rewrite cadd_0_r. }
  assert (H2 : forall k, (k < 2)%nat ->
                 getitem (Yf_matrix 2 [b; b]) (Z.of_nat k) 0 = Fin (0%R, (-1)%R)).
  { intros k Hk. unfold Yf_matrix. rewrite getitem_rows.
    rewrite (@rows_entry_row _ _ [b; b] k b)
      by (destruct k as [| [| k]]; [reflexivity | reflexivity | lia]).
    unfold row_terms. cbn [b F_BUS T_BUS Z.eqb]. unfold ind. now rewrite cadd_0_r. }
  pose proof (H2 0%nat ltac:(lia)) as H20. pose proof (H2 1%nat ltac:(lia)) as H21.
  change (Z.of_nat 0) with 0%Z in H20. change (Z.of_nat 1) with 1%Z in H21.
  fold b. cbn [length]. rewrite H1. split.
  - rewrite H20. intros H.
    pose proof (f_equal (fun x => match x with Fin z => Cim z | NonFin => 0%R end) H) as Him.
    simpl in Him. lra.
  - rewrite H21. intros H.
    pose proof (f_equal (fun x => match x with Fin z => Cim z | NonFin => 0%R end) H) as Him.
    simpl in Him. lra.
Qed.

(** C9 (amended).  Branch contributions to [Ybus] are additive: entering a
    branch [b] once adds its contribution to every entry of [Ybus], and
    entering a second branch with the same parameters adds exactly double
    that contribution.  [Yf] and [Yt] hold one row for each branch: the
    second branch adds a new row equal to the row of the first, and no
    existing entry changes. *)
Theorem makeYbus_parallel_branch (baseMVA : R) (bus : list bus_row)
    (rest : list branch_row) (b : branch_row) :
  forallb (branch_ok (length bus)) (rest ++ [b]) = true ->
  exists Ybus0 Yf0 Yt0 Ybus1 Yf1 Yt1 Ybus2 Yf2 Yt2,
    makeYbus baseMVA bus rest = (bus_order_warning bus, Return (Ybus0, Yf0, Yt0))
    /\ makeYbus baseMVA bus (rest ++ [b])
       = (bus_order_warning bus, Return (Ybus1, Yf1, Yt1))
    /\ makeYbus baseMVA bus ((rest ++ [b]) ++ [b])
       = (bus_order_warning bus, Return (Ybus2, Yf2, Yt2))
    /\ (forall i j,
          getitem Ybus1 i j = getitem Ybus0 i j + branch_terms i j b
          /\ getitem Ybus2 i j
             = getitem Ybus0 i j + (branch_terms i j b + branch_terms i j b))
    /\ (forall j,
          getitem Yf2 (Z.of_nat (S (length rest))) j
          = getitem Yf1 (Z.of_nat (length rest)) j
          /\ getitem Yt2 (Z.of_nat (S (length rest))) j
             = getitem Yt1 (Z.of_nat (length rest)) j)
    /\ (forall i j, i <> Z.of_nat (S (length rest)) ->
          getitem Yf2 i j = getitem Yf1 i j /\ getitem Yt2 i j = getitem Yt1 i j).
Proof.
  intros Hok1.
  destruct (forallb_snoc _ _ _ Hok1) as [Hok0 Hb].
  assert (Hok2 : forallb (branch_ok (length bus)) ((rest ++ [b]) ++ [b]) = true).
  { rewrite forallb_app, Hok1. simpl. now rewrite Hb. }
  rewrite !makeYbus_run by assumption. do 9 eexists.
  repeat (split; [reflexivity |]).
  assert (Hlen : length (rest ++ [b]) = S (length rest)).
  { rewrite length_app. simpl. lia. }
  assert (Hlast1 : nth_error (rest ++ [b]) (length rest) = Some b).
  { rewrite nth_error_app2 by lia. now rewrite Nat.sub_diag. }
  assert (Hlast2 : nth_error ((rest ++ [b]) ++ [b]) (S (length rest)) = Some b).
  { rewrite nth_error_app2 by lia. rewrite Hlen. now rewrite Nat.sub_diag. }
  split; [| split].
  - intros i j. split.
    + now rewrite !getitem_Ybus, Ybus_entry_snoc.
    + rewrite !getitem_Ybus, !Ybus_entry_snoc. now rewrite <- cadd_assoc.
  - intros j. unfold Yf_matrix, Yt_matrix. rewrite !getitem_rows.
    now rewrite !(@rows_entry_row _ _ _ _ b j Hlast1), !(@rows_entry_row _ _ _ _ b j Hlast2).
  - intros i j Hi. unfold Yf_matrix, Yt_matrix.
    rewrite !getitem_rows, !(rows_entry_snoc _ _ (rest ++ [b])), Hlen.
    destruct (Z.eqb_spec (Z.of_nat (S (length rest))) i) as [Heq | Hne];
      [now elim Hi |].
    unfold ind. now rewrite !cadd_0_r.
Qed.

Lemma makeYbus_parallel_branch_witness :
  let bus := [mk_bus 0 0 0; mk_bus 1 0 0] in
  let b := mk_branch 0 1 0 1 0 1 1 0 in
  forallb (branch_ok (length bus)) ([] ++ [b]) = true
  /\ exists Ybus0 Yf0 Yt0 Ybus1 Yf1 Yt1 Ybus2 Yf2 Yt2,
       makeYbus 100 bus [] = (bus_order_warning bus, Return (Ybus0, Yf0, Yt0))
       /\ makeYbus 100 bus ([] ++ [b])
          = (bus_order_warning bus, Return (Ybus1, Yf1, Yt1))
       /\ makeYbus 100 bus (([] ++ [b]) ++ [b])
          = (bus_order_warning bus, Return (Ybus2, Yf2, Yt2))
       /\ (forall i j,
             getitem Ybus1 i j = getitem Ybus0 i j + branch_terms i j b
             /\ getitem Ybus2 i j
                = getitem Ybus0 i j + (branch_terms i j b + branch_terms i j b))
       /\ (forall j,
             getitem Yf2 (Z.of_nat (S (length (@nil branch_row)))) j
             = getitem Yf1 (Z.of_nat (length (@nil branch_row))) j
             /\ getitem Yt2 (Z.of_nat (S (length (@nil branch_row)))) j
                = getitem Yt1 (Z.of_nat (length (@nil branch_row))) j)
       /\ (forall i j, i <> Z.of_nat (S (length (@nil branch_row))) ->
             getitem Yf2 i j = getitem Yf1 i j /\ getitem Yt2 i j = getitem Yt1 i j).
Proof.
  intros bus b.
  assert (H1 : forallb (branch_ok (length bus)) ([] ++ [b]) = true) by reflexivity.
  split; [exact H1 |].
  exact (@makeYbus_parallel_branch 100 bus [] b H1).
Defined.



(** * Further properties: lemmas on [makeYbus] *)

Section MakeYbusOutcome.

Local Open Scope c128_scope.

Variable baseMVA : R.
Variable bus : list bus_row.
Variable branch : list branch_row.

Lemma when_bind {B : Type} (c : bool) (s : string) (k : M B) :
  bind (when c (stderr_write s)) (fun _ => k)
  = ((if c then [s] else []) ++ fst k, snd k).
Proof. destruct c; reflexivity. Qed.

(** After the check of the bus numbers, a branch that names a bus outside
    the table stops [makeYbus] in the sparse constructor. *)
Lemma makeYbus_rejects :
  forallb (branch_ok (length bus)) branch = false ->
  makeYbus baseMVA bus branch = (bus_order_warning bus, Raise ValueError).
Proof.
  intros H. apply forallb_branch_ok_false in H. unfold makeYbus.
  rewrite when_bind. unfold bus_order_warning.
  destruct (forallb (in_range (length bus)) (col F_BUS branch)) eqn:HF.
  - destruct H as [H | H]; [discriminate |].
    rewrite csr_matrix_of_ok; simpl fst; simpl snd;
      [| unfold astype_complex; now rewrite range_length, length_map, ones_length
       | unfold astype_complex, col; now rewrite !length_map, ones_length
       | apply forallb_in_range_range | assumption ].
    rewrite ?bind_ret_l. rewrite csr_matrix_of_bad_column by assumption.
    rewrite bind_raise. simpl. now rewrite app_nil_r.
  - rewrite csr_matrix_of_bad_column by assumption.
    rewrite bind_raise. simpl. now rewrite app_nil_r.
Qed.

Lemma makeYbus_stderr : fst (makeYbus baseMVA bus branch) = bus_order_warning bus.
Proof.
  destruct (forallb (branch_ok (length bus)) branch) eqn:Hok.
  - now rewrite makeYbus_run.
  - now rewrite makeYbus_rejects.
Qed.

End MakeYbusOutcome.

Section BusOrder.

Lemma any_ne_false_from (l : list bus_row) (s : nat) :
  any_ne (map BUS_I l) (map Z.of_nat (seq s (length l))) = false ->
  forall k r, nth_error l k = Some r -> BUS_I r = Z.of_nat (s + k).
Proof.
  unfold any_ne. revert s. induction l as [| x l IH]; intros s H k r Hk.
  - destruct k; discriminate.
  - simpl in H. apply orb_false_iff in H. destruct H as [Hx Hl].
    destruct k as [| k]; simpl in Hk.
    + inversion Hk; subst. apply negb_false_iff, Z.eqb_eq in Hx.
      now rewrite Nat.add_0_r.
    + replace (s + S k)%nat with (S s + k)%nat by lia. now apply (IH (S s)).
Qed.

Lemma any_ne_true_from (l : list bus_row) (s : nat) :
  any_ne (map BUS_I l) (map Z.of_nat (seq s (length l))) = true ->
  exists k r, nth_error l k = Some r /\ BUS_I r <> Z.of_nat (s + k).
Proof.
  unfold any_ne. revert s. induction l as [| x l IH]; intros s H; [discriminate |].
  simpl in H. apply orb_true_iff in H. destruct H as [Hx | Hl].
  - exists 0%nat, x. split; [reflexivity |].
    apply negb_true_iff, Z.eqb_neq in Hx. now rewrite Nat.add_0_r.
  - destruct (IH (S s) Hl) as (k & r & Hk & Hne). exists (S k), r.
    split; [exact Hk |]. now replace (s + S k)%nat with (S s + k)%nat by lia.
Qed.

Lemma bus_order_warning_line (bus : list bus_row) :
  In bus_order_message (bus_order_warning bus)
  <-> exists k r, nth_error bus k = Some r /\ BUS_I r <> Z.of_nat k.
Proof.
  unfold bus_order_warning, col, range. split.
  - destruct (any_ne (map BUS_I bus) (map Z.of_nat (seq 0 (length bus)))) eqn:H;
      [| intros []].
    intros _. exact (@any_ne_true_from bus 0 H).
  - intros (k & r & Hk & Hne).
    destruct (any_ne (map BUS_I bus) (map Z.of_nat (seq 0 (length bus)))) eqn:H;
      [now left |].
    elim Hne. exact (@any_ne_false_from bus 0 H k r Hk).
Qed.

Lemma bus_order_warning_once (bus : list bus_row) :
  (count_occ string_dec (bus_order_warning bus) bus_order_message <= 1)%nat.
Proof.
  unfold bus_order_warning.
  destruct (any_ne (col BUS_I bus) (range (length bus))).
  - rewrite count_occ_cons_eq by reflexivity. simpl. lia.
  - simpl. lia.
Qed.

End BusOrder.

Section ResultInvariants.

Local Open Scope c128_scope.

Lemma in_enum_snd {A : Type} (l : list A) (k : Z) (x : A) : In (k, x) (enum l) -> In x l.
Proof.
  intros H. rewrite <- (map_snd_enum l). apply in_map_iff. now exists (k, x).
Qed.

Variable baseMVA : R.
Variable bus : list bus_row.
Variable branch : list branch_row.
Hypothesis Hok : forallb (branch_ok (length bus)) branch = true.

Lemma branch_ok_in (b : branch_row) :
  In b branch ->
  in_range (length bus) (F_BUS b) = true /\ in_range (length bus) (T_BUS b) = true.
Proof.
  intros Hb. rewrite forallb_forall in Hok. specialize (Hok b Hb).
  unfold branch_ok in Hok. now apply andb_true_iff in Hok.
Qed.

Lemma branch_rows_wf (yf yt : branch_row -> complex128) :
  wf_csr (mk_csr (length branch, length bus) (branch_rows yf yt branch)).
Proof.
  unfold wf_csr, nrows, ncols, branch_rows. cbn [shape data fst snd].
  apply Forall_app. split; apply Forall_forall; intros e He;
    apply in_map_iff in He; destruct He as [[k b] [<- Hkb]];
    unfold erow, ecol; cbn [fst snd];
    (split; [now apply in_enum_range in Hkb |]);
    apply in_enum_snd in Hkb; now apply branch_ok_in.
Qed.

Lemma incidence_product_wf (c : branch_row -> Z) (yf yt : branch_row -> complex128) :
  (forall b, In b branch -> in_range (length bus) (c b) = true) ->
  Forall (fun e => in_range (length bus) (erow e) = true
                   /\ in_range (length bus) (ecol e) = true)
         (incidence_product c yf yt branch).
Proof.
  intros Hc. unfold incidence_product. apply Forall_forall. intros e He.
  apply in_flat_map in He. destruct He as [[k b] [Hkb He]].
  apply in_enum_snd in Hkb. destruct (branch_ok_in b Hkb) as [HF HT].
  cbn [fst snd] in He. destruct He as [<- | [<- | []]]; unfold erow, ecol; cbn [fst snd];
    (split; [now apply Hc | assumption]).
Qed.

Lemma Ybus_matrix_wf : wf_csr (Ybus_matrix baseMVA bus branch).
Proof.
  unfold wf_csr, nrows, ncols, Ybus_matrix. cbn [shape data fst snd].
  apply Forall_app. split; [apply Forall_app; split |].
  - apply incidence_product_wf. intros b Hb. now apply branch_ok_in.
  - apply incidence_product_wf. intros b Hb. now apply branch_ok_in.
  - unfold shunt_diagonal. apply Forall_forall. intros e He.
    apply in_map_iff in He. destruct He as [[k r] [<- Hkr]].
    unfold erow, ecol. cbn [fst snd]. apply in_enum_range in Hkr. now split.
Qed.

End ResultInvariants.

Section BusNumbersUnused.

Lemma Ybus_matrix_bus_columns (baseMVA : R) (bus bus' : list bus_row)
    (branch : list branch_row) :
  col GS bus = col GS bus' -> col BS bus = col BS bus' ->
  Ybus_matrix baseMVA bus branch = Ybus_matrix baseMVA bus' branch.
Proof.
  intros HG HB.
  assert (Hlen : length bus = length bus').
  { rewrite <- (length_map GS bus), <- (length_map GS bus'). unfold col in HG.
    now rewrite HG. }
  unfold Ybus_matrix. rewrite <- !shunt_diagonal_eq. unfold Ysh.
  now rewrite HG, HB, Hlen.
Qed.

End BusNumbersUnused.

Section BranchCurrents.

Local Open Scope c128_scope.

Local Abbreviation item x i := (nth (Z.to_nat i) x czero).

Lemma map_over_enum {A B : Type} (f : Z -> B) (g : A -> B) (l : list A) :
  (forall k x, In (k, x) (enum l) -> f k = g x) ->
  map f (range (length l)) = map g l.
Proof.
  intros H. rewrite <- (map_fst_enum l) at 1. rewrite <- (map_snd_enum l) at 2.
  rewrite !map_map. apply map_ext_in. intros [k x] Hin. now apply H.
Qed.

(** Row [k] of [Yf] or [Yt] against a vector. *)
Lemma row_dot_branch_rows (yf yt : branch_row -> complex128) (branch : list branch_row)
    (V : list complex128) (k : Z) (b : branch_row) :
  In (k, b) (enum branch) ->
  row_dot (branch_rows yf yt branch) V k
  = yf b * item V (F_BUS b) + yt b * item V (T_BUS b).
Proof.
  intros Hkb. unfold row_dot, branch_rows. rewrite filter_app.
  rewrite (@filter_row_one _ (fun kb => (fst kb, F_BUS (snd kb), yf (snd kb))) _ k b);
    [| reflexivity | apply enum_keys_NoDup | assumption].
  rewrite (@filter_row_one _ (fun kb => (fst kb, T_BUS (snd kb), yt (snd kb))) _ k b);
    [| reflexivity | apply enum_keys_NoDup | assumption].
  cbn [app map fst snd]. unfold evalue, ecol. cbn [fst snd].
  rewrite !csum_cons. change (csum []) with czero. now rewrite cadd_0_r.
Qed.

Lemma matvec_branch_rows (yf yt : branch_row -> complex128) (branch : list branch_row)
    (nb : nat) (V : list complex128) :
  length V = nb ->
  matvec (mk_csr (length branch, nb) (branch_rows yf yt branch)) V
  = ret (map (fun b => yf b * item V (F_BUS b) + yt b * item V (T_BUS b)) branch).
Proof.
  intros HV. unfold matvec, ncols, nrows. cbn [shape data fst snd].
  rewrite HV, Nat.eqb_refl. cbn [negb]. f_equal.
  apply map_over_enum. intros k b Hkb. now apply row_dot_branch_rows.
Qed.

End BranchCurrents.

Section SpdiagsConstruction.

Local Open Scope c128_scope.

Local Abbreviation item x i := (nth (Z.to_nat i) x czero).

Lemma nth_map_enum {A : Type} (y : A -> complex128) (l : list A) (k : Z) (x : A) :
  In (k, x) (enum l) -> item (map y l) k = y x.
Proof.
  intros Hin. pose proof (@in_enum_range _ l k x Hin) as Hk.
  pose proof (@in_enum_nth _ l x k Hk) as Hnth.
  pose proof (@enum_key_unique _ l k _ _ Hin Hnth) as Hx.
  unfold in_range in Hk. rewrite andb_true_iff, Z.leb_le, Z.ltb_lt in Hk.
  rewrite (nth_indep _ czero (y x)) by (rewrite length_map; lia).
  rewrite map_nth. now rewrite <- Hx.
Qed.

(** [spdiags(y, 0, nl, nl) * C] for a connection matrix [C]. *)
Lemma entry_sum_spdiags_connection (y : branch_row -> complex128) (c : branch_row -> Z)
    (branch : list branch_row) (i j : Z) :
  entry_sum i j (mul_data (diag_data (map y branch)) (connection c branch))
  = csum (map (fun kb => ind (fst kb =? i)%Z (ind (c (snd kb) =? j)%Z (y (snd kb))))
              (enum branch)).
Proof.
  rewrite entry_sum_diag_l, length_map. unfold connection. rewrite map_map.
  destruct (in_range (length branch) i) eqn:Hi; unfold ind at 1.
  - apply csum_map_ext_in. intros [k b] Hkb.
    unfold at_ij, erow, ecol, evalue. cbn [fst snd]. rewrite ind_andb.
    destruct (Z.eqb_spec k i) as [<- | Hne]; unfold ind at 1 3; [| reflexivity].
    now rewrite (@nth_map_enum _ y branch k b Hkb), cmul_1_r.
  - symmetry. apply csum_map_zero. intros [k b] Hkb. cbn [fst snd].
    destruct (Z.eqb_spec k i) as [-> | Hne]; [| reflexivity].
    apply in_enum_range in Hkb. congruence.
Qed.

End SpdiagsConstruction.

Section Permutations.

Local Open Scope c128_scope.

Lemma csum_Permutation (l l' : list complex128) : Permutation l l' -> csum l = csum l'.
Proof.
  induction 1 as [| x l l' _ IH | x y l | l l' l'' _ IH1 _ IH2].
  - reflexivity.
  - now rewrite !csum_cons, IH.
  - rewrite !csum_cons, !cadd_assoc. f_equal. apply cadd_comm.
  - congruence.
Qed.

Lemma Ybus_entry_Permutation (baseMVA : R) (bus : list bus_row)
    (branch branch' : list branch_row) (i j : Z) :
  Permutation branch branch' ->
  Ybus_entry baseMVA bus branch i j = Ybus_entry baseMVA bus branch' i j.
Proof.
  intros H. unfold Ybus_entry. f_equal. apply csum_Permutation. now apply Permutation_map.
Qed.

Lemma forallb_Permutation {A : Type} (p : A -> bool) (l l' : list A) :
  Permutation l l' -> forallb p l = true -> forallb p l' = true.
Proof.
  intros H Hl. rewrite forallb_forall in *. intros x Hx. apply Hl.
  apply Permutation_sym in H. now apply (Permutation_in _ H).
Qed.

End Permutations.

Section ServiceFilter.

Local Open Scope c128_scope.

Lemma in_service_false (b : branch_row) : in_service b = false -> BR_STATUS b = 0%R.
Proof. unfold in_service. now destruct (Req_dec_T (BR_STATUS b) 0). Qed.

Lemma branch_terms_out (i j : Z) (b : branch_row) :
  BR_STATUS b = 0%R -> (BR_R b, BR_X b) <> C0 -> branch_terms i j b = czero.
Proof.
  intros Hs Hz. unfold branch_terms, row_terms.
  rewrite (ytt_out b Hs Hz), (yff_out b Hs Hz), (yft_out b Hs Hz), (ytf_out b Hs Hz).
  now destruct (F_BUS b =? i)%Z, (T_BUS b =? i)%Z, (F_BUS b =? j)%Z, (T_BUS b =? j)%Z;
    unfold ind; rewrite ?cadd_0_l.
Qed.

Lemma impedance_neq0 (b : branch_row) :
  BR_R b <> 0%R \/ BR_X b <> 0%R -> (BR_R b, BR_X b) <> C0.
Proof.
  intros Hrx H. pose proof (f_equal Cre H) as Hre. pose proof (f_equal Cim H) as Him.
  simpl in Hre, Him. destruct Hrx; contradiction.
Qed.

Lemma Ybus_entry_in_service (baseMVA : R) (bus : list bus_row)
    (branch : list branch_row) (i j : Z) :
  (forall b, In b branch -> BR_STATUS b = 0%R -> BR_R b <> 0%R \/ BR_X b <> 0%R) ->
  Ybus_entry baseMVA bus (filter in_service branch) i j
  = Ybus_entry baseMVA bus branch i j.
Proof.
  intros H. unfold Ybus_entry. f_equal. rewrite csum_filter.
  apply csum_map_ext_in. intros b Hb. destruct (in_service b) eqn:Hs; [reflexivity |].
  unfold ind. symmetry. apply branch_terms_out.
  - now apply in_service_false.
  - apply impedance_neq0. apply H; [assumption | now apply in_service_false].
Qed.

Lemma forallb_filter {A : Type} (p q : A -> bool) (l : list A) :
  forallb p l = true -> forallb p (filter q l) = true.
Proof.
  intros H. rewrite forallb_forall in *. intros x Hx. apply filter_In in Hx.
  now apply H.
Qed.

End ServiceFilter.

Section DefaultTap.

Local Open Scope c128_scope.

Lemma tap_magnitude_default (b : branch_row) :
  tap_magnitude (with_default_tap b) = tap_magnitude b.
Proof.
  unfold tap_magnitude, with_default_tap. cbn [TAP].
  destruct (Req_dec_T (TAP b) 0) as [H0 | H0].
  - destruct (Req_dec_T 1 0) as [H1 | H1]; [lra | reflexivity].
  - destruct (Req_dec_T (TAP b) 0); [contradiction | reflexivity].
Qed.

Lemma effective_tap_default (b : branch_row) :
  effective_tap (with_default_tap b) = effective_tap b.
Proof. unfold effective_tap. now rewrite tap_magnitude_default. Qed.

Lemma yff_default (b : branch_row) : yff (with_default_tap b) = yff b.
Proof. unfold yff. now rewrite effective_tap_default. Qed.

Lemma yft_default (b : branch_row) : yft (with_default_tap b) = yft b.
Proof. unfold yft. now rewrite effective_tap_default. Qed.

Lemma ytf_default (b : branch_row) : ytf (with_default_tap b) = ytf b.
Proof. unfold ytf. now rewrite effective_tap_default. Qed.

(** The squared modulus of the tap: the phase shift cancels. *)
Lemma effective_tap_sq (b : branch_row) :
  effective_tap b * cconj (effective_tap b)
  = of_float (tap_magnitude b * tap_magnitude b).
Proof.
  rewrite effective_tap_eq. unfold of_float. simpl. f_equal.
  pose proof (phasor_norm (SHIFT b * PI / 180)) as Hn.
  apply C_eq; simpl.
  - replace (tap_magnitude b * tap_magnitude b)%R
      with (tap_magnitude b * tap_magnitude b
            * (cos (SHIFT b * PI / 180) * cos (SHIFT b * PI / 180)
               + sin (SHIFT b * PI / 180) * sin (SHIFT b * PI / 180)))%R
      by (rewrite Hn; ring).
    ring.
  - ring.
Qed.

End DefaultTap.

Section Finiteness.

Local Open Scope c128_scope.

Lemma is_fin_cdiv (x : complex128) (z : C) : is_fin x -> z <> C0 -> is_fin (x / Fin z).
Proof. destruct x; [| contradiction]. intros _ Hz. now rewrite cdiv_fin. Qed.

Variable b : branch_row.
Hypothesis Hz : (BR_R b, BR_X b) <> C0.

Lemma series_admittance_fin : is_fin (series_admittance b).
Proof. unfold series_admittance, of_float. now rewrite cdiv_fin. Qed.

Lemma ytt_fin : is_fin (ytt b).
Proof.
  unfold ytt. apply is_fin_cadd; [apply series_admittance_fin |].
  unfold of_float at 2. apply is_fin_cdiv; [exact I | apply RtoC_neq0; lra].
Qed.

Lemma yff_fin : is_fin (yff b).
Proof.
  unfold yff. rewrite effective_tap_sq. unfold of_float.
  apply is_fin_cdiv; [apply ytt_fin |]. apply RtoC_neq0.
  pose proof (tap_magnitude_neq0 b). nra.
Qed.

Lemma yft_fin : is_fin (yft b).
Proof.
  unfold yft. rewrite effective_tap_eq. unfold cconj.
  apply is_fin_cdiv; [apply is_fin_cneg, series_admittance_fin |].
  apply Cconj_neq0, effective_tap_neq0.
Qed.

Lemma ytf_fin : is_fin (ytf b).
Proof.
  unfold ytf. rewrite effective_tap_eq.
  apply is_fin_cdiv; [apply is_fin_cneg, series_admittance_fin |].
  apply effective_tap_neq0.
Qed.

End Finiteness.

Section FiniteResults.

Local Open Scope c128_scope.

Variable baseMVA : R.
Variable bus : list bus_row.
Variable branch : list branch_row.
Hypothesis Hbase : baseMVA <> 0%R.
Hypothesis Himp : forall b, In b branch -> BR_R b <> 0%R \/ BR_X b <> 0%R.

Lemma shunt_fin (r : bus_row) : is_fin (shunt baseMVA r).
Proof. unfold shunt, of_float. apply is_fin_cdiv; [exact I | now apply RtoC_neq0]. Qed.

Lemma branch_rows_fin (yf yt : branch_row -> complex128) :
  (forall b, In b branch -> is_fin (yf b)) -> (forall b, In b branch -> is_fin (yt b)) ->
  fin_data (branch_rows yf yt branch).
Proof.
  intros Hf Ht. unfold branch_rows. apply fin_data_app; apply Forall_forall;
    intros e He; apply in_map_iff in He; destruct He as [[k b] [<- Hkb]];
    apply in_enum_snd in Hkb; unfold evalue; cbn [fst snd]; auto.
Qed.

Lemma incidence_product_fin (c : branch_row -> Z) (yf yt : branch_row -> complex128) :
  (forall b, In b branch -> is_fin (yf b)) -> (forall b, In b branch -> is_fin (yt b)) ->
  fin_data (incidence_product c yf yt branch).
Proof.
  intros Hf Ht. unfold incidence_product. apply Forall_forall. intros e He.
  apply in_flat_map in He. destruct He as [[k b] [Hkb He]].
  apply in_enum_snd in Hkb. cbn [fst snd] in He.
  destruct He as [<- | [<- | []]]; unfold evalue; cbn [fst snd];
    (apply is_fin_cmul; [exact I | auto]).
Qed.

Lemma Ybus_matrix_fin : all_fin (Ybus_matrix baseMVA bus branch).
Proof.
  unfold all_fin, Ybus_matrix. cbn [data].
  apply fin_data_app; [apply fin_data_app |].
  - apply incidence_product_fin; intros b Hb;
      [apply yff_fin | apply yft_fin]; now apply impedance_neq0, Himp.
  - apply incidence_product_fin; intros b Hb;
      [apply ytf_fin | apply ytt_fin]; now apply impedance_neq0, Himp.
  - unfold shunt_diagonal. apply Forall_forall. intros e He.
    apply in_map_iff in He. destruct He as [[k r] [<- _]]. unfold evalue. cbn [fst snd].
    apply shunt_fin.
Qed.

End FiniteResults.

Section RowSumsOfYbus.

Local Open Scope c128_scope.

Lemma csum_flat_map {X Y : Type} (f : Y -> complex128) (h : X -> list Y) (l : list X) :
  csum (map f (flat_map h l)) = csum (map (fun x => csum (map f (h x))) l).
Proof.
  induction l as [| x l IH]; [reflexivity |].
  simpl flat_map. simpl map. now rewrite map_app, csum_app, csum_cons, IH.
Qed.

(** The stored elements of one row of [C.T * Y]. *)
Lemma incidence_product_row_sum (c : branch_row -> Z) (yf yt : branch_row -> complex128)
    (branch : list branch_row) (i : Z) :
  csum (map (fun e => ind (erow e =? i)%Z (evalue e)) (incidence_product c yf yt branch))
  = csum (map (fun b => ind (c b =? i)%Z (yf b + yt b)) branch).
Proof.
  unfold incidence_product. rewrite csum_flat_map.
  rewrite <- (sum_over_enum (fun b => ind (c b =? i)%Z (yf b + yt b))).
  apply csum_map_ext_in. intros [k b] _. cbn [map fst snd].
  rewrite !csum_cons. change (csum []) with czero. rewrite cadd_0_r.
  unfold erow, evalue. cbn [fst snd]. now rewrite !cmul_1_l, ind_add.
Qed.

Variable b : branch_row.
Hypothesis Hshift : SHIFT b = 0%R.
Hypothesis Htap : TAP b = 1%R \/ TAP b = 0%R.
Hypothesis Hcharge : BR_B b = 0%R.
Hypothesis Hz : (BR_R b, BR_X b) <> C0.

(** A line without charging, tap or shift: [Ytt = Ys]. *)
Lemma ytt_plain : ytt b = series_admittance b.
Proof.
  unfold ytt, line_charging. rewrite Hcharge, Rmult_0_r.
  pose proof (series_admittance_fin b Hz) as Hf.
  destruct (series_admittance b) as [z |]; [| contradiction].
  unfold imag_j, of_float. simpl cmul. rewrite cdiv_fin by (apply RtoC_neq0; lra).
  simpl cadd. f_equal. apply C_eq; unfold Cdiv, Cinv, Cnorm2; simpl; field.
Qed.

Lemma from_terms_cancel : yff b + yft b = czero.
Proof.
  rewrite (yff_nominal b Hshift Htap), (yft_nominal b Hshift Htap), ytt_plain.
  apply cadd_neg_r_fin. now apply series_admittance_fin.
Qed.

Lemma to_terms_cancel : ytf b + ytt b = czero.
Proof.
  rewrite (ytf_nominal b Hshift Htap), ytt_plain, cadd_comm.
  apply cadd_neg_r_fin. now apply series_admittance_fin.
Qed.

End RowSumsOfYbus.

Section PlainNetwork.

Local Open Scope c128_scope.

Variable baseMVA : R.
Variable bus : list bus_row.
Variable branch : list branch_row.

Hypothesis Hok : forallb (branch_ok (length bus)) branch = true.
Hypothesis Hbase : baseMVA <> 0%R.
Hypothesis Hshunt : forall r, In r bus -> GS r = 0%R /\ BS r = 0%R.
Hypothesis Hline : forall b, In b branch ->
  (TAP b = 1%R \/ TAP b = 0%R) /\ SHIFT b = 0%R /\ BR_B b = 0%R
  /\ (BR_R b <> 0%R \/ BR_X b <> 0%R).

Lemma Ybus_matrix_cols : cols_within (length bus) (data (Ybus_matrix baseMVA bus branch)).
Proof.
  pose proof (Ybus_matrix_wf baseMVA bus branch Hok) as Hwf.
  unfold wf_csr, ncols in Hwf. cbn [shape snd Ybus_matrix] in Hwf.
  unfold cols_within. eapply Forall_impl; [| exact Hwf]. intros e [_ H]. exact H.
Qed.

Lemma plain_Ybus_row_sum (i : Z) :
  csum (map (fun e => ind (erow e =? i)%Z (evalue e))
         (data (Ybus_matrix baseMVA bus branch)))
  = czero.
Proof.
  unfold Ybus_matrix. cbn [data]. rewrite !map_app, !csum_app.
  rewrite !incidence_product_row_sum.
  rewrite (csum_map_zero (fun b => ind (F_BUS b =? i)%Z (yff b + yft b))).
  2:{ intros b Hb. destruct (Hline b Hb) as (Ht & Hs & Hc & Hz).
      rewrite (from_terms_cancel b Hs Ht Hc (impedance_neq0 b Hz)).
      now destruct (F_BUS b =? i)%Z. }
  rewrite (csum_map_zero (fun b => ind (T_BUS b =? i)%Z (ytf b + ytt b))).
  2:{ intros b Hb. destruct (Hline b Hb) as (Ht & Hs & Hc & Hz).
      rewrite (to_terms_cancel b Hs Ht Hc (impedance_neq0 b Hz)).
      now destruct (T_BUS b =? i)%Z. }
  rewrite !cadd_0_l. unfold shunt_diagonal. rewrite map_map.
  apply csum_map_zero. intros [k r] Hkr. unfold erow, evalue. cbn [fst snd].
  apply in_enum_snd in Hkr. destruct (Hshunt r Hkr) as [HG HB].
  unfold shunt, of_float. rewrite HG, HB, cdiv_fin by now apply RtoC_neq0.
  change (0%R, 0%R) with C0. rewrite Cdiv_0_l by now apply RtoC_neq0.
  now destruct (k =? i)%Z.
Qed.

End PlainNetwork.

(** * Further properties: lemmas on [dSbus_dV] *)

Section DSbusOutcome.

Local Open Scope c128_scope.

Variable Ybus : csr_matrix.
Variable V : list complex128.

Lemma dSbus_dV_bad_columns :
  ncols Ybus <> length V -> dSbus_dV Ybus V = raise ValueError.
Proof.
  intros H. unfold dSbus_dV, matvec.
  destruct (Nat.eqb_spec (ncols Ybus) (length V)) as [Heq | _]; [contradiction |].
  reflexivity.
Qed.

Lemma dSbus_dV_empty :
  ncols Ybus = length V -> length V = 0%nat -> dSbus_dV Ybus V = raise ValueError.
Proof.
  intros Hc H0. unfold dSbus_dV, matvec. rewrite Hc, Nat.eqb_refl. cbn [negb].
  rewrite bind_ret_l. unfold csr_matrix_infer at 1. cbn [fst snd].
  rewrite range_length, H0. rewrite Nat.eqb_refl. reflexivity.
Qed.

Lemma dSbus_dV_bad_rows :
  ncols Ybus = length V -> (0 < length V)%nat -> nrows Ybus <> length V ->
  dSbus_dV Ybus V = raise ValueError.
Proof.
  intros Hc Hn Hr. unfold dSbus_dV, matvec. rewrite Hc, Nat.eqb_refl. cbn [negb].
  rewrite bind_ret_l. rewrite (@csr_matrix_infer_diag V _ Hn eq_refl), bind_ret_l.
  unfold csr_matrix_infer at 1. cbn [fst snd].
  rewrite range_length, length_map, range_length.
  destruct (Nat.eqb_spec (length V) (nrows Ybus)) as [Heq | _]; [now elim Hr |].
  reflexivity.
Qed.

End DSbusOutcome.

Section SumForms.

Local Open Scope c128_scope.

Local Abbreviation item x i := (nth (Z.to_nat i) x czero).

Lemma scale_diag_data (s : complex128) (x : list complex128) :
  scale_data s (diag_data x) = diag_data (smul s x).
Proof.
  unfold scale_data, diag_data, smul, enum. rewrite length_map, map_map.
  rewrite combine_map_r, map_map. reflexivity.
Qed.

Lemma item_smul (s : complex128) (x : list complex128) (i : Z) :
  in_range (length x) i = true -> item (smul s x) i = s * item x i.
Proof.
  intros Hi. unfold in_range in Hi. rewrite andb_true_iff, Z.leb_le, Z.ltb_lt in Hi.
  unfold smul. rewrite (nth_indep _ czero (s * czero)) by (rewrite length_map; lia).
  apply map_nth.
Qed.

(** The entries of a diagonal matrix whose values are computed from the
    elements of [x]. *)
Lemma diagonal_entry (g : Z -> complex128 -> complex128) (x : list complex128)
    (i j : Z) :
  in_range (length x) i = true ->
  csum (map (fun kv => ind ((fst kv =? i) && (fst kv =? j))%Z (g (fst kv) (snd kv)))
            (enum x))
  = ind (i =? j)%Z (g i (item x i)).
Proof.
  intros Hi. rewrite (@csum_map_single _ _ _ (i, item x i)).
  - cbn [fst snd]. now rewrite Z.eqb_refl.
  - apply enum_NoDup.
  - now apply in_enum_nth.
  - intros [k v] Hin Hne. cbn [fst snd].
    destruct (Z.eqb_spec k i) as [-> | Hk]; [| reflexivity].
    elim Hne. f_equal. eapply enum_key_unique; [exact Hin |]. now apply in_enum_nth.
Qed.

Variable Ybus : csr_matrix.
Variable V : list complex128.
Hypothesis Hshape : shape Ybus = (length V, length V).
Hypothesis Hwf : wf_csr Ybus.

Let Ibus := injected_current Ybus V.
Let Vnorm := Dense.normalize V.

(** An entry of [dS_dVa] as a sum over the stored elements of [Ybus]. *)
Lemma dS_dVa_sum_form (i j : Z) :
  in_range (length V) i = true ->
  getitem (dS_dVa_matrix Ybus V) i j
  = ind (i =? j)%Z (imag_j * item V i * cconj (item Ibus i))
    + csum (map (fun a => ind (at_ij i j a)
                   (imag_j * item V i * cconj (- (evalue a * item V (ecol a)))))
                (data Ybus)).
Proof.
  intros Hi.
  pose proof (@injected_current_len Ybus V Hshape) as HlenI.
  unfold getitem, dS_dVa_matrix. cbn [data].
  rewrite scale_diag_data, entry_sum_diag_l.
  unfold smul at 1. rewrite length_map, Hi. unfold ind at 1.
  rewrite item_smul by assumption.
  unfold conj_data. rewrite map_map, map_app, csum_app. f_equal.
  - unfold diag_data. rewrite map_map. fold Ibus.
    rewrite <- (@diagonal_entry
                  (fun _ v => imag_j * item V i * cconj v) Ibus i j)
      by (unfold Ibus; now rewrite HlenI).
    apply csum_map_ext_in. intros [k v] _. reflexivity.
  - rewrite mul_data_diag_r by now apply Ybus_cols.
    unfold neg_data. rewrite !map_map. apply csum_map_ext_in. intros a _. reflexivity.
Qed.

(** An entry of [dS_dVm] as a sum over the stored elements of [Ybus]. *)
Lemma dS_dVm_sum_form (i j : Z) :
  in_range (length V) i = true ->
  getitem (dS_dVm_matrix Ybus V) i j
  = csum (map (fun a => ind (at_ij i j a)
                 (item V i * cconj (evalue a * item Vnorm (ecol a))))
              (data Ybus))
    + ind (i =? j)%Z (cconj (item Ibus i) * item Vnorm i).
Proof.
  intros Hi.
  pose proof (@injected_current_len Ybus V Hshape) as HlenI.
  assert (HlenN : length Vnorm = length V) by apply normalized_len.
  unfold getitem, dS_dVm_matrix. cbn [data]. rewrite vnorm_eq. fold Vnorm.
  rewrite entry_sum_app. f_equal.
  - rewrite entry_sum_diag_l, Hi. unfold ind at 1.
    rewrite mul_data_diag_r by (rewrite HlenN; now apply Ybus_cols).
    unfold conj_data. rewrite !map_map. apply csum_map_ext_in. intros a _. reflexivity.
  - rewrite mul_data_diag_r.
    2:{ unfold conj_data. apply cols_within_map; [reflexivity |].
        rewrite HlenN, <- HlenI. apply cols_within_diag. }
    unfold conj_data, diag_data. rewrite !map_map, entry_sum_map. fold Ibus.
    rewrite <- (@diagonal_entry
                  (fun k v => cconj v * item Vnorm k) Ibus i j)
      by (unfold Ibus; now rewrite HlenI).
    apply csum_map_ext_in. intros [k v] _. reflexivity.
Qed.

End SumForms.

Section ClosedForms.

Local Open Scope c128_scope.

Local Abbreviation item x i := (nth (Z.to_nat i) x czero).






Variable Ybus : csr_matrix.
Variable V : list complex128.
Hypothesis Hshape : shape Ybus = (length V, length V).
Hypothesis Hwf : wf_csr Ybus.
Hypothesis HfinV : Forall is_fin V.


Hypothesis Hnz : Forall (fun v => cabs v <> czero) V.


End ClosedForms.

Section SparsityPattern.

Local Open Scope c128_scope.

Variable Ybus : csr_matrix.
Variable V : list complex128.
Hypothesis Hshape : shape Ybus = (length V, length V).
Hypothesis Hwf : wf_csr Ybus.

(** Off the diagonal, where [Ybus] stores nothing, so do the results. *)
Lemma off_pattern_zero (i j : Z) :
  in_range (length V) i = true -> i <> j ->
  (forall a, In a (data Ybus) -> at_ij i j a = false) ->
  getitem (dS_dVm_matrix Ybus V) i j = czero
  /\ getitem (dS_dVa_matrix Ybus V) i j = czero.
Proof.
  intros Hi Hij Hnone. apply Z.eqb_neq in Hij.
  rewrite (@dS_dVm_sum_form Ybus V Hshape Hwf i j Hi), (@dS_dVa_sum_form Ybus V Hshape Hwf i j Hi), Hij.
  unfold ind at 2 3. split.
  - rewrite cadd_0_r. apply csum_map_zero. intros a Ha. now rewrite (Hnone a Ha).
  - rewrite cadd_0_l. apply csum_map_zero. intros a Ha. now rewrite (Hnone a Ha).
Qed.

End SparsityPattern.

Section DenseDiagonal.

Local Open Scope c128_scope.

Local Abbreviation item x i := (nth (Z.to_nat i) x czero).









End DenseDiagonal.

Section ProductRule.

Local Open Scope c128_scope.

Local Abbreviation item x i := (nth (Z.to_nat i) x czero).

Variable n : nat.
Variable Y : Dense.matrix.
Variable V : list complex128.


Hypothesis HfinY : forall r c, is_fin (Y r c).
Hypothesis HfinV : Forall is_fin V.
Hypothesis Hlen : length V = n.





End ProductRule.

(** * Further properties: statements *)

(** X1. [makeYbus] ends in one of two ways.  When every branch names buses
    that are indices into the bus table it returns the three matrices; when
    some branch does not, the sparse constructor raises [ValueError].  In
    both cases the line about the order of the buses, if it was due, has
    been written to [stderr] before. *)
Theorem makeYbus_outcome (baseMVA : R) (bus : list bus_row) (branch : list branch_row) :
  makeYbus baseMVA bus branch
  = (bus_order_warning bus,
     if forallb (branch_ok (length bus)) branch
     then Return (Ybus_matrix baseMVA bus branch,
                  Yf_matrix (length bus) branch, Yt_matrix (length bus) branch)
     else Raise ValueError).
Proof.
  destruct (forallb (branch_ok (length bus)) branch) eqn:Hok.
  - now apply makeYbus_run.
  - now apply makeYbus_rejects.
Qed.

(** X2. Among what reaches [stderr] during a call of [makeYbus], the line
    "buses must appear in order by bus number" is present exactly when some
    bus record does not carry its own position as bus number, whatever the
    branch table holds and whether or not the call then raises; the function
    never writes that line twice. *)
Theorem makeYbus_bus_order_line (baseMVA : R) (bus : list bus_row)
    (branch : list branch_row) :
  (In bus_order_message (fst (makeYbus baseMVA bus branch))
   <-> exists k r, nth_error bus k = Some r /\ BUS_I r <> Z.of_nat k)
  /\ (count_occ string_dec (fst (makeYbus baseMVA bus branch)) bus_order_message
      <= 1)%nat.
Proof.
  rewrite makeYbus_stderr. split.
  - apply bus_order_warning_line.
  - apply bus_order_warning_once.
Qed.

(** X3. The matrices that [makeYbus] returns have the shapes [nb x nb]
    ([Ybus]) and [nl x nb] ([Yf], [Yt]), and every element they store lies
    inside the shape. *)
Theorem makeYbus_results_well_formed (baseMVA : R) (bus : list bus_row)
    (branch : list branch_row) :
  forallb (branch_ok (length bus)) branch = true ->
  exists Ybus Yf Yt,
    makeYbus baseMVA bus branch = (bus_order_warning bus, Return (Ybus, Yf, Yt))
    /\ shape Ybus = (length bus, length bus)
    /\ shape Yf = (length branch, length bus)
    /\ shape Yt = (length branch, length bus)
    /\ wf_csr Ybus /\ wf_csr Yf /\ wf_csr Yt.
Proof.
  intros Hok. rewrite makeYbus_run by assumption. do 3 eexists.
  split; [reflexivity |]. repeat (split; [reflexivity |]).
  split; [now apply Ybus_matrix_wf |]. split; now apply branch_rows_wf.
Qed.

Lemma makeYbus_results_well_formed_witness :
  let bus := [mk_bus 0 0 0; mk_bus 1 0 0; mk_bus 2 0 0] in
  let branch := [mk_branch 0 1 1 2 0 1 0 0; mk_branch 2 2 0 1 0 1 1 5] in
  forallb (branch_ok (length bus)) branch = true
  /\ exists Ybus Yf Yt,
       makeYbus 100 bus branch = (bus_order_warning bus, Return (Ybus, Yf, Yt))
       /\ shape Ybus = (length bus, length bus)
       /\ shape Yf = (length branch, length bus)
       /\ shape Yt = (length branch, length bus)
       /\ wf_csr Ybus /\ wf_csr Yf /\ wf_csr Yt.
Proof.
  intros bus branch.
  assert (H1 : forallb (branch_ok (length bus)) branch = true) by reflexivity.
  split; [exact H1 |]. exact (@makeYbus_results_well_formed 100 bus branch H1).
Defined.

(** X4. As the docstring of [makeYbus] says, [Yf] and [Yt] times a voltage
    vector give the currents injected into each branch at its two ends:
    element [k] of [Yf * V] is [Yff * V[f] + Yft * V[t]] and element [k] of
    [Yt * V] is [Ytf * V[f] + Ytt * V[t]] for the from-bus [f] and the to-bus
    [t] of branch [k]. *)
Theorem makeYbus_branch_currents (baseMVA : R) (bus : list bus_row)
    (branch : list branch_row) (V : list complex128) :
  forallb (branch_ok (length bus)) branch = true ->
  length V = length bus ->
  exists Ybus Yf Yt,
    makeYbus baseMVA bus branch = (bus_order_warning bus, Return (Ybus, Yf, Yt))
    /\ matvec Yf V
       = ret (map (fun b => yff b * nth (Z.to_nat (F_BUS b)) V czero
                            + yft b * nth (Z.to_nat (T_BUS b)) V czero) branch)
    /\ matvec Yt V
       = ret (map (fun b => ytf b * nth (Z.to_nat (F_BUS b)) V czero
                            + ytt b * nth (Z.to_nat (T_BUS b)) V czero) branch).
Proof.
  intros Hok HV. rewrite makeYbus_run by assumption. do 3 eexists.
  split; [reflexivity |]. split; now apply matvec_branch_rows.
Qed.

Lemma makeYbus_branch_currents_witness :
  let bus := [mk_bus 0 0 0; mk_bus 1 0 0] in
  let branch := [mk_branch 0 1 (1/100) (1/10) 0 1 1 0] in
  let V := [Fin (1%R, 0%R); Fin ((98/100)%R, 0%R)] in
  forallb (branch_ok (length bus)) branch = true
  /\ length V = length bus
  /\ exists Ybus Yf Yt,
       makeYbus 100 bus branch = (bus_order_warning bus, Return (Ybus, Yf, Yt))
       /\ matvec Yf V
          = ret (map (fun b => yff b * nth (Z.to_nat (F_BUS b)) V czero
                               + yft b * nth (Z.to_nat (T_BUS b)) V czero) branch)
       /\ matvec Yt V
          = ret (map (fun b => ytf b * nth (Z.to_nat (F_BUS b)) V czero
                               + ytt b * nth (Z.to_nat (T_BUS b)) V czero) branch).
Proof.
  intros bus branch V.
  assert (H1 : forallb (branch_ok (length bus)) branch = true) by reflexivity.
  assert (H2 : length V = length bus) by reflexivity.
  split; [exact H1 |]. split; [exact H2 |].
  exact (@makeYbus_branch_currents 100 bus branch V H1 H2).
Defined.

Lemma spdiags_map {A : Type} (y : A -> complex128) (l : list A) :
  spdiags (map y l) (length l) = mk_csr (length l, length l) (diag_data (map y l)).
Proof.
  unfold spdiags. do 2 f_equal. rewrite <- (length_map y l). apply firstn_all.
Qed.

(** X5. The construction that [makeYbus.py] keeps as a comment,
    [Yf = spdiags(Yff, 0, nl, nl) * Cf + spdiags(Yft, 0, nl, nl) * Ct] and
    [Yt = spdiags(Ytf, 0, nl, nl) * Cf + spdiags(Ytt, 0, nl, nl) * Ct],
    builds matrices of the same shape and with the same entries as the
    [Yf] and [Yt] that the function returns. *)
Theorem makeYbus_spdiags_construction (baseMVA : R) (bus : list bus_row)
    (branch : list branch_row) :
  forallb (branch_ok (length bus)) branch = true ->
  exists Ybus Yf Yt Yf' Yt',
    makeYbus baseMVA bus branch = (bus_order_warning bus, Return (Ybus, Yf, Yt))
    /\ Yf_Yt_by_spdiags bus branch = ret (Yf', Yt')
    /\ shape Yf' = shape Yf /\ shape Yt' = shape Yt
    /\ (forall i j, getitem Yf' i j = getitem Yf i j)
    /\ (forall i j, getitem Yt' i j = getitem Yt i j).
Proof.
  intros Hok. rewrite makeYbus_run by assumption.
  unfold Yf_Yt_by_spdiags.
  rewrite Yff_map, Yft_map, Ytf_map, Ytt_map, !spdiags_map.
  rewrite !csr_matrix_of_ok; simpl fst; simpl snd;
    try apply forallb_in_range_range; try (exact (@F_in_range bus branch Hok));
    try (exact (@T_in_range bus branch Hok));
    try (unfold col, astype_complex;
         rewrite ?length_map, ?range_length, ?ones_length; reflexivity).
  rewrite !connection_eq, !bind_ret_l.
  unfold matmul, madd, nrows, ncols.
  repeat (progress (cbn [shape data fst snd]; rewrite ?Nat.eqb_refl; cbn [negb andb];
                    cbv iota; rewrite ?bind_ret_l)).
  do 5 eexists. split; [reflexivity |]. split; [reflexivity |].
  split; [reflexivity |]. split; [reflexivity |].
  split; intros i j; unfold Yf_matrix, Yt_matrix; rewrite getitem_rows;
    unfold getitem, rows_entry, row_terms; cbn [data];
    rewrite entry_sum_app, !entry_sum_spdiags_connection, <- csum_map_add;
    apply csum_map_ext_in; intros kb _; now rewrite ind_add.
Qed.

Lemma makeYbus_spdiags_construction_witness :
  let bus := [mk_bus 0 0 0; mk_bus 1 0 0; mk_bus 2 0 0] in
  let branch := [mk_branch 0 1 1 2 0 1 0 0; mk_branch 2 2 0 1 0 1 1 5] in
  forallb (branch_ok (length bus)) branch = true
  /\ exists Ybus Yf Yt Yf' Yt',
       makeYbus 100 bus branch = (bus_order_warning bus, Return (Ybus, Yf, Yt))
       /\ Yf_Yt_by_spdiags bus branch = ret (Yf', Yt')
       /\ shape Yf' = shape Yf /\ shape Yt' = shape Yt
       /\ (forall i j, getitem Yf' i j = getitem Yf i j)
       /\ (forall i j, getitem Yt' i j = getitem Yt i j).
Proof.
  intros bus branch.
  assert (H1 : forallb (branch_ok (length bus)) branch = true) by reflexivity.
  split; [exact H1 |]. exact (@makeYbus_spdiags_construction 100 bus branch H1).
Defined.

Lemma Permutation_swap_rows (b1 b2 : branch_row) : Permutation [b1; b2] [b2; b1].
Proof. apply perm_swap. Qed.

(** X6. The order of the rows of the branch table does not matter to
    [Ybus]: for a reordered table [makeYbus] returns a bus admittance matrix
    of the same shape and with the same entries. *)
Theorem makeYbus_branch_order (baseMVA : R) (bus : list bus_row)
    (branch branch' : list branch_row) :
  Permutation branch branch' ->
  forallb (branch_ok (length bus)) branch = true ->
  exists Ybus Yf Yt Ybus' Yf' Yt',
    makeYbus baseMVA bus branch = (bus_order_warning bus, Return (Ybus, Yf, Yt))
    /\ makeYbus baseMVA bus branch' = (bus_order_warning bus, Return (Ybus', Yf', Yt'))
    /\ shape Ybus' = shape Ybus
    /\ forall i j, getitem Ybus' i j = getitem Ybus i j.
Proof.
  intros Hperm Hok.
  pose proof (forallb_Permutation (branch_ok (length bus)) Hperm Hok) as Hok'.
  rewrite !makeYbus_run by assumption. do 6 eexists.
  split; [reflexivity |]. split; [reflexivity |]. split; [reflexivity |].
  intros i j. rewrite !getitem_Ybus. symmetry. now apply Ybus_entry_Permutation.
Qed.

Lemma makeYbus_branch_order_witness :
  let bus := [mk_bus 0 0 0; mk_bus 1 0 0; mk_bus 2 0 0] in
  let branch := [mk_branch 0 1 1 2 0 1 0 0; mk_branch 1 2 0 1 0 1 1 5] in
  let branch' := [mk_branch 1 2 0 1 0 1 1 5; mk_branch 0 1 1 2 0 1 0 0] in
  Permutation branch branch'
  /\ forallb (branch_ok (length bus)) branch = true
  /\ exists Ybus Yf Yt Ybus' Yf' Yt',
       makeYbus 100 bus branch = (bus_order_warning bus, Return (Ybus, Yf, Yt))
       /\ makeYbus 100 bus branch' = (bus_order_warning bus, Return (Ybus', Yf', Yt'))
       /\ shape Ybus' = shape Ybus
       /\ forall i j, getitem Ybus' i j = getitem Ybus i j.
Proof.
  intros bus branch branch'.
  assert (H1 : Permutation branch branch') by apply Permutation_swap_rows.
  assert (H2 : forallb (branch_ok (length bus)) branch = true) by reflexivity.
  split; [exact H1 |]. split; [exact H2 |].
  exact (@makeYbus_branch_order 100 bus branch branch' H1 H2).
Defined.

(** X7. [makeYbus] uses the bus-number column only for the line it may write
    to [stderr]: two bus tables with the same shunt columns [GS] and [BS]
    give the same outcome (the same three matrices, or the same exception),
    whatever their bus numbers are. *)
Theorem makeYbus_ignores_bus_numbers (baseMVA : R) (bus bus' : list bus_row)
    (branch : list branch_row) :
  col GS bus = col GS bus' -> col BS bus = col BS bus' ->
  snd (makeYbus baseMVA bus branch) = snd (makeYbus baseMVA bus' branch).
Proof.
  intros HG HB.
  assert (Hlen : length bus = length bus').
  { unfold col in HG. apply (f_equal (@length R)) in HG. now rewrite !length_map in HG. }
  destruct (forallb (branch_ok (length bus)) branch) eqn:Hok.
  - rewrite (@makeYbus_run baseMVA bus branch Hok).
    rewrite Hlen in Hok. rewrite (@makeYbus_run baseMVA bus' branch Hok).
    cbn [snd]. rewrite (@Ybus_matrix_bus_columns baseMVA bus bus' branch HG HB).
    now rewrite Hlen.
  - rewrite (@makeYbus_rejects baseMVA bus branch Hok).
    rewrite Hlen in Hok. now rewrite (@makeYbus_rejects baseMVA bus' branch Hok).
Qed.

Lemma makeYbus_ignores_bus_numbers_witness :
  let bus := [mk_bus 0 1 2; mk_bus 1 0 3] in
  let bus' := [mk_bus 7 1 2; mk_bus 7 0 3] in
  let branch := [mk_branch 0 1 1 2 0 1 0 0] in
  col GS bus = col GS bus' /\ col BS bus = col BS bus'
  /\ snd (makeYbus 100 bus branch) = snd (makeYbus 100 bus' branch).
Proof.
  intros bus bus' branch.
  assert (H1 : col GS bus = col GS bus') by reflexivity.
  assert (H2 : col BS bus = col BS bus') by reflexivity.
  split; [exact H1 |]. split; [exact H2 |].
  exact (@makeYbus_ignores_bus_numbers 100 bus bus' branch H1 H2).
Defined.

(** X8. For a network without shunts whose branches all have a nominal tap
    (stored as 1 or 0), no phase shift, no line charging, an impedance of
    moderate size and a bounded status, and for a base power of moderate
    size, every row of the [Ybus] that [makeYbus] returns sums to zero, so
    that a flat voltage profile injects no current: [Ybus * ones(nb)] is
    the zero vector. *)
Theorem makeYbus_plain_rows_sum_to_zero (baseMVA : R) (bus : list bus_row)
    (branch : list branch_row) :
  forallb (branch_ok (length bus)) branch = true ->
  moderate baseMVA ->
  (forall r, In r bus -> GS r = 0%R /\ BS r = 0%R) ->
  (forall b, In b branch ->
     (TAP b = 1%R \/ TAP b = 0%R) /\ SHIFT b = 0%R /\ BR_B b = 0%R
     /\ impedance_moderate b /\ bounded (BR_STATUS b)) ->
  exists Ybus Yf Yt,
    makeYbus baseMVA bus branch = (bus_order_warning bus, Return (Ybus, Yf, Yt))
    /\ (forall i, csum (map (getitem Ybus i) (range (length bus))) = czero)
    /\ matvec Ybus (astype_complex (ones (length bus)))
       = ret (map (fun _ => czero) bus).
Proof.
  intros Hok Hmod Hshunt Hplain. rewrite makeYbus_run by assumption.
  pose proof (moderate_neq0 Hmod) as Hbase.
  assert (Hline : forall b, In b branch ->
            (TAP b = 1%R \/ TAP b = 0%R) /\ SHIFT b = 0%R /\ BR_B b = 0%R
            /\ (BR_R b <> 0%R \/ BR_X b <> 0%R)).
  { intros b Hb. destruct (Hplain b Hb) as (Ht & Hs & Hc & Himp & _).
    repeat (split; [assumption |]). now apply impedance_moderate_neq0. }
  do 3 eexists. split; [reflexivity |].
  pose proof (@Ybus_matrix_cols baseMVA bus branch Hok) as Hcols.
  split.
  - intros i. unfold getitem.
    rewrite (@row_sum_entries (length bus) _ i Hcols).
    now apply plain_Ybus_row_sum.
  - unfold matvec, ncols, nrows.
    replace (shape (Ybus_matrix baseMVA bus branch)) with (length bus, length bus)
      by reflexivity.
    cbn [fst snd].
    unfold astype_complex. rewrite length_map, ones_length, Nat.eqb_refl.
    cbn [negb]. cbv iota. f_equal. f_equal.
    apply map_over_enum. intros k r _.
    fold (astype_complex (ones (length bus))).
    rewrite (@row_dot_ones (length bus) _ k Hcols).
    now apply plain_Ybus_row_sum.
Qed.

Lemma makeYbus_plain_rows_sum_to_zero_witness :
  let bus := [mk_bus 0 0 0; mk_bus 1 0 0; mk_bus 2 0 0] in
  let branch := [mk_branch 0 1 1 2 0 1 0 0; mk_branch 1 2 0 1 0 1 1 0] in
  forallb (branch_ok (length bus)) branch = true
  /\ moderate 100
  /\ (forall r, In r bus -> GS r = 0%R /\ BS r = 0%R)
  /\ (forall b, In b branch ->
        (TAP b = 1%R \/ TAP b = 0%R) /\ SHIFT b = 0%R /\ BR_B b = 0%R
        /\ impedance_moderate b /\ bounded (BR_STATUS b))
  /\ exists Ybus Yf Yt,
       makeYbus 100 bus branch = (bus_order_warning bus, Return (Ybus, Yf, Yt))
       /\ (forall i, csum (map (getitem Ybus i) (range (length bus))) = czero)
       /\ matvec Ybus (astype_complex (ones (length bus)))
          = ret (map (fun _ => czero) bus).
Proof.
  intros bus branch.
  assert (H1 : forallb (branch_ok (length bus)) branch = true) by reflexivity.
  assert (H2 : moderate 100) by (apply moderate_small; rewrite Rabs_pos_eq; lra).
  assert (H3 : forall r, In r bus -> GS r = 0%R /\ BS r = 0%R).
  { intros r [<- | [<- | [<- | []]]]; split; reflexivity. }
  assert (H4 : forall b, In b branch ->
            (TAP b = 1%R \/ TAP b = 0%R) /\ SHIFT b = 0%R /\ BR_B b = 0%R
            /\ impedance_moderate b /\ bounded (BR_STATUS b)).
  { intros b [<- | [<- | []]]; cbn [TAP SHIFT BR_B BR_STATUS].
    - split; [now right |]. split; [reflexivity |]. split; [reflexivity |]. split.
      + apply impedance_moderate_small. cbn [BR_R BR_X].
        rewrite Rabs_R1, (Rabs_pos_eq 2), Rmax_right by lra. lra.
      + apply bounded_small. rewrite Rabs_R1. lra.
    - split; [now left |]. split; [reflexivity |]. split; [reflexivity |]. split.
      + apply impedance_moderate_small. cbn [BR_R BR_X].
        rewrite Rabs_R0, Rabs_R1, Rmax_right by lra. lra.
      + apply bounded_small. rewrite Rabs_R1. lra. }
  split; [exact H1 |]. split; [exact H2 |]. split; [exact H3 |]. split; [exact H4 |].
  exact (@makeYbus_plain_rows_sum_to_zero 100 bus branch H1 H2 H3 H4).
Defined.

(** X9. When the base power, the branch data and the bus shunts are of
    moderate size (magnitudes up to [10^30]; impedance, tap and base power
    not below [10^-30]), all the elements that [makeYbus] stores in [Ybus],
    [Yf] and [Yt] are finite numbers: no [inf] and no [nan]. *)
Theorem makeYbus_finite_results (baseMVA : R) (bus : list bus_row)
    (branch : list branch_row) :
  forallb (branch_ok (length bus)) branch = true ->
  moderate baseMVA ->
  (forall r, In r bus -> bus_moderate r) ->
  (forall b, In b branch -> branch_moderate b) ->
  exists Ybus Yf Yt,
    makeYbus baseMVA bus branch = (bus_order_warning bus, Return (Ybus, Yf, Yt))
    /\ all_fin Ybus /\ all_fin Yf /\ all_fin Yt.
Proof.
  intros Hok Hmod _ Hbr. rewrite makeYbus_run by assumption.
  pose proof (moderate_neq0 Hmod) as Hbase.
  assert (Himp : forall b, In b branch -> BR_R b <> 0%R \/ BR_X b <> 0%R).
  { intros b Hb. destruct (Hbr b Hb) as [Hz _]. now apply impedance_moderate_neq0. }
  do 3 eexists. split; [reflexivity |].
  split; [now apply Ybus_matrix_fin |].
  split; unfold all_fin, Yf_matrix, Yt_matrix; cbn [data];
    apply branch_rows_fin; intros b Hb;
    first [apply yff_fin | apply yft_fin | apply ytf_fin | apply ytt_fin];
    apply impedance_neq0; now apply Himp.
Qed.

Lemma branch_moderate_sample : branch_moderate (mk_branch 0 1 1 2 3 1 0 30).
Proof.
  unfold branch_moderate. cbn [BR_STATUS BR_B SHIFT]. split; [| split].
  - apply impedance_moderate_small. cbn [BR_R BR_X].
    rewrite Rabs_R1, (Rabs_pos_eq 2), Rmax_right by lra. lra.
  - apply moderate_small. unfold tap_magnitude. cbn [TAP].
    destruct (Req_dec_T 0 0) as [_ | Hne]; [| now elim Hne].
    rewrite Rabs_R1. lra.
  - repeat split; apply bounded_small; rewrite Rabs_pos_eq; lra.
Qed.

Lemma bus_moderate_sample : bus_moderate (mk_bus 0 1 2) /\ bus_moderate (mk_bus 1 0 0).
Proof.
  unfold bus_moderate. cbn [GS BS].
  repeat split; apply bounded_small; rewrite Rabs_pos_eq; lra.
Qed.

Lemma makeYbus_finite_results_witness :
  let bus := [mk_bus 0 1 2; mk_bus 1 0 0] in
  let branch := [mk_branch 0 1 1 2 3 1 0 30] in
  forallb (branch_ok (length bus)) branch = true
  /\ moderate 100
  /\ (forall r, In r bus -> bus_moderate r)
  /\ (forall b, In b branch -> branch_moderate b)
  /\ exists Ybus Yf Yt,
       makeYbus 100 bus branch = (bus_order_warning bus, Return (Ybus, Yf, Yt))
       /\ all_fin Ybus /\ all_fin Yf /\ all_fin Yt.
Proof.
  intros bus branch.
  assert (H1 : forallb (branch_ok (length bus)) branch = true) by reflexivity.
  assert (H2 : moderate 100) by (apply moderate_small; rewrite Rabs_pos_eq; lra).
  assert (H3 : forall r, In r bus -> bus_moderate r).
  { intros r [<- | [<- | []]]; apply bus_moderate_sample. }
  assert (H4 : forall b, In b branch -> branch_moderate b).
  { intros b [<- | []]. apply branch_moderate_sample. }
  split; [exact H1 |]. split; [exact H2 |]. split; [exact H3 |]. split; [exact H4 |].
  exact (@makeYbus_finite_results 100 bus branch H1 H2 H3 H4).
Defined.

(** X10. The two functions compose: for tables that [makeYbus] accepts,
    with base power, branch data and bus shunts of moderate size, the [Ybus]
    it returns is accepted by [dSbus_dV] for every voltage vector with one
    entry per bus whose magnitudes lie between [10^-30] and [10^30], and the
    two derivative matrices have the entries of the dense formulas in that
    [Ybus]. *)
Theorem makeYbus_then_dSbus_dV (baseMVA : R) (bus : list bus_row)
    (branch : list branch_row) (V : list complex128) :
  forallb (branch_ok (length bus)) branch = true ->
  moderate baseMVA ->
  (forall r, In r bus -> bus_moderate r) ->
  (forall b, In b branch -> branch_moderate b) ->
  (0 < length bus)%nat -> length V = length bus ->
  Forall voltage_moderate V ->
  exists Ybus Yf Yt dS_dVm dS_dVa,
    makeYbus baseMVA bus branch = (bus_order_warning bus, Return (Ybus, Yf, Yt))
    /\ dSbus_dV Ybus V = ([], Return (dS_dVm, dS_dVa))
    /\ shape dS_dVm = (length bus, length bus)
    /\ shape dS_dVa = (length bus, length bus)
    /\ (forall i j,
          getitem dS_dVm i j = Dense.dS_dVm (length bus) (getitem Ybus) V i j)
    /\ (forall i j,
          getitem dS_dVa i j = Dense.dS_dVa (length bus) (getitem Ybus) V i j).
Proof.
  intros Hok Hmod _ Hbr Hn HV HmodV. rewrite makeYbus_run by assumption.
  pose proof (moderate_neq0 Hmod) as Hbase.
  assert (Himp : forall b, In b branch -> BR_R b <> 0%R \/ BR_X b <> 0%R).
  { intros b Hb. destruct (Hbr b Hb) as [Hz _]. now apply impedance_moderate_neq0. }
  assert (HfinV : Forall is_fin V).
  { eapply Forall_impl; [| exact HmodV]. apply voltage_moderate_fin. }
  assert (Hnz : Forall (fun v => cabs v <> czero) V).
  { eapply Forall_impl; [| exact HmodV]. apply voltage_moderate_neq0. }
  assert (Hshape : shape (Ybus_matrix baseMVA bus branch) = (length V, length V))
    by now rewrite HV.
  pose proof (@Ybus_matrix_wf baseMVA bus branch Hok) as Hwf.
  pose proof (@Ybus_matrix_fin baseMVA bus branch Hbase Himp) as Hfin.
  rewrite <- HV in Hn.
  do 5 eexists. split; [reflexivity |].
  split; [exact (@dSbus_dV_run _ V Hn Hshape) |].
  rewrite <- HV. split; [reflexivity |]. split; [reflexivity |].
  split; intros i j.
  - exact (@dS_dVm_entry _ V Hshape Hwf Hfin HfinV Hnz i j).
  - exact (@dS_dVa_entry _ V Hshape Hwf Hfin HfinV i j).
Qed.


Lemma makeYbus_then_dSbus_dV_witness :
  let bus := [mk_bus 0 1 2; mk_bus 1 0 0] in
  let branch := [mk_branch 0 1 1 2 3 1 0 30] in
  let V := [Fin (1%R, 0%R); Fin (1%R, 0%R)] in
  forallb (branch_ok (length bus)) branch = true
  /\ moderate 100
  /\ (forall r, In r bus -> bus_moderate r)
  /\ (forall b, In b branch -> branch_moderate b)
  /\ (0 < length bus)%nat /\ length V = length bus
  /\ Forall voltage_moderate V
  /\ exists Ybus Yf Yt dS_dVm dS_dVa,
       makeYbus 100 bus branch = (bus_order_warning bus, Return (Ybus, Yf, Yt))
       /\ dSbus_dV Ybus V = ([], Return (dS_dVm, dS_dVa))
       /\ shape dS_dVm = (length bus, length bus)
       /\ shape dS_dVa = (length bus, length bus)
       /\ (forall i j,
             getitem dS_dVm i j = Dense.dS_dVm (length bus) (getitem Ybus) V i j)
       /\ (forall i j,
             getitem dS_dVa i j = Dense.dS_dVa (length bus) (getitem Ybus) V i j).
Proof.
  intros bus branch V.
  assert (H1 : forallb (branch_ok (length bus)) branch = true) by reflexivity.
  assert (H2 : moderate 100) by (apply moderate_small; rewrite Rabs_pos_eq; lra).
  assert (H3 : forall r, In r bus -> bus_moderate r).
  { intros r [<- | [<- | []]]; apply bus_moderate_sample. }
  assert (H4 : forall b, In b branch -> branch_moderate b).
  { intros b [<- | []]. apply branch_moderate_sample. }
  assert (H5 : (0 < length bus)%nat) by (simpl; lia).
  assert (H6 : length V = length bus) by reflexivity.
  assert (H7 : Forall voltage_moderate V).
  { constructor; [apply voltage_moderate_one |].
    constructor; [apply voltage_moderate_one | constructor]. }
  split; [exact H1 |]. split; [exact H2 |]. split; [exact H3 |]. split; [exact H4 |].
  split; [exact H5 |]. split; [exact H6 |]. split; [exact H7 |].
  exact (@makeYbus_then_dSbus_dV 100 bus branch V H1 H2 H3 H4 H5 H6 H7).
Defined.

(** X11. Branches that are out of service ([BR_STATUS = 0]) and whose
    impedance and tap magnitude are of moderate size add nothing to [Ybus]:
    dropping them from the branch table leaves every entry of the returned
    [Ybus] as it was. *)
Theorem makeYbus_in_service_only (baseMVA : R) (bus : list bus_row)
    (branch : list branch_row) :
  forallb (branch_ok (length bus)) branch = true ->
  (forall b, In b branch -> BR_STATUS b = 0%R ->
     impedance_moderate b /\ tap_moderate b) ->
  exists Ybus Yf Yt Ybus' Yf' Yt',
    makeYbus baseMVA bus branch = (bus_order_warning bus, Return (Ybus, Yf, Yt))
    /\ makeYbus baseMVA bus (filter in_service branch)
       = (bus_order_warning bus, Return (Ybus', Yf', Yt'))
    /\ shape Ybus' = shape Ybus
    /\ forall i j, getitem Ybus' i j = getitem Ybus i j.
Proof.
  intros Hok Hmod.
  assert (Himp : forall b, In b branch -> BR_STATUS b = 0%R ->
                   BR_R b <> 0%R \/ BR_X b <> 0%R).
  { intros b Hb Hs. destruct (Hmod b Hb Hs) as [Hz _].
    now apply impedance_moderate_neq0. }
  pose proof (forallb_filter (branch_ok (length bus)) in_service branch Hok) as Hok'.
  rewrite !makeYbus_run by assumption. do 6 eexists.
  split; [reflexivity |]. split; [reflexivity |]. split; [reflexivity |].
  intros i j. rewrite !getitem_Ybus. now apply Ybus_entry_in_service.
Qed.

Lemma makeYbus_in_service_only_witness :
  let bus := [mk_bus 0 1 2; mk_bus 1 0 0] in
  let branch := [mk_branch 0 1 1 2 3 1 0 30; mk_branch 1 0 0 1 0 0 2 0] in
  forallb (branch_ok (length bus)) branch = true
  /\ (forall b, In b branch -> BR_STATUS b = 0%R ->
        impedance_moderate b /\ tap_moderate b)
  /\ exists Ybus Yf Yt Ybus' Yf' Yt',
       makeYbus 100 bus branch = (bus_order_warning bus, Return (Ybus, Yf, Yt))
       /\ makeYbus 100 bus (filter in_service branch)
          = (bus_order_warning bus, Return (Ybus', Yf', Yt'))
       /\ shape Ybus' = shape Ybus
       /\ forall i j, getitem Ybus' i j = getitem Ybus i j.
Proof.
  intros bus branch.
  assert (H1 : forallb (branch_ok (length bus)) branch = true) by reflexivity.
  assert (H2 : forall b, In b branch -> BR_STATUS b = 0%R ->
                 impedance_moderate b /\ tap_moderate b).
  { intros b [<- | [<- | []]] Hs.
    - cbn [BR_STATUS] in Hs. lra.
    - split.
      + apply impedance_moderate_small. cbn [BR_R BR_X].
        rewrite Rabs_R0, Rabs_R1, Rmax_right by lra. lra.
      + apply moderate_small. unfold tap_magnitude. cbn [TAP].
        destruct (Req_dec_T 2 0) as [H0 | _]; [lra |].
        rewrite Rabs_pos_eq; lra. }
  split; [exact H1 |]. split; [exact H2 |].
  exact (@makeYbus_in_service_only 100 bus branch H1 H2).
Defined.

(** X12. A tap ratio stored as 0 stands for the nominal ratio 1: replacing
    every zero in the [TAP] column by 1 does not change what [makeYbus]
    writes, returns or raises. *)
Theorem makeYbus_default_tap (baseMVA : R) (bus : list bus_row)
    (branch : list branch_row) :
  makeYbus baseMVA bus (map with_default_tap branch) = makeYbus baseMVA bus branch.
Proof.
  unfold makeYbus. rewrite !Yff_map, !Yft_map, !Ytf_map, !Ytt_map.
  rewrite length_map. unfold col at 2 3. rewrite !map_map.
  rewrite (map_ext _ _ yff_default), (map_ext _ _ yft_default), (map_ext _ _ ytf_default).
  reflexivity.
Qed.


(** X14. [dSbus_dV] returns exactly when [Ybus] is square, [V] has as many
    entries as [Ybus] has columns, and there is at least one bus; in every
    other case it raises [ValueError]. *)
Theorem dSbus_dV_outcome (Ybus : csr_matrix) (V : list complex128) :
  snd (dSbus_dV Ybus V)
  = if (ncols Ybus =? length V)%nat && (nrows Ybus =? length V)%nat
       && (0 <? length V)%nat
    then Return (dS_dVm_matrix Ybus V, dS_dVa_matrix Ybus V)
    else Raise ValueError.
Proof.
  destruct (Nat.eqb_spec (ncols Ybus) (length V)) as [Hc | Hc]; cbn [andb].
  - destruct (Nat.ltb_spec 0 (length V)) as [Hn | Hn].
    + destruct (Nat.eqb_spec (nrows Ybus) (length V)) as [Hr | Hr]; cbn [andb].
      * rewrite dSbus_dV_run; [reflexivity | assumption |].
        destruct Ybus as [[r c] d]. unfold nrows, ncols in *. cbn in *. congruence.
      * now rewrite dSbus_dV_bad_rows.
    + rewrite andb_false_r. rewrite dSbus_dV_empty; [reflexivity | assumption | lia].
  - now rewrite dSbus_dV_bad_columns.
Qed.

(** X15. The derivative matrices keep the sparsity pattern of [Ybus]: off
    the diagonal, where [Ybus] stores no element, both [dS_dVm] and
    [dS_dVa] are zero, whatever the voltages are. *)
Theorem dSbus_dV_sparsity (Ybus : csr_matrix) (V : list complex128) (i j : Z) :
  (0 < length V)%nat ->
  shape Ybus = (length V, length V) -> wf_csr Ybus ->
  in_range (length V) i = true -> i <> j ->
  (forall a, In a (data Ybus) -> at_ij i j a = false) ->
  exists dS_dVm dS_dVa,
    dSbus_dV Ybus V = ([], Return (dS_dVm, dS_dVa))
    /\ getitem dS_dVm i j = czero /\ getitem dS_dVa i j = czero.
Proof.
  intros Hn Hshape Hwf Hi Hij Hnone. do 2 eexists.
  split; [exact (@dSbus_dV_run Ybus V Hn Hshape) |].
  exact (@off_pattern_zero Ybus V Hshape Hwf i j Hi Hij Hnone).
Qed.

Lemma dSbus_dV_sparsity_witness :
  let Ybus := mk_csr (2%nat, 2%nat) [(0%Z, 0%Z, Fin (1%R, 0%R)); (1%Z, 1%Z, NonFin)] in
  let V := [NonFin; Fin (0%R, 0%R)] in
  (0 < length V)%nat
  /\ shape Ybus = (length V, length V) /\ wf_csr Ybus
  /\ in_range (length V) 0 = true /\ 0%Z <> 1%Z
  /\ (forall a, In a (data Ybus) -> at_ij 0 1 a = false)
  /\ exists dS_dVm dS_dVa,
       dSbus_dV Ybus V = ([], Return (dS_dVm, dS_dVa))
       /\ getitem dS_dVm 0 1 = czero /\ getitem dS_dVa 0 1 = czero.
Proof.
  intros Ybus V.
  assert (H1 : (0 < length V)%nat) by (simpl; lia).
  assert (H2 : shape Ybus = (length V, length V)) by reflexivity.
  assert (H3 : wf_csr Ybus) by (repeat constructor).
  assert (H4 : in_range (length V) 0 = true) by reflexivity.
  assert (H5 : 0%Z <> 1%Z) by lia.
  assert (H6 : forall a, In a (data Ybus) -> at_ij 0 1 a = false).
  { intros a [<- | [<- | []]]; reflexivity. }
  split; [exact H1 |]. split; [exact H2 |]. split; [exact H3 |]. split; [exact H4 |].
  split; [exact H5 |]. split; [exact H6 |].
  exact (@dSbus_dV_sparsity Ybus V 0%Z 1%Z H1 H2 H3 H4 H5 H6).
Defined.




